(** * Command-Parser: a shallow embedding of the dispatcher core

    The development follows the TypeScript sources: [requirement.ts],
    [tree.ts], [builder.ts], [suggestions.ts] and [command.ts].  Each
    definition carries the name of the function it embeds.

    Conventions of the embedding.
    - A JavaScript string is a [string] of code units below 256; indices and
      cursors are [Z], as the source mixes them with the sentinel [-1].
    - A JavaScript closure stored in the tree (executor, redirect modifier,
      suggestion provider, argument type) is kept as a handle; what it does
      when called is supplied by an environment where a function needs it.
    - A [Map] whose iteration order is observable is an association list in
      insertion order; a [Map] only read by key is a [gmap].
    - Arrays that the program mutates after receiving them from a caller
      live in an explicit heap, so that sharing is visible. *)

From Stdlib Require Import ZArith String Ascii List Lia.
From Stdlib Require OrderedTypeEx.
From stdpp Require Import base option list gmap strings.

Set Implicit Arguments.
Set Warnings "-register-all".

Open Scope Z_scope.

(** ** JavaScript strings *)

Module JsString.

Definition length (s : string) : Z := Z.of_nat (String.length s).

Definition clamp (len i : Z) : Z := Z.max 0 (Z.min i len).

(** [String.prototype.substring(a, b)]: both indices are clamped to
    [0 .. length] and swapped when [a > b]. *)
Definition substring (s : string) (a b : Z) : string :=
  let a' := clamp (length s) a in
  let b' := clamp (length s) b in
  let lo := Z.min a' b' in
  let hi := Z.max a' b' in
  String.substring (Z.to_nat lo) (Z.to_nat (hi - lo)) s.

(** [substring(a)] with the end omitted. *)
Definition substringFrom (s : string) (a : Z) : string :=
  substring s a (length s).

(** [charAt] as an optional character: [None] stands for the empty string
    returned out of range. *)
Definition charAt (s : string) (i : Z) : option ascii :=
  if i <? 0 then None else String.get (Z.to_nat i) s.

(** Lower-casing of one code unit below 256: A-Z and the Latin-1 capitals
    (U+00C0 .. U+00DE, U+00D7 excluded) move up by 32. *)
Definition lowerChar (c : ascii) : ascii :=
  let n := nat_of_ascii c in
  if ((65 <=? n)%nat && (n <=? 90)%nat)
     || ((192 <=? n)%nat && (n <=? 222)%nat && negb (n =? 215)%nat)
  then ascii_of_nat (n + 32) else c.

Fixpoint toLowerCase (s : string) : string :=
  match s with
  | EmptyString => EmptyString
  | String c s' => String (lowerChar c) (toLowerCase s')
  end.

Definition startsWith (s pre : string) : bool := String.prefix pre s.

(** Strict equality [===] on strings. *)
Definition eqb (a b : string) : bool := String.eqb a b.

(** [Array.prototype.includes] on an array of strings. *)
Definition includes (l : list string) (x : string) : bool :=
  existsb (eqb x) l.

End JsString.

(** ** StringRange *)

Module StringRange.

(** Modelled from the spec: [range.ts] is not among the sources.  A range
    is a pair of positions in the input; [at] is the empty range at a
    position, [encompassing] the smallest range covering two ranges. *)
Record t := mk { start : Z; end_ : Z }.

Definition at_ (pos : Z) : t := mk pos pos.
Definition between (s e : Z) : t := mk s e.
Definition encompassing (a b : t) : t :=
  mk (Z.min (start a) (start b)) (Z.max (end_ a) (end_ b)).
Definition isEmpty (r : t) : bool := start r =? end_ r.
Definition equals (a b : t) : bool :=
  (start a =? start b) && (end_ a =? end_ b).

End StringRange.

(** ** StringReader *)

Module StringReader.

(** Modelled from the spec: [reader.ts] is not among the sources.  The
    reader is a cursor over an immutable string with [peek], [skip],
    [canRead(n)], [canReadAnything], [clone] and cursor assignment. *)
Record t := mk { string_ : string; cursor : Z }.

Definition new (s : string) : t := mk s 0.
Definition canRead (r : t) (n : Z) : bool :=
  cursor r + n <=? JsString.length (string_ r).
Definition canReadAnything (r : t) : bool := canRead r 1.
Definition peek (r : t) : option ascii := JsString.charAt (string_ r) (cursor r).
Definition skip (r : t) : t := mk (string_ r) (cursor r + 1).
Definition setCursor (r : t) (c : Z) : t := mk (string_ r) c.
Definition clone (r : t) : t := r.
Definition totalLength (r : t) : Z := JsString.length (string_ r).

End StringReader.

(** The argument separator, [ARGUMENT_SEPARATOR = ' ']. *)
Definition ARGUMENT_SEPARATOR : ascii := " "%char.

(** ** Literal matching *)

Module LiteralCommandNode.

(** One round of the loop of [_parse]: [Some end] when the literal matches
    at the cursor and is followed by the end of input or a space. *)
Definition tryLiteral (reader : StringReader.t) (literal : string) : option Z :=
  let start := StringReader.cursor reader in
  if StringReader.canRead reader (JsString.length literal) then
    let end_ := start + JsString.length literal in
    if JsString.eqb
         (JsString.toLowerCase
            (JsString.substring (StringReader.string_ reader) start end_))
         literal
    then
      let reader' := StringReader.setCursor reader end_ in
      if negb (StringReader.canReadAnything reader')
         || bool_decide (StringReader.peek reader' = Some " "%char)
      then Some end_
      else None
    else None
  else None.

(** [LiteralCommandNode._parse]: the end position with the reader moved
    there, or [-1] with the reader where it was. *)
Fixpoint _parse (literalNames : list string) (reader : StringReader.t)
  : Z * StringReader.t :=
  match literalNames with
  | [] => (-1, reader)
  | literal :: rest =>
      match tryLiteral reader literal with
      | Some end_ => (end_, StringReader.setCursor reader end_)
      | None => _parse rest reader
      end
  end.

(** [LiteralCommandNode.isValidInput]. *)
Definition isValidInput (literalNames : list string) (input : string) : bool :=
  -1 <? fst (_parse literalNames (StringReader.new input)).

(** [LiteralCommandNode.isMe]. *)
Definition isMe (literalNames : list string) (name : string) : bool :=
  JsString.includes literalNames (JsString.toLowerCase name).

End LiteralCommandNode.

(** ** Requirements ([requirement.ts]) *)

Module Requirement.
Section Defs.
Variables Source T : Type.

(** [RequirementFailure<T>]: both fields are optional. *)
Record RequirementFailure := mkFailure {
  showInTree : option bool;
  reason : option T
}.

(** [NormalizedRequirement<S, T>]: [None] is [undefined], permitted. *)
Definition NormalizedRequirement := Source -> option RequirementFailure.

(** [Requirement<S, T>] is a predicate or an array of requirements.  An
    array is a mutable object that callers and builders may share, so it
    is a location of the heap [arrays], the index of its cell. *)
Definition loc := nat.
Inductive Requirement :=
| ReqFn (f : NormalizedRequirement)
| ReqArr (l : loc).

Local Abbreviation arrays := (list (list Requirement)).

(** The loop shared by the closure returned by [requireAnd]: the failure
    of the first requirement that fails. *)
Fixpoint firstFailure (rs : list NormalizedRequirement) (user : Source)
  : option RequirementFailure :=
  match rs with
  | [] => None
  | requirement :: rest =>
      match requirement user with
      | Some failure => Some failure
      | None => firstFailure rest user
      end
  end.

(** The loop of the closure returned by [requireOr]: every requirement is
    called, [anyFailed] keeps the first failure. *)
Definition anyFailedLoop (rs : list NormalizedRequirement) (user : Source)
  : option RequirementFailure :=
  fold_left
    (fun anyFailed requirement =>
       match requirement user, anyFailed with
       | Some failure, None => Some failure
       | _, _ => anyFailed
       end)
    rs None.

(** [normalizeRequirement], with [requireAnd] inlined for arrays.  The
    recursion follows array references through the heap, which may be
    cyclic; [None] means the fuel ran out (the JavaScript recursion does
    not return) or the location is not allocated. *)
Fixpoint normalizeRequirement (fuel : nat) (h : arrays)
    (requirement : option Requirement) : option NormalizedRequirement :=
  match fuel with
  | O => None
  | S fuel' =>
      match requirement with
      | None => Some (fun _ => None)
      | Some (ReqArr l) =>
          rs ← h !! l;
          ns ← mapM (fun r => normalizeRequirement fuel' h (Some r)) rs;
          Some (firstFailure ns)
      | Some (ReqFn f) => Some f
      end
  end.

(** [requireNothing]. *)
Definition requireNothing : NormalizedRequirement := fun _ => None.

(** [requireAnd]. *)
Definition requireAnd (fuel : nat) (h : arrays) (requirements : list Requirement)
  : option NormalizedRequirement :=
  ns ← mapM (fun r => normalizeRequirement fuel h (Some r)) requirements;
  Some (firstFailure ns).

(** [requireOr]. *)
Definition requireOr (fuel : nat) (h : arrays) (requirements : list Requirement)
  : option NormalizedRequirement :=
  ns ← mapM (fun r => normalizeRequirement fuel h (Some r)) requirements;
  Some (anyFailedLoop ns).

(** Arrays nested at most [d] deep below a requirement: the recursion of
    [normalizeRequirement] returns on these. *)
Inductive depthBelow (h : arrays) : nat -> Requirement -> Prop :=
| depth_fn d f : depthBelow h d (ReqFn f)
| depth_arr d l rs :
    h !! l = Some rs ->
    Forall (depthBelow h d) rs ->
    depthBelow h (S d) (ReqArr l).

End Defs.

(** The heap of requirement arrays. *)
Abbreviation arrays Source T := (list (list (Requirement Source T))).

Arguments ReqFn {Source T} f.
Arguments ReqArr {Source T} l.
Arguments requireNothing {Source T} _.
Arguments mkFailure {T} _ _.

End Requirement.

(** ** JavaScript [Map] and [Array] helpers *)

Module JsMap.
Section Defs.
Variable V : Type.

(** A [Map<string, V>] in insertion order. *)
Definition t := list (string * V).

Fixpoint get (m : t) (k : string) : option V :=
  match m with
  | [] => None
  | (k', v) :: m' => if String.eqb k k' then Some v else get m' k
  end.

(** [Map.prototype.set]: an existing key keeps its position, a new key
    goes last. *)
Fixpoint set (m : t) (k : string) (v : V) : t :=
  match m with
  | [] => [(k, v)]
  | (k', v') :: m' =>
      if String.eqb k k' then (k', v) :: m' else (k', v') :: set m' k v
  end.

Fixpoint delete (m : t) (k : string) : t :=
  match m with
  | [] => []
  | (k', v') :: m' =>
      if String.eqb k k' then m' else (k', v') :: delete m' k
  end.

(** Replace the value stored under [k], when there is one. *)
Fixpoint replace (m : t) (k : string) (v : V) : t :=
  match m with
  | [] => []
  | (k', v') :: m' =>
      if String.eqb k k' then (k', v) :: m' else (k', v') :: replace m' k v
  end.

Definition values (m : t) : list V := map snd m.
Definition size (m : t) : Z := Z.of_nat (List.length m).

End Defs.
End JsMap.

Module JsArray.
Section Defs.
Variable A : Type.
Variable compareFn : A -> A -> Z.

(** [Array.prototype.sort(compareFn)] is stable; for a comparator that is
    a total preorder every stable sort returns the same array, computed
    here by insertion from the right. *)
Fixpoint insert (x : A) (l : list A) : list A :=
  match l with
  | [] => [x]
  | y :: l' => if compareFn x y <=? 0 then x :: l else y :: insert x l'
  end.

Definition sort (l : list A) : list A := fold_right insert [] l.

(** Each element is not after its right neighbour. *)
Fixpoint ordered (l : list A) : Prop :=
  match l with
  | [] => True
  | x :: l' =>
      match l' with
      | [] => True
      | y :: _ => compareFn x y <= 0
      end /\ ordered l'
  end.

End Defs.
End JsArray.

(** ** The command tree ([tree.ts]) *)

(** Closures held by nodes are stored as handles. *)
Definition Command := nat.
Definition RedirectModifier := nat.
Definition SuggestionProvider := nat.
Definition ArgumentType := nat.
(** A reference to a node that is not owned by the holder ([redirect]). *)
Definition NodeRef := nat.

Module CommandNode.
Section Defs.
Variables Source T : Type.

(** The subclasses of [CommandNode] with their own fields. *)
Inductive Kind :=
| Root
| Literal (literalNames : list string)
| Argument (name : string) (type : ArgumentType)
           (customSuggestions : option SuggestionProvider).

(** The fields of [CommandNode].  [literals] and [arguments] hold the
    same node objects as [childrenMap]. *)
Inductive t := mk {
  kind : Kind;
  command : option Command;
  commandDescription : option string;
  requirement : option (Requirement.NormalizedRequirement Source T);
  redirect : option NodeRef;
  modifier : option RedirectModifier;
  childrenMap : list (string * t);
  literals : list (string * t);
  arguments : list (string * t)
}.

(** [get name]: the first literal name, the argument name, or [''] for
    the root.  A literal is built from a non-empty array of names. *)
Definition name (n : t) : string :=
  match kind n with
  | Root => ""%string
  | Literal literalNames => hd ""%string literalNames
  | Argument name _ _ => name
  end.

Definition sortedKey (n : t) : string := name n.

Definition isLiteral (n : t) : bool :=
  match kind n with Literal _ => true | _ => false end.

(** [get children]. *)
Definition children (n : t) : list t := JsMap.values (childrenMap n).

Definition getChild (n : t) (name : string) : option t :=
  JsMap.get (childrenMap n) name.

Section Ordering.
(** [String.prototype.localeCompare] depends on the host's locale. *)
Variable localeCompare : string -> string -> Z.

(** [compareTo]. *)
Definition compareTo (this other : t) : Z :=
  if Bool.eqb (isLiteral this) (isLiteral other)
  then localeCompare (sortedKey this) (sortedKey other)
  else if isLiteral other then 1 else -1.

Definition compareEntries (a b : string * t) : Z := compareTo (snd a) (snd b).

(** The assignments of [addChild] as record updates. *)
Definition withCommand (n : t) (c : option Command) : t :=
  mk (kind n) c (commandDescription n) (requirement n) (redirect n)
     (modifier n) (childrenMap n) (literals n) (arguments n).

Definition withMaps (n : t) (cm ls args : list (string * t)) : t :=
  mk (kind n) (command n) (commandDescription n) (requirement n)
     (redirect n) (modifier n) cm ls args.

(** The branch of [addChild] for a new name. *)
Definition insertChild (parent node : t) : t :=
  withMaps parent
    (JsMap.set (childrenMap parent) (name node) node)
    (match kind node with
     | Literal _ => JsMap.set (literals parent) (name node) node
     | _ => literals parent
     end)
    (match kind node with
     | Argument _ _ _ => JsMap.set (arguments parent) (name node) node
     | _ => arguments parent
     end).

(** The merge branch of [addChild] mutates the existing child in place;
    the mutation is visible through every map that holds the child. *)
Definition replaceChild (parent : t) (key : string) (old child : t) : t :=
  withMaps parent
    (JsMap.replace (childrenMap parent) key child)
    (match kind old with
     | Literal _ => JsMap.replace (literals parent) key child
     | _ => literals parent
     end)
    (match kind old with
     | Argument _ _ _ => JsMap.replace (arguments parent) key child
     | _ => arguments parent
     end).

Definition sortChildren (n : t) : t :=
  withMaps n (JsArray.sort compareEntries (childrenMap n))
           (literals n) (arguments n).

(** [addChild]: [None] is the thrown
    ['Cannot add RootCommandNode as child']. *)
Fixpoint addChild (parent node : t) {struct node} : option t :=
  match kind node with
  | Root => None
  | _ =>
      updated ←
        match getChild parent (name node) with
        | Some child =>
            let child1 :=
              match command node with
              | Some c => withCommand child (Some c)
              | None => child
              end in
            child2 ←
              fold_left
                (fun acc '(_, grandchild) => c ← acc; addChild c grandchild)
                (childrenMap node) (Some child1);
            Some (replaceChild parent (name node) child child2)
        | None => Some (insertChild parent node)
        end;
      Some (sortChildren updated)
  end.

(** The state [addChild] leaves a node in: the children in sorted order,
    and every key of [literals] a key of [childrenMap]. *)
Definition settled (n : t) : Prop :=
  JsArray.ordered compareEntries (childrenMap n)
  /\ forall k, JsMap.get (literals n) k <> None ->
               JsMap.get (childrenMap n) k <> None.
End Ordering.

(** [removeChild]. *)
Definition removeChild (parent node : t) : t :=
  mk (kind parent) (command parent) (commandDescription parent)
     (requirement parent) (redirect parent) (modifier parent)
     (JsMap.delete (childrenMap parent) (name node))
     (match kind node with
      | Literal _ => JsMap.delete (literals parent) (name node)
      | _ => literals parent
      end)
     (match kind node with
      | Argument _ _ _ => JsMap.delete (arguments parent) (name node)
      | _ => arguments parent
      end).

(** The loop over the children in [checkRequirement]: [Some true] when
    some child is permitted, [None] when a call did not return. *)
Fixpoint anyPermitted (check : t -> option (option (Requirement.RequirementFailure T)))
    (cs : list t) : option bool :=
  match cs with
  | [] => Some false
  | child :: cs' =>
      match check child with
      | None => None
      | Some None => Some true
      | Some (Some _) => anyPermitted check cs'
      end
  end.

(** [checkRequirement].  The result [Some None] is [undefined]
    (permitted), [Some (Some failure)] a failure, and [None] means the
    fuel ran out: the redirect graph may be cyclic.  [resolve] gives the
    node a redirect refers to. *)
Fixpoint checkRequirement (fuel : nat) (resolve : NodeRef -> t) (this : t)
    (source : Source) : option (option (Requirement.RequirementFailure T)) :=
  match fuel with
  | O => None
  | S fuel' =>
      match (match requirement this with
             | Some r => r source
             | None => None
             end) with
      | Some failure => Some (Some failure)
      | None =>
          match command this with
          | Some _ => Some None
          | None =>
              viaRedirect ←
                match redirect this with
                | Some target =>
                    failure ← checkRequirement fuel' resolve (resolve target) source;
                    Some (bool_decide (failure = None))
                | None => Some false
                end;
              if (viaRedirect : bool) then Some None
              else
                viaChild ←
                  anyPermitted
                    (fun n => checkRequirement fuel' resolve n source)
                    (children this);
                (* both outcomes of the loop leave the function without a
                   value: [return;] inside it, the end of the body after *)
                if (viaChild : bool) then Some None else Some None
          end
      end
  end.

(** The constructor of [RootCommandNode]; its modifier is the closure
    [s => s], kept under the handle [rootModifier]. *)
Definition rootModifier : RedirectModifier := 0%nat.
Definition newRoot : t :=
  mk Root None None (Some (fun _ => None)) None (Some rootModifier) [] [] [].

End Defs.

Arguments newRoot {Source T}.

End CommandNode.

(** ** Builders ([builder.ts]) *)

Module ArgumentBuilder.
Section Defs.
Variables Source T : Type.
Variable localeCompare : string -> string -> Z.

Abbreviation Node := (CommandNode.t Source T).
Abbreviation Requirement := (Requirement.Requirement Source T).
Abbreviation arrays := (Requirement.arrays Source T).

(** The two concrete builders and their own fields. *)
Inductive Kind :=
| LiteralArgumentBuilder (literals : list string)
| RequiredArgumentBuilder (name : string) (type : ArgumentType)
                          (suggestionsProvider : option SuggestionProvider).

(** The fields of [ArgumentBuilder]; [arguments] is a root node used as
    the container of the children added so far. *)
Record t := mk {
  kind : Kind;
  arguments : Node;
  command : option Command;
  commandDescription : option string;
  requirement : option Requirement;
  target : option NodeRef;
  modifier : option RedirectModifier
}.

(** [new LiteralArgumentBuilder(literals)]. *)
Definition newLiteral (literals : list string) : t :=
  mk (LiteralArgumentBuilder literals) CommandNode.newRoot None None None None None.

(** [new RequiredArgumentBuilder(name, type)]. *)
Definition newRequired (name : string) (type : ArgumentType) : t :=
  mk (RequiredArgumentBuilder name type None) CommandNode.newRoot
     None None None None None.

Definition argumentList (b : t) : list Node :=
  CommandNode.children (arguments b).

(** [executes]. *)
Definition executes (b : t) (c : Command) (description : option string) : t :=
  mk (kind b) (arguments b) (Some c) description (requirement b)
     (target b) (modifier b).

Definition withRequirement (b : t) (r : option Requirement) : t :=
  mk (kind b) (arguments b) (command b) (commandDescription b) r
     (target b) (modifier b).

(** [requires]: an array already held is pushed to in place, whoever else
    holds it; a single requirement is wrapped in a new array with the
    incoming one; nothing held, the incoming one is kept as it is. *)
Definition requires (b : t) (r : Requirement) (h : arrays) : t * arrays :=
  match requirement b with
  | Some (Requirement.ReqArr l) =>
      match h !! l with
      | Some held => (b, <[l := held ++ [r]]> h)
      | None => (b, h)
      end
  | Some (Requirement.ReqFn f) =>
      (withRequirement b (Some (Requirement.ReqArr (List.length h))),
       h ++ [[Requirement.ReqFn f; r]])
  | None => (withRequirement b (Some r), h)
  end.

(** [RequiredArgumentBuilder.suggests]. *)
Definition suggests (b : t) (suggestionsProvider : SuggestionProvider) : t :=
  mk (match kind b with
      | RequiredArgumentBuilder name type _ =>
          RequiredArgumentBuilder name type (Some suggestionsProvider)
      | LiteralArgumentBuilder literals => LiteralArgumentBuilder literals
      end)
     (arguments b) (command b) (commandDescription b) (requirement b)
     (target b) (modifier b).

(** The chain [b.requires(r1).requires(r2)...], one call after the other. *)
Definition requiresAll (b : t) (rs : list Requirement) (h : arrays) : t * arrays :=
  fold_left (fun '(b, h) r => requires b r h) rs (b, h).

(** [forward]: [None] is the thrown ['Cannot forward a node with children']. *)
Definition forward (b : t) (target' : option NodeRef)
    (modifier' : option RedirectModifier) : option t :=
  match argumentList b with
  | [] => Some (mk (kind b) (arguments b) (command b) (commandDescription b)
                   (requirement b) target' modifier')
  | _ :: _ => None
  end.

(** [redirect]. *)
Definition redirect (b : t) (target' : NodeRef)
    (modifier' : option RedirectModifier) (description : option string)
  : option t :=
  forward (mk (kind b) (arguments b) (command b) description (requirement b)
              (target b) (modifier b))
          (Some target') modifier'.

(** [build] of both builders.  [None]: the normalisation of the
    requirement does not return, or a child was refused. *)
Definition build (fuel : nat) (h : arrays) (b : t) : option Node :=
  normalized ← Requirement.normalizeRequirement fuel h (requirement b);
  let result :=
    CommandNode.mk
      (match kind b with
       | LiteralArgumentBuilder literals => CommandNode.Literal literals
       | RequiredArgumentBuilder name type provider =>
           CommandNode.Argument name type provider
       end)
      (command b) (commandDescription b) (Some normalized)
      (target b) (modifier b) [] [] [] in
  fold_left
    (fun acc argument =>
       node ← acc; CommandNode.addChild localeCompare node argument)
    (argumentList b) (Some result).

(** [then], and the tail of [thenLiteral] and [thenArgument] once the
    filler has run on the sub-builder. *)
Definition then_ (fuel : nat) (h : arrays) (b sub : t) : option t :=
  child ← build fuel h sub;
  arguments' ← CommandNode.addChild localeCompare (arguments b) child;
  Some (mk (kind b) arguments' (command b) (commandDescription b)
           (requirement b) (target b) (modifier b)).

End Defs.

Arguments newLiteral {Source T} literals.
Arguments newRequired {Source T} name type.

End ArgumentBuilder.

(** ** The dispatcher: registration ([command.ts]) *)

Module CommandDispatcher.
Section Defs.
Variables Source T : Type.
Variable localeCompare : string -> string -> Z.

Abbreviation Node := (CommandNode.t Source T).

(** The dispatcher owns the root; its [consumer] callback is part of the
    environment of [executeResults]. *)
Record t := mk { root : Node }.

Definition new : t := mk CommandNode.newRoot.

(** [register]: the built node is returned. *)
Definition register (fuel : nat) (h : Requirement.arrays Source T) (d : t)
    (command : ArgumentBuilder.t Source T) : option (t * Node) :=
  build ← ArgumentBuilder.build localeCompare fuel h command;
  root' ← CommandNode.addChild localeCompare (root d) build;
  Some (mk root', build).

(** [registerBuilt]. *)
Definition registerBuilt (d : t) (command : Node) : option (t * Node) :=
  root' ← CommandNode.addChild localeCompare (root d) command;
  Some (mk root', command).

(** [unregister]. *)
Definition unregister (d : t) (command : Node) : t :=
  mk (CommandNode.removeChild (root d) command).

End Defs.
End CommandDispatcher.

(** ** Suggestions ([suggestions.ts]) *)

Module Suggestions.
Section Defs.
(** [SuggestionMetadata] is carried along and never inspected here. *)
Variable Metadata : Type.

Record Suggestion := mkSuggestion {
  s_range : StringRange.t;
  metadata : Metadata;
  text : string;
  tooltip : option string
}.

(** [Suggestion.expand]. *)
Definition expand (this : Suggestion) (command : string) (range : StringRange.t)
  : Suggestion :=
  if StringRange.equals range (s_range this) then this
  else
    let before :=
      if StringRange.start range <? StringRange.start (s_range this)
      then JsString.substring command (StringRange.start range)
                              (StringRange.start (s_range this))
      else ""%string in
    let after :=
      if StringRange.end_ (s_range this) <? StringRange.end_ range
      then JsString.substring command (StringRange.end_ (s_range this))
                              (StringRange.end_ range)
      else ""%string in
    mkSuggestion range (metadata this)
                 (before +:+ text this +:+ after) (tooltip this).

(** [Suggestion.apply]: the input with the range of the suggestion
    replaced by its text; a suggestion whose range is the whole input
    returns the input. *)
Definition apply (this : Suggestion) (input : string) : string :=
  if (StringRange.start (s_range this) =? 0)
     && (StringRange.end_ (s_range this) =? JsString.length input)
  then input
  else
    let result := ""%string in
    let result :=
      if 0 <? StringRange.start (s_range this)
      then (result +:+ JsString.substring input 0 (StringRange.start (s_range this)))%string
      else result in
    let result := (result +:+ text this)%string in
    if StringRange.end_ (s_range this) <? JsString.length input
    then (result +:+ JsString.substringFrom input (StringRange.end_ (s_range this)))%string
    else result.

Record t := mk {
  range : StringRange.t;
  suggestions : list Suggestion
}.

Definition EMPTY_SUGGESTIONS : t := mk (StringRange.at_ 0) [].
Definition empty : t := EMPTY_SUGGESTIONS.

(** [Suggestions.create].  The running minimum and maximum start from the
    first suggestion, which is what [Infinity] and [-Infinity] give on a
    non-empty array.  The [Set] removes an object listed twice and nothing
    else, and [sort(undefined)] compares the elements as the same string
    ["[object Object]"], so the expanded suggestions stay in order. *)
Definition create (command : string) (suggestions : list Suggestion) : t :=
  match suggestions with
  | [] => EMPTY_SUGGESTIONS
  | first :: _ =>
      let start :=
        fold_left (fun acc s => Z.min (StringRange.start (s_range s)) acc)
                  suggestions (StringRange.start (s_range first)) in
      let end_ :=
        fold_left (fun acc s => Z.max (StringRange.end_ (s_range s)) acc)
                  suggestions (StringRange.end_ (s_range first)) in
      let range := StringRange.mk start end_ in
      mk range (map (fun s => expand s command range) suggestions)
  end.

(** [Suggestions.merge]. *)
Definition merge (command : string) (input : list t) : t :=
  match input with
  | [] => EMPTY_SUGGESTIONS
  | [only] => only
  | _ => create command (concat (map suggestions input))
  end.

(** [SuggestionsBuilder]; [remaining] is fixed by the constructor. *)
Record SuggestionsBuilder := mkBuilder {
  input : string;
  start : Z;
  b_metadata : Metadata;
  remaining : string;
  result : list Suggestion
}.

Definition newBuilder (input : string) (start : Z) (metadata : Metadata)
  : SuggestionsBuilder :=
  mkBuilder input start metadata (JsString.substringFrom input start) [].

(** [SuggestionsBuilder.suggest]. *)
Definition suggest (b : SuggestionsBuilder) (text : string)
    (tooltip : option string) : SuggestionsBuilder :=
  if JsString.eqb text (remaining b) then b
  else
    mkBuilder (input b) (start b) (b_metadata b) (remaining b)
      (result b ++
         [mkSuggestion
            (StringRange.between (start b) (JsString.length (input b)))
            (b_metadata b) text tooltip]).

(** [SuggestionsBuilder.build]. *)
Definition build (b : SuggestionsBuilder) : t := create (input b) (result b).

(** [SuggestionsBuilder.add]. *)
Definition add (b other : SuggestionsBuilder) : SuggestionsBuilder :=
  mkBuilder (input b) (start b) (b_metadata b) (remaining b)
            (result b ++ result other).

(** [SuggestionsBuilder.createOffset] and [restart]. *)
Definition createOffset (b : SuggestionsBuilder) (start : Z) : SuggestionsBuilder :=
  newBuilder (input b) start (b_metadata b).
Definition restart (b : SuggestionsBuilder) : SuggestionsBuilder :=
  newBuilder (input b) (start b) (b_metadata b).

(** Every suggestion of a list covers [range] and differs from [rem]. *)
Definition fresh_at (range : StringRange.t) (rem : string) (l : list Suggestion)
  : Prop :=
  Forall (fun s => s_range s = range /\ text s <> rem) l.

(** A builder [b] reached from [b0]: it looks at the same input from the
    same start, and its suggestions cover the rest of the input without
    repeating it. *)
Definition seeded (b0 b : SuggestionsBuilder) : Prop :=
  input b = input b0
  /\ start b = start b0
  /\ remaining b = remaining b0
  /\ b_metadata b = b_metadata b0
  /\ fresh_at (StringRange.between (start b0) (JsString.length (input b0)))
              (remaining b0) (result b).

End Defs.
End Suggestions.

(** ** Contexts ([command.ts]) *)

(** The errors the dispatcher throws, and [Thrown] for whatever a closure
    of the host throws. *)
Inductive Error (T : Type) :=
| UnknownSomethingError (reader : StringReader.t) (something : string)
| ExpectedArgumentSeparatorError (reader : StringReader.t)
| LiteralError (reader : StringReader.t) (literal : string)
| RequirementFailedError (reason : T)
| Thrown (message : string).

Arguments UnknownSomethingError {T} reader something.
Arguments ExpectedArgumentSeparatorError {T} reader.
Arguments LiteralError {T} reader literal.
Arguments RequirementFailedError {T} reason.
Arguments Thrown {T} message.

Module Context.
Section Defs.
Variables Source T Value : Type.

Abbreviation Node := (CommandNode.t Source T).

(** [ParsedArgument], as [ArgumentCommandNode.parse] builds it. *)
Record ParsedArgument := mkParsedArgument {
  pa_range : StringRange.t;
  result : Value;
  argumentType : ArgumentType
}.

(** [ParsedCommandNode]. *)
Record ParsedCommandNode := mkParsedCommandNode {
  node : Node;
  pn_range : StringRange.t
}.

(** [SuggestionContext]. *)
Record SuggestionContext := mkSuggestionContext {
  parent : Node;
  startPos : Z
}.

(** [CommandContext]. *)
Inductive CommandContext := mkContext {
  source : Source;
  input : string;
  parsedArguments : gmap string ParsedArgument;
  rootNode : Node;
  nodes : list ParsedCommandNode;
  range : StringRange.t;
  command : option Command;
  child : option CommandContext;
  modifier : option RedirectModifier
}.

(** [CommandContext.copyFor]: the same context when the source is the
    same, a copy with the new source otherwise. *)
Definition copyFor (this : CommandContext) (source' : Source) : CommandContext :=
  mkContext source' (input this) (parsedArguments this) (rootNode this)
            (nodes this) (range this) (command this) (child this)
            (modifier this).

(** [get hasNodes]. *)
Definition hasNodes (this : CommandContext) : bool :=
  negb (Nat.eqb (List.length (nodes this)) 0).

(** What [for (key in iterator)] walks over: the enumerable string-keyed
    properties of the object.  The iterator returned by [Map.keys()] has
    none, neither own nor inherited, whatever the map holds. *)
Definition forInKeysOfMapIterator (m : gmap string ParsedArgument) : list string := [].

(** [CommandContext.getArguments]: the object built by the loop, a key
    holding [None] when it was assigned [undefined]. *)
Definition getArguments (this : CommandContext)
  : gmap string (option ParsedArgument) :=
  fold_left
    (fun result key => <[key := parsedArguments this !! key]> result)
    (forInKeysOfMapIterator (parsedArguments this)) ∅.

(** [CommandContext.getArgumentIfExists]: [None] is [null]. *)
Definition getArgumentIfExists (this : CommandContext) (name : string)
  : option Value :=
  match parsedArguments this !! name with
  | None => None
  | Some argument => Some (result argument)
  end.

(** The double quote of the message of [getArgument]. *)
Definition quote : string := String (ascii_of_nat 34) EmptyString.

(** [CommandContext.getArgument]: [inl] is the message of the thrown
    [Error]. *)
Definition getArgument (this : CommandContext) (name : string)
  : string + Value :=
  match parsedArguments this !! name with
  | None =>
      inl ("No such argument " +:+ quote +:+ name +:+ quote
           +:+ " exists on this command")%string
  | Some argument => inr (result argument)
  end.

(** [CommandContextBuilder]; the [dispatcher] field is only handed on. *)
Inductive CommandContextBuilder := mkBuilder {
  b_source : Source;
  b_rootNode : Node;
  args : gmap string ParsedArgument;
  b_nodes : list ParsedCommandNode;
  b_command : option Command;
  b_child : option CommandContextBuilder;
  b_range : StringRange.t;
  b_modifier : option RedirectModifier
}.

(** [new CommandContextBuilder(dispatcher, source, rootNode, start)]. *)
Definition newBuilder (source : Source) (rootNode : Node) (start : Z)
  : CommandContextBuilder :=
  mkBuilder source rootNode ∅ [] None None (StringRange.at_ start) None.

(** [withSource]. *)
Definition withSource (this : CommandContextBuilder) (source : Source) :=
  mkBuilder source (b_rootNode this) (args this) (b_nodes this)
            (b_command this) (b_child this) (b_range this) (b_modifier this).

(** [withArgument]. *)
Definition withArgument (this : CommandContextBuilder) (name : string)
    (argument : ParsedArgument) :=
  mkBuilder (b_source this) (b_rootNode this) (<[name := argument]> (args this))
            (b_nodes this) (b_command this) (b_child this) (b_range this)
            (b_modifier this).

(** [withCommand]. *)
Definition withCommand (this : CommandContextBuilder) (command : option Command) :=
  mkBuilder (b_source this) (b_rootNode this) (args this) (b_nodes this)
            command (b_child this) (b_range this) (b_modifier this).

(** [withNode]. *)
Definition withNode (this : CommandContextBuilder) (node : Node)
    (range : StringRange.t) :=
  mkBuilder (b_source this) (b_rootNode this) (args this)
            (b_nodes this ++ [mkParsedCommandNode node range])
            (b_command this) (b_child this)
            (StringRange.encompassing (b_range this) range)
            (CommandNode.modifier node).

(** [withChild]. *)
Definition withChild (this child : CommandContextBuilder) :=
  mkBuilder (b_source this) (b_rootNode this) (args this) (b_nodes this)
            (b_command this) (Some child) (b_range this) (b_modifier this).

(** [copy]: a new builder at the start of the range, then the fields the
    method assigns.  [modifier] is not among them. *)
Definition copy (this : CommandContextBuilder) : CommandContextBuilder :=
  let fresh := newBuilder (b_source this) (b_rootNode this)
                          (StringRange.start (b_range this)) in
  mkBuilder (b_source fresh) (b_rootNode fresh)
            (list_to_map (map_to_list (args fresh) ++ map_to_list (args this)))
            (b_nodes fresh ++ b_nodes this)
            (b_command this) (b_child this) (b_range this)
            (b_modifier fresh).

(** [build]. *)
Fixpoint build (this : CommandContextBuilder) (input : string) : CommandContext :=
  mkContext (b_source this) input (args this) (b_rootNode this)
            (b_nodes this) (b_range this) (b_command this)
            (match b_child this with
             | Some c => Some (build c input)
             | None => None
             end)
            (b_modifier this).

(** The loop over the recorded nodes in [findSuggestionContext]. *)
Fixpoint nodeAtCursor (prev : Node) (nodes : list ParsedCommandNode)
    (cursor : Z) : Node + SuggestionContext :=
  match nodes with
  | [] => inl prev
  | n :: rest =>
      if (StringRange.start (pn_range n) <=? cursor)
         && (cursor <=? StringRange.end_ (pn_range n))
      then inr (mkSuggestionContext prev (StringRange.start (pn_range n)))
      else nodeAtCursor (node n) rest cursor
  end.

(** [findSuggestionContext]: [None] is the thrown
    ["Can't find node before cursor"]. *)
Fixpoint findSuggestionContext (this : CommandContextBuilder) (cursor : Z)
  : option SuggestionContext :=
  if StringRange.start (b_range this) <=? cursor then
    if StringRange.end_ (b_range this) <? cursor then
      match b_child this with
      | Some c => findSuggestionContext c cursor
      | None =>
          match List.last (map Some (b_nodes this)) None with
          | Some last =>
              Some (mkSuggestionContext
                      (node last) (StringRange.end_ (pn_range last) + 1))
          | None =>
              Some (mkSuggestionContext
                      (b_rootNode this) (StringRange.start (b_range this)))
          end
      end
    else
      match nodeAtCursor (b_rootNode this) (b_nodes this) cursor with
      | inr found => Some found
      | inl prev =>
          Some (mkSuggestionContext prev (StringRange.start (b_range this)))
      end
  else None.

(** [ParseResults]; the exceptions are keyed by the failing child, which
    its name identifies among the children tried by one call. *)
Record ParseResults := mkParseResults {
  context : CommandContextBuilder;
  exceptions : JsMap.t (Error T);
  reader : StringReader.t
}.

End Defs.

Arguments newBuilder {Source T Value} source rootNode start.

End Context.

(** ** Argument types ([arguments/core.ts]) *)

Module ArgumentTypeCore.
Section Defs.
Variable Metadata : Type.

(** [ArgumentType.listSuggestions], the implementation inherited by the
    types that do not override it: the examples that start with what
    remains to be completed. *)
Definition listSuggestions (examples : list string)
    (builder : Suggestions.SuggestionsBuilder Metadata)
  : Suggestions.t Metadata :=
  Suggestions.build
    (fold_left
       (fun b literal =>
          if JsString.startsWith literal (Suggestions.remaining builder)
          then Suggestions.suggest b literal None
          else b)
       examples builder).

End Defs.
End ArgumentTypeCore.

(** ** Lists of arguments ([arguments/list.ts]) *)

Module ListArgumentType.
Section Defs.
(** The types of a parsed element and of a loaded element. *)
Variables P V : Type.

(** [ListParsingStrategy] of type ['withSeparator']. *)
Record ListParsingStrategy := mkStrategy {
  separator : option string;
  uniqueParsedToString : option (P -> string);
  uniqueLoadedToString : option (V -> string)
}.

(** The fields of [ListArgumentType]; the maximum [None] is [Infinity]. *)
Record t := mk {
  strategy : ListParsingStrategy;
  minimum : Z;
  maximum : option Z
}.

(** [n > maximum]. *)
Definition above (maximum : option Z) (n : Z) : bool :=
  match maximum with
  | Some m => m <? n
  | None => false
  end.

(** The constructor; [inl] is the message of the thrown [Error]. *)
Definition new (strategy : ListParsingStrategy) (minimum : Z) (maximum : option Z)
  : string + t :=
  if minimum <? 1 then inl "minimum should be >= 1"%string
  else if above maximum minimum then inl "maximum should be >= minimum"%string
  else inr (mk strategy minimum maximum).

(** The filter that [parse] and [load] run with a new [Set]: a value is
    dropped when its string is in the set, and its string is added to the
    set otherwise. *)
Fixpoint unique {A : Type} (toString : A -> string) (stringSet : gset string)
    (values : list A) : list A :=
  match values with
  | [] => []
  | p :: rest =>
      let stringified := toString p in
      if bool_decide (stringified ∈ stringSet)
      then unique toString stringSet rest
      else p :: unique toString ({[stringified]} ∪ stringSet) rest
  end.

(** [FailType] and the [RangeError] of [parse]. *)
Inductive FailType := TOO_LOW | TOO_HIGH.

Record RangeError := mkRangeError {
  reader : StringReader.t;
  failType : FailType;
  got : Z;
  min : Z;
  max : option Z
}.

(** The end of [parse], after the loop that fills [got]: the check of the
    amount, then the removal of duplicates. *)
Definition finishParse (this : t) (reader : StringReader.t) (got : list P)
  : RangeError + list P :=
  let amount := Z.of_nat (List.length got) in
  if (amount <? minimum this) || above (maximum this) amount
  then inl (mkRangeError reader
              (if amount <? minimum this then TOO_LOW else TOO_HIGH)
              amount (minimum this) (maximum this))
  else
    inr match uniqueParsedToString (strategy this) with
        | Some toString => unique toString ∅ got
        | None => got
        end.

(** [load]; [loadOne] is [singleArgumentType.load], and [None] the
    rejection of [Promise.all] when a load rejects. *)
Definition load (this : t) (loadOne : P -> option V) (parsed : list P)
  : option (list V) :=
  loaded ← mapM loadOne parsed;
  Some match uniqueLoadedToString (strategy this) with
       | Some toString => unique toString ∅ loaded
       | None => loaded
       end.

End Defs.
End ListArgumentType.

(** ** Booleans ([arguments/bool.ts]) *)

Module BoolArgumentType.
Section Defs.
Variable Metadata : Type.

(** [listSuggestions]. *)
Definition listSuggestions (builder : Suggestions.SuggestionsBuilder Metadata)
  : Suggestions.t Metadata :=
  let buffer := JsString.toLowerCase (Suggestions.remaining builder) in
  let builder :=
    if JsString.startsWith "true" buffer
    then Suggestions.suggest builder "true" None
    else builder in
  let builder :=
    if JsString.startsWith "false" buffer
    then Suggestions.suggest builder "false" None
    else builder in
  Suggestions.build builder.

(** [get examples]. *)
Definition examples : list string := ["true"; "false"]%string.

End Defs.
End BoolArgumentType.

(** ** Parsing, execution and completion ([command.ts], [tree.ts]) *)

Module Dispatch.
Section Defs.
Variables Source T Value : Type.

Abbreviation Node := (CommandNode.t Source T).
Abbreviation Failure := (Requirement.RequirementFailure T).
Abbreviation CommandContext := (Context.CommandContext Source T Value).
Abbreviation CommandContextBuilder := (Context.CommandContextBuilder Source T Value).
Abbreviation ParseResults := (Context.ParseResults Source T Value).

(** The strings ['literal'] and ['argument']. *)
Inductive SuggestionType := TypeLiteral | TypeArgument.

(** [SuggestionMetadata] as [getCompletionSuggestions] fills it. *)
Record SuggestionMetadata := mkMetadata {
  prefix : option string;
  suffix : option string;
  suggestionType : option SuggestionType;
  commandNode : option Node
}.

Abbreviation SuggestionsBuilder := (Suggestions.SuggestionsBuilder SuggestionMetadata).
Abbreviation SuggestionSet := (Suggestions.t SuggestionMetadata).

(** What the handles stand for: the nodes behind redirects and the
    behaviour of the closures of the host.  A closure either returns or
    throws ([inl]). *)
Record Env := mkEnv {
  resolve : NodeRef -> Node;
  runCommand : Command -> CommandContext -> Error T + option T;
  runModifier : RedirectModifier -> CommandContext -> Error T + Source;
  typeParse : ArgumentType -> StringReader.t -> Error T + (Value * StringReader.t);
  typeLoad : ArgumentType -> Value -> Error T + Value;
  typeListSuggestions :
    ArgumentType -> CommandContext -> SuggestionsBuilder -> Error T + SuggestionSet;
  typeExamples : ArgumentType -> list string;
  runProvider :
    SuggestionProvider -> CommandContext -> SuggestionsBuilder -> Error T + SuggestionSet;
(** JavaScript truthiness of a value of the reason type. *)
truthy : T -> bool
}.

Variable env : Env.

(** [get usage]. *)
Definition usage (n : Node) : string :=
  match CommandNode.kind n with
  | CommandNode.Root => ""
  | CommandNode.Literal _ => CommandNode.name n
  | CommandNode.Argument name _ _ => "<" +:+ name +:+ ">"
  end%string.

(** The scan of [getRelevant]: skip until a space or the end. *)
Fixpoint skipToSpace (steps : nat) (input : StringReader.t) : StringReader.t :=
  match steps with
  | O => input
  | S steps' =>
      if StringReader.canReadAnything input
         && negb (bool_decide (StringReader.peek input = Some " "%char))
      then skipToSpace steps' (StringReader.skip input)
      else input
  end.

(** [getRelevant]; the cursor of [input] is put back before returning. *)
Definition getRelevant (this : Node) (input : StringReader.t) : list Node :=
  if 0 <? JsMap.size (CommandNode.literals this) then
    let cursor := StringReader.cursor input in
    let scanned :=
      skipToSpace (String.length (StringReader.string_ input)) input in
    let text :=
      JsString.substring (StringReader.string_ input) cursor
                         (StringReader.cursor scanned) in
    match
      List.filter
        (fun l : Node =>
           match CommandNode.kind l with
           | CommandNode.Literal names => LiteralCommandNode.isMe names text
           | _ => false
           end)
        (JsMap.values (CommandNode.literals this))
    with
    | literal :: _ => [literal]
    | [] => JsMap.values (CommandNode.arguments this)
    end
  else JsMap.values (CommandNode.arguments this).

(** [parse] of the three node classes: the reader and the context after
    the call, or the error thrown. *)
Definition parseNode (this : Node) (reader : StringReader.t)
    (contextBuilder : CommandContextBuilder)
  : Error T + (StringReader.t * CommandContextBuilder) :=
  let start := StringReader.cursor reader in
  match CommandNode.kind this with
  | CommandNode.Root => inr (reader, contextBuilder)
  | CommandNode.Literal literalNames =>
      let '(end_, reader') := LiteralCommandNode._parse literalNames reader in
      if -1 <? end_
      then inr (reader',
                Context.withNode contextBuilder this
                                 (StringRange.between start end_))
      else inl (LiteralError reader (CommandNode.name this))
  | CommandNode.Argument name type _ =>
      match typeParse env type reader with
      | inl e => inl e
      | inr (parsedValue, reader') =>
          match typeLoad env type parsedValue with
          | inl e => inl e
          | inr loaded =>
              let parsed :=
                Context.mkParsedArgument
                  (StringRange.between start (StringReader.cursor reader'))
                  loaded type in
              inr (reader',
                   Context.withNode
                     (Context.withArgument contextBuilder name parsed)
                     this (Context.pa_range parsed))
          end
      end
  end.

(** The body of the [try] in [parseNodes]: parse, then the separator. *)
Definition tryParse (child : Node) (reader : StringReader.t)
    (context : CommandContextBuilder)
  : Error T + (StringReader.t * CommandContextBuilder) :=
  match parseNode child reader context with
  | inl e => inl e
  | inr (reader', context') =>
      if StringReader.canReadAnything reader'
         && negb (bool_decide
                    (StringReader.peek reader' = Some ARGUMENT_SEPARATOR))
      then inl (ExpectedArgumentSeparatorError reader')
      else inr (reader', context')
  end.

(** The comparator passed to [potentials.sort]. *)
Definition comparePotentials (a b : ParseResults) : Z :=
  let aLeft := StringReader.canReadAnything (Context.reader a) in
  let bLeft := StringReader.canReadAnything (Context.reader b) in
  let aClean := JsMap.size (Context.exceptions a) =? 0 in
  let bClean := JsMap.size (Context.exceptions b) =? 0 in
  if negb aLeft && bLeft then -1
  else if aLeft && negb bLeft then 1
  else if aClean && negb bClean then -1
  else if negb aClean && bClean then 1
  else 0.

(** The end of [parseNodes], after the loop over the children. *)
Definition selectResult (potentials : list ParseResults)
    (contextSoFar : CommandContextBuilder) (originalReader : StringReader.t)
    (errors : JsMap.t (Error T)) : ParseResults :=
  match potentials with
  | [] => Context.mkParseResults contextSoFar errors originalReader
  | _ :: _ =>
      let sorted :=
        if 1 <? Z.of_nat (List.length potentials)
        then JsArray.sort comparePotentials potentials
        else potentials in
      match sorted with
      | first :: _ => first
      | [] => Context.mkParseResults contextSoFar errors originalReader
      end
  end.

(** The requirement test at the head of the loop body: [None] skips the
    child, [Some errors'] goes on with the error map as it is then. *)
Definition visibility (errors : JsMap.t (Error T)) (child : Node)
    (failure : option Failure) : option (JsMap.t (Error T)) :=
  match failure with
  | None => Some errors
  | Some f =>
      match Requirement.reason f with
      | Some r =>
          if truthy env r
          then Some (JsMap.set errors (CommandNode.name child)
                               (RequirementFailedError r))
          else None
      | None => None
      end
  end.

(** [parseNodes].  [None]: the fuel ran out (redirects may loop). *)
Fixpoint parseNodes (fuel : nat) (node : Node) (originalReader : StringReader.t)
    (contextSoFar : CommandContextBuilder) {struct fuel} : option ParseResults :=
  match fuel with
  | O => None
  | S fuel' =>
      let source := Context.b_source contextSoFar in
      (fix loop (children : list Node) (errors : JsMap.t (Error T))
           (potentials : list ParseResults) {struct children}
         : option ParseResults :=
         match children with
         | [] => Some (selectResult potentials contextSoFar originalReader errors)
         | child :: rest =>
             failure ← CommandNode.checkRequirement fuel' (resolve env) child source;
             match visibility errors child failure with
             | None => loop rest errors potentials
             | Some errors1 =>
                 let context := Context.copy contextSoFar in
                 let reader := StringReader.clone originalReader in
                 match tryParse child reader context with
                 | inl parseError =>
                     loop rest
                          (JsMap.set errors1 (CommandNode.name child) parseError)
                          potentials
                 | inr (reader1, context1) =>
                     let context2 :=
                       Context.withCommand context1 (CommandNode.command child) in
                     if StringReader.canRead reader1
                          (match CommandNode.redirect child with
                           | None => 2
                           | Some _ => 1
                           end)
                     then
                       let reader2 := StringReader.skip reader1 in
                       match CommandNode.redirect child with
                       | Some target =>
                           let childContext :=
                             Context.newBuilder source (resolve env target)
                                                (StringReader.cursor reader2) in
                           parse ← parseNodes fuel' (resolve env target)
                                              reader2 childContext;
                           Some (Context.mkParseResults
                                   (Context.withChild context2 (Context.context parse))
                                   (Context.exceptions parse)
                                   (Context.reader parse))
                       | None =>
                           parse ← parseNodes fuel' child reader2 context2;
                           loop rest errors1 (potentials ++ [parse])
                       end
                     else
                       loop rest errors1
                            (potentials ++
                               [Context.mkParseResults context2 [] reader1])
                 end
             end
         end)
        (getRelevant node originalReader) [] []
  end.

(** [CommandDispatcher.parse]. *)
Definition parse (fuel : nat) (d : CommandDispatcher.t Source T)
    (command : string) (source : Source) : option ParseResults :=
  let reader := StringReader.new command in
  parseNodes fuel (CommandDispatcher.root d) reader
             (Context.newBuilder source (CommandDispatcher.root d)
                                 (StringReader.cursor reader)).

(** *** Execution *)

(** What the host observes of an execution: an executor called, the
    consumer notified. *)
Inductive Event :=
| Ran (command : Command) (context : CommandContext)
| Consumed (context : CommandContext) (success : bool).

(** [ExecuteResultWrapper]. *)
Inductive ExecuteResultWrapper :=
| Success (value : option T)
| Failed (error : Error T).

(** How a call of [executeResults] ends: what happened on the way, and
    the array returned or the error thrown ([inl]). *)
Record Outcome := mkOutcome {
  events : list Event;
  completion : Error T + list ExecuteResultWrapper
}.

(** After the [while] loop of [executeResults]. *)
Definition finish (reader : StringReader.t) (original : CommandContext)
    (foundCommand : bool) (result : list ExecuteResultWrapper)
    (log : list Event) : Outcome :=
  if foundCommand then mkOutcome log (inr result)
  else mkOutcome (log ++ [Consumed original false])
                 (inl (UnknownSomethingError reader "command")).

(** The [while (context)] loop of [executeResults].  The context of the
    round is [this] with the source handed down by [copyFor]. *)
Fixpoint executeChain (reader : StringReader.t) (original this : CommandContext)
    (source : Source) (foundCommand : bool)
    (result : list ExecuteResultWrapper) (log : list Event) : Outcome :=
  let context := Context.copyFor this source in
  match Context.child this with
  | Some child =>
      if Context.hasNodes child then
        match Context.modifier context with
        | Some m =>
            match runModifier env m context with
            | inr source' =>
                executeChain reader original child source' true result log
            | inl e => mkOutcome (log ++ [Consumed context false]) (inl e)
            end
        | None =>
            executeChain reader original child (Context.source context)
                         true result log
        end
      else finish reader original foundCommand result log
  | None =>
      match Context.command context with
      | Some c =>
          match runCommand env c context with
          | inr value =>
              finish reader original true (result ++ [Success value])
                     (log ++ [Ran c context; Consumed context true])
          | inl e =>
              mkOutcome (log ++ [Ran c context; Consumed context false]) (inl e)
          end
      | None => finish reader original foundCommand result log
      end
  end.

(** The error thrown by the guard at the head of [executeResults];
    [exceptions.size === 1] holds of a map with one entry. *)
Definition leftoverError (parse : ParseResults) : Error T :=
  match Context.exceptions parse with
  | [(_, sole)] => sole
  | _ =>
      if StringRange.isEmpty (Context.b_range (Context.context parse))
      then UnknownSomethingError (Context.reader parse) "argument"
      else UnknownSomethingError (Context.reader parse) "command"
  end.

(** [executeResults]. *)
Definition executeResults (parse : ParseResults) : Outcome :=
  if StringReader.canReadAnything (Context.reader parse)
  then mkOutcome [] (inl (leftoverError parse))
  else
    let command := StringReader.string_ (Context.reader parse) in
    let original := Context.build (Context.context parse) command in
    executeChain (Context.reader parse) original original
                 (Context.source original) false [] [].

(** *** Completion *)

(** [LiteralCommandNode.listSuggestions]. *)
Definition literalListSuggestions (literalNames : list string)
    (builder : SuggestionsBuilder) : SuggestionSet :=
  let remaining := JsString.toLowerCase (Suggestions.remaining builder) in
  Suggestions.build
    (fold_left
       (fun b literal =>
          if JsString.startsWith (JsString.toLowerCase literal) remaining
          then
            let other :=
              List.filter (fun e => negb (JsString.eqb e literal)) literalNames in
            Suggestions.suggest b literal
              (match other with
               | [] => None
               | _ :: _ => Some (String.concat ", " other)
               end)
          else b)
       literalNames builder).

(** [listSuggestions] of the three node classes. *)
Definition listSuggestions (this : Node) (context : CommandContext)
    (builder : SuggestionsBuilder) : Error T + SuggestionSet :=
  match CommandNode.kind this with
  | CommandNode.Root => inr (Suggestions.empty SuggestionMetadata)
  | CommandNode.Literal literalNames =>
      inr (literalListSuggestions literalNames builder)
  | CommandNode.Argument _ type customSuggestions =>
      match customSuggestions with
      | Some provider => runProvider env provider context builder
      | None => typeListSuggestions env type context builder
      end
  end.

(** The metadata [getCompletionSuggestions] seeds a builder with. *)
Definition metadataFor (node : Node) : SuggestionMetadata :=
  mkMetadata (Some (usage node)) (CommandNode.commandDescription node)
             (Some (if CommandNode.isLiteral node then TypeLiteral else TypeArgument))
             (Some node).

(** The test that skips a child: a failure whose [showInTree] is unset
    or false. *)
Definition hidden (failure : option Failure) : bool :=
  match failure with
  | Some f => negb (bool_decide (Requirement.showInTree f = Some true))
  | None => false
  end.

(** The loop of [getCompletionSuggestions] over the children of the
    parent; an error thrown by a child leaves the empty set. *)
Fixpoint collectSuggestions (fuel : nat) (children : list Node)
    (source : Source) (context : CommandContext) (truncatedInput : string)
    (start : Z) (futures : list SuggestionSet) : option (list SuggestionSet) :=
  match children with
  | [] => Some futures
  | node :: rest =>
      failure ← CommandNode.checkRequirement fuel (resolve env) node source;
      if hidden failure
      then collectSuggestions fuel rest source context truncatedInput start futures
      else
        let nodeSuggestions :=
          match listSuggestions node context
                  (Suggestions.newBuilder truncatedInput start (metadataFor node))
          with
          | inr got => got
          | inl _ => Suggestions.empty SuggestionMetadata
          end in
        collectSuggestions fuel rest source context truncatedInput start
                           (futures ++ [nodeSuggestions])
  end.

(** [getCompletionSuggestions].  The outer [None]: a requirement check
    ran out of fuel; [inl]: [findSuggestionContext] threw. *)
Definition getCompletionSuggestions (fuel : nat) (parse : ParseResults)
    (cursor : Z) (source : Source) : option (Error T + SuggestionSet) :=
  match Context.findSuggestionContext (Context.context parse) cursor with
  | None => Some (inl (Thrown "Can't find node before cursor"))
  | Some nodeBeforeCursor =>
      let parent := Context.parent nodeBeforeCursor in
      let start := Z.min (Context.startPos nodeBeforeCursor) cursor in
      let fullInput := StringReader.string_ (Context.reader parse) in
      let truncatedInput := JsString.substring fullInput 0 cursor in
      futures ←
        collectSuggestions fuel (CommandNode.children parent) source
          (Context.build (Context.context parse) truncatedInput)
          truncatedInput start [];
      Some (inr (Suggestions.merge fullInput futures))
  end.

(** What the user has typed at the cursor: the [remaining] of the builders
    [getCompletionSuggestions] seeds below the node before the cursor. *)
Definition typedRemainder (parse : ParseResults) (cursor : Z)
    (nodeBeforeCursor : Context.SuggestionContext Source T) : string :=
  JsString.substringFrom
    (JsString.substring (StringReader.string_ (Context.reader parse)) 0 cursor)
    (Z.min (Context.startPos nodeBeforeCursor) cursor).

(** The chain [builder.suggest(t1, tip1).suggest(t2, tip2)...]. *)
Definition suggestAll (texts : list (string * option string))
    (builder : SuggestionsBuilder) : SuggestionsBuilder :=
  fold_left (fun b '(text, tooltip) => Suggestions.suggest b text tooltip)
            texts builder.

(** A provider that throws or returns what a chain of [suggest] on the
    builder it was given builds, as [ArgumentType.listSuggestions] and
    [BoolArgumentType.listSuggestions] do. *)
Definition suggestsThroughBuilder
    (provider : CommandContext -> SuggestionsBuilder -> Error T + SuggestionSet)
  : Prop :=
  forall context builder,
    (exists e, provider context builder = inl e)
    \/ exists texts,
        provider context builder
        = inr (Suggestions.build (suggestAll texts builder)).

(** A node whose suggestions come from such a provider; those of a literal
    and of the root always do. *)
Definition suggestsThroughBuilderNode (node : Node) : Prop :=
  match CommandNode.kind node with
  | CommandNode.Argument _ type (Some provider) =>
      suggestsThroughBuilder (runProvider env provider)
  | CommandNode.Argument _ type None =>
      suggestsThroughBuilder (typeListSuggestions env type)
  | _ => True
  end.

End Defs.
End Dispatch.

(** ** What the matching of literals looks for *)

Module Matching.

(** The test of one round of [LiteralCommandNode._parse], as a property of
    the reader and the literal: the literal fits in the rest of the input,
    equals the lower-cased input there, and is followed by the end of the
    input or by a space. *)
Definition literalAt (reader : StringReader.t) (literal : string) : Prop :=
  let start := StringReader.cursor reader in
  let end_ := start + JsString.length literal in
  end_ <= JsString.length (StringReader.string_ reader)
  /\ JsString.toLowerCase
       (JsString.substring (StringReader.string_ reader) start end_) = literal
  /\ (JsString.length (StringReader.string_ reader) < end_ + 1
      \/ JsString.charAt (StringReader.string_ reader) end_ = Some " "%char).

(** The text [getRelevant] cuts out of the input: from the cursor to the
    next space or the end. *)
Definition nextToken (input : StringReader.t) : string :=
  JsString.substring (StringReader.string_ input) (StringReader.cursor input)
    (StringReader.cursor
       (Dispatch.skipToSpace (String.length (StringReader.string_ input)) input)).

(** A space occurs in a string. *)
Fixpoint hasSpace (s : string) : bool :=
  match s with
  | EmptyString => false
  | String c s' => bool_decide (c = " "%char) || hasSpace s'
  end.

(** The test [getRelevant] filters the literal children with: the child is
    a literal and [isMe] holds of the text. *)
Definition recognises {Source T : Type} (text : string)
    (l : CommandNode.t Source T) : bool :=
  match CommandNode.kind l with
  | CommandNode.Literal names => LiteralCommandNode.isMe names text
  | _ => false
  end.

End Matching.

(** ** The order and the keys of the children *)

Module TreeOrder.
Section Defs.
Variables Source T : Type.

(** All literal nodes of a list come before all the others. *)
Definition literalsFirst (l : list (CommandNode.t Source T)) : Prop :=
  exists literals others,
    l = literals ++ others
    /\ Forall (fun n => CommandNode.isLiteral n = true) literals
    /\ Forall (fun n => CommandNode.isLiteral n = false) others.

(** Under [compareTo], each node of a list is not after any later one. *)
Fixpoint sorted (localeCompare : string -> string -> Z)
    (l : list (CommandNode.t Source T)) : Prop :=
  match l with
  | [] => True
  | x :: l' =>
      Forall (fun y => CommandNode.compareTo localeCompare x y <= 0) l'
      /\ sorted localeCompare l'
  end.

(** A [Map] holds a key once. *)
Definition uniqueKeys (n : CommandNode.t Source T) : Prop :=
  NoDup (map fst (CommandNode.childrenMap n)).

(** Every child is held under its own name. *)
Definition keyed (n : CommandNode.t Source T) : Prop :=
  Forall (fun e => fst e = CommandNode.name (snd e)) (CommandNode.childrenMap n).

(** The fields of a node that are not its maps. *)
Definition ownFields (n : CommandNode.t Source T) :=
  (CommandNode.kind n, CommandNode.command n, CommandNode.commandDescription n,
   CommandNode.requirement n, CommandNode.redirect n, CommandNode.modifier n).

(** A child as [literals] holds it, and as [arguments] holds it. *)
Definition literalOnly (c : CommandNode.t Source T) : option (CommandNode.t Source T) :=
  match CommandNode.kind c with
  | CommandNode.Literal _ => Some c
  | _ => None
  end.
Definition argumentOnly (c : CommandNode.t Source T) : option (CommandNode.t Source T) :=
  match CommandNode.kind c with
  | CommandNode.Argument _ _ _ => Some c
  | _ => None
  end.

(** [literals] and [arguments] hold, under each name, the child that
    [childrenMap] holds there, when it is of their class. *)
Definition consistent (n : CommandNode.t Source T) : Prop :=
  forall k,
    JsMap.get (CommandNode.literals n) k
    = JsMap.get (CommandNode.childrenMap n) k ≫= literalOnly
    /\ JsMap.get (CommandNode.arguments n) k
       = JsMap.get (CommandNode.childrenMap n) k ≫= argumentOnly.

End Defs.
End TreeOrder.

(** ** What a context has recorded *)

Module Recorded.
Section Defs.
Variables Source T Value : Type.

Abbreviation Builder := (Context.CommandContextBuilder Source T Value).

(** [c] is for the source and the root of [c0], records the nodes of [c0]
    and possibly more after them, and its range covers the range of
    [c0]. *)
Definition extends (c0 c : Builder) : Prop :=
  Context.b_source c = Context.b_source c0
  /\ Context.b_rootNode c = Context.b_rootNode c0
  /\ (exists more, Context.b_nodes c = Context.b_nodes c0 ++ more)
  /\ StringRange.start (Context.b_range c) <= StringRange.start (Context.b_range c0)
  /\ StringRange.end_ (Context.b_range c0) <= StringRange.end_ (Context.b_range c).

(** The range of the context covers the range of every recorded node. *)
Definition covered (c : Builder) : Prop :=
  Forall (fun n =>
            StringRange.start (Context.b_range c)
            <= StringRange.start (Context.pn_range n)
            /\ StringRange.end_ (Context.pn_range n)
               <= StringRange.end_ (Context.b_range c))
         (Context.b_nodes c).

(** What [parseNodes] keeps of the context it is given. *)
Definition grows (c0 c : Builder) : Prop :=
  extends c0 c /\ (covered c0 -> covered c).

End Defs.
End Recorded.

(** ** The order of the tie-break, in the words of the specification *)

Module TieBreak.
Section Defs.
Variables Source T Value : Type.

Abbreviation ParseResults := (Context.ParseResults Source T Value).

(** A potential has leftover input; a potential has errors. *)
Definition leftover (p : ParseResults) : bool :=
  StringReader.canReadAnything (Context.reader p).
Definition hasErrors (p : ParseResults) : bool :=
  negb (JsMap.size (Context.exceptions p) =? 0).

(** [a] comes strictly before [b]: no leftover before leftover, and among
    potentials alike in that, no errors before errors. *)
Definition before (a b : ParseResults) : Prop :=
  (leftover a = false /\ leftover b = true)
  \/ (leftover a = leftover b /\ hasErrors a = false /\ hasErrors b = true).

(** The position of a potential in that order. *)
Definition rank (p : ParseResults) : nat :=
  ((if leftover p then 2 else 0) + (if hasErrors p then 1 else 0))%nat.

End Defs.
End TieBreak.

(** ** Sample data: the sources, requirements and trees of the examples *)

Module Fixtures.

(** A source: the acting user and what it may do. *)
Record Actor := mkActor { admin : bool; mayBan : bool; mayKick : bool }.

Definition Failure := Requirement.RequirementFailure string.
Definition Node := CommandNode.t Actor string.

(** A failure with a reason, and one without (the node is hidden). *)
Definition deny (reason : string) : Failure :=
  Requirement.mkFailure None (Some reason).
Definition hiddenFailure : Failure := Requirement.mkFailure None None.

Definition isAdmin : Requirement.NormalizedRequirement Actor string :=
  fun s => if admin s then None else Some (deny "not an admin").
Definition canBan : Requirement.NormalizedRequirement Actor string :=
  fun s => if mayBan s then None else Some (deny "may not ban").
Definition canKick : Requirement.NormalizedRequirement Actor string :=
  fun s => if mayKick s then None else Some (deny "may not kick").
Definition nobody : Requirement.NormalizedRequirement Actor string :=
  fun _ => Some hiddenFailure.

Definition moderator : Actor := mkActor true true false.

(** Code-unit order, standing for [localeCompare] on plain ASCII names. *)
Definition byteCompare (a b : string) : Z :=
  match String.compare a b with
  | Lt => -1
  | Eq => 0
  | Gt => 1
  end.

(** An array [[isAdmin]] built by the caller, at location 0, and two
    builders that both receive it as their first requirement. *)
Definition common : Requirement.arrays Actor string :=
  [[Requirement.ReqFn isAdmin]].

Definition ban : ArgumentBuilder.t Actor string :=
  ArgumentBuilder.newLiteral ["ban"%string].
Definition kick : ArgumentBuilder.t Actor string :=
  ArgumentBuilder.newLiteral ["kick"%string].

(** [ban.requires(common).requires(canBan)], then
    [kick.requires(common).requires(canKick)], then [ban.build()]. *)
Definition banBuiltAfterKick : option Node :=
  let '(ban1, h1) := ArgumentBuilder.requires ban (Requirement.ReqArr 0%nat) common in
  let '(ban2, h2) := ArgumentBuilder.requires ban1 (Requirement.ReqFn canBan) h1 in
  let '(kick1, h3) := ArgumentBuilder.requires kick (Requirement.ReqArr 0%nat) h2 in
  let '(kick2, h4) := ArgumentBuilder.requires kick1 (Requirement.ReqFn canKick) h3 in
  ArgumentBuilder.build byteCompare 2 h4 ban2.

(** An environment for trees without redirects, arguments or custom
    providers: executors return nothing, modifiers keep the source. *)
Definition env0 : Dispatch.Env Actor string string :=
  Dispatch.mkEnv
    (fun _ => CommandNode.newRoot)
    (fun _ _ => inr None)
    (fun _ ctx => inr (Context.source ctx))
    (fun _ _ => inl (Thrown "no argument types"))
    (fun _ v => inr v)
    (fun _ _ _ => inr (Suggestions.empty _))
    (fun _ => [])
    (fun _ _ _ => inr (Suggestions.empty _))
    (fun _ => true).

(** [command("d").requires(nobody).executes(...)]: a command hidden from
    everybody, registered in a new dispatcher. *)
Definition hiddenCommand : ArgumentBuilder.t Actor string :=
  ArgumentBuilder.executes
    (fst (ArgumentBuilder.requires (ArgumentBuilder.newLiteral ["d"%string])
                                   (Requirement.ReqFn nobody) []))
    1%nat None.

Definition withHiddenCommand : option (CommandDispatcher.t Actor string * Node) :=
  CommandDispatcher.register byteCompare 1 [] (CommandDispatcher.new _ _)
                             hiddenCommand.

(** [command("vault").thenLiteral("secret", b =>
    b.requires(canKick).executes(...))]: a node without executor whose
    only child is denied to whoever may not kick. *)
Definition secret : ArgumentBuilder.t Actor string :=
  ArgumentBuilder.executes
    (fst (ArgumentBuilder.requires (ArgumentBuilder.newLiteral ["secret"%string])
                                   (Requirement.ReqFn canKick) []))
    2%nat None.

Definition vault : option Node :=
  b ← ArgumentBuilder.then_ byteCompare 1 []
        (ArgumentBuilder.newLiteral ["vault"%string]) secret;
  ArgumentBuilder.build byteCompare 1 [] b.

(** [command("a").executes(...)], registered in a new dispatcher, and a
    second registration of a builder of the same name. *)
Definition aCommand : ArgumentBuilder.t Actor string :=
  ArgumentBuilder.executes (ArgumentBuilder.newLiteral ["a"%string]) 1%nat None.

Definition withA : option (CommandDispatcher.t Actor string * Node) :=
  CommandDispatcher.register byteCompare 1 [] (CommandDispatcher.new _ _) aCommand.

(** Two potentials of one call: the first stops with input left, the
    second has read everything. *)
Definition stoppedEarly : Context.ParseResults Actor string string :=
  Context.mkParseResults
    (Context.newBuilder moderator CommandNode.newRoot 0) []
    (StringReader.mk "ab" 1).
Definition readAll : Context.ParseResults Actor string string :=
  Context.mkParseResults
    (Context.newBuilder moderator CommandNode.newRoot 0) []
    (StringReader.mk "ab" 2).

(** The dispatcher and the node after the first registration of ["a"],
    and after registering the same builder once more. *)
Definition afterA : CommandDispatcher.t Actor string :=
  match withA with
  | Some (d, _) => d
  | None => CommandDispatcher.new _ _
  end.
Definition aNode : Node :=
  match withA with
  | Some (_, n) => n
  | None => CommandNode.newRoot
  end.
Definition withAAgain : option (CommandDispatcher.t Actor string * Node) :=
  CommandDispatcher.register byteCompare 1 [] afterA aCommand.
Definition afterAAgain : CommandDispatcher.t Actor string :=
  match withAAgain with
  | Some (d, _) => d
  | None => CommandDispatcher.new _ _
  end.
Definition aNodeAgain : Node :=
  match withAAgain with
  | Some (_, n) => n
  | None => CommandNode.newRoot
  end.

(** The tree of the test suite below ["a"]:
    [command("a").thenLiteral("1", b => b.thenLiteral("i", ...).thenLiteral("ii", ...))]. *)
Definition leaf (name : string) : ArgumentBuilder.t Actor string :=
  ArgumentBuilder.executes (ArgumentBuilder.newLiteral [name]) 1%nat None.

Definition aOne : option (ArgumentBuilder.t Actor string) :=
  one ← ArgumentBuilder.then_ byteCompare 1 []
          (ArgumentBuilder.newLiteral ["1"%string]) (leaf "i");
  one' ← ArgumentBuilder.then_ byteCompare 1 [] one (leaf "ii");
  ArgumentBuilder.then_ byteCompare 1 [] (ArgumentBuilder.newLiteral ["a"%string]) one'.

Definition withAOne : CommandDispatcher.t Actor string :=
  match aOne ≫= CommandDispatcher.register byteCompare 1 []
                   (CommandDispatcher.new _ _) with
  | Some (d, _) => d
  | None => CommandDispatcher.new _ _
  end.

(** The parse of ["a 1 i "], as in the test ['should suggest completions']. *)
Definition parsedAOneI : Context.ParseResults Actor string string :=
  match Dispatch.parse env0 5 withAOne "a 1 i " moderator with
  | Some parse => parse
  | None => stoppedEarly
  end.

(** A provider that offers what the user has already typed, built without
    [suggest], and an argument type that reads one word. *)
Definition echo (b : Suggestions.SuggestionsBuilder (Dispatch.SuggestionMetadata Actor string))
  : Suggestions.t (Dispatch.SuggestionMetadata Actor string) :=
  let range := StringRange.between (Suggestions.start b)
                                   (JsString.length (Suggestions.input b)) in
  Suggestions.mk range
    [Suggestions.mkSuggestion range (Suggestions.b_metadata b)
                              (Suggestions.remaining b) None].

Definition readWord (reader : StringReader.t) : string * StringReader.t :=
  let after :=
    Dispatch.skipToSpace (String.length (StringReader.string_ reader)) reader in
  (JsString.substring (StringReader.string_ reader) (StringReader.cursor reader)
                      (StringReader.cursor after),
   after).

Definition env1 : Dispatch.Env Actor string string :=
  Dispatch.mkEnv
    (fun _ => CommandNode.newRoot)
    (fun _ _ => inr None)
    (fun _ ctx => inr (Context.source ctx))
    (fun _ reader => inr (readWord reader))
    (fun _ v => inr v)
    (fun _ _ _ => inr (Suggestions.empty _))
    (fun _ => [])
    (fun _ _ b => inr (echo b))
    (fun _ => true).

(** [command("say").thenArgument("word", type, b => b.suggests(echo).executes(...))]
    and the parse of ["say he"]. *)
Definition say : option (ArgumentBuilder.t Actor string) :=
  ArgumentBuilder.then_ byteCompare 1 []
    (ArgumentBuilder.newLiteral ["say"%string])
    (ArgumentBuilder.executes
       (ArgumentBuilder.suggests (ArgumentBuilder.newRequired "word" 0%nat) 0%nat)
       1%nat None).

Definition withSay : CommandDispatcher.t Actor string :=
  match say ≫= CommandDispatcher.register byteCompare 1 []
                  (CommandDispatcher.new _ _) with
  | Some (d, _) => d
  | None => CommandDispatcher.new _ _
  end.

Definition parsedSayHe : Context.ParseResults Actor string string :=
  match Dispatch.parse env1 5 withSay "say he" moderator with
  | Some parse => parse
  | None => stoppedEarly
  end.

(** The texts of a set of suggestions. *)
Definition texts (got : option (Error string
                                + Suggestions.t (Dispatch.SuggestionMetadata Actor string)))
  : list string :=
  match got with
  | Some (inr set) => map (fun s => Suggestions.text s) (Suggestions.suggestions set)
  | _ => []
  end.

(** The node before a cursor and the completions there, for a parse that
    has them. *)
Definition nodeBefore (parse : Context.ParseResults Actor string string)
    (cursor : Z) : Context.SuggestionContext Actor string :=
  match Context.findSuggestionContext (Context.context parse) cursor with
  | Some c => c
  | None => Context.mkSuggestionContext CommandNode.newRoot 0
  end.

Definition completions (env : Dispatch.Env Actor string string)
    (parse : Context.ParseResults Actor string string) (cursor : Z)
  : Suggestions.t (Dispatch.SuggestionMetadata Actor string) :=
  match Dispatch.getCompletionSuggestions env 5 parse cursor moderator with
  | Some (inr set) => set
  | _ => Suggestions.empty _
  end.

(** [command("j").redirect(root)] next to ["a"], as in the test suite.  The
    handle 0 of the redirect stands for the root of that dispatcher. *)
Definition jCommand : option (ArgumentBuilder.t Actor string) :=
  ArgumentBuilder.redirect (ArgumentBuilder.newLiteral ["j"%string]) 0%nat None None.

Definition withJ : CommandDispatcher.t Actor string :=
  match jCommand ≫= CommandDispatcher.register byteCompare 1 [] afterA with
  | Some (d, _) => d
  | None => CommandDispatcher.new _ _
  end.

Definition envJ : Dispatch.Env Actor string string :=
  Dispatch.mkEnv
    (fun _ => CommandDispatcher.root withJ)
    (fun _ _ => inr None)
    (fun _ ctx => inr (Context.source ctx))
    (fun _ reader => inr (readWord reader))
    (fun _ v => inr v)
    (fun _ _ _ => inr (Suggestions.empty _))
    (fun _ => [])
    (fun _ _ _ => inr (Suggestions.empty _))
    (fun _ => true).

(** The names and ranges recorded by a context and by its chain of child
    contexts. *)
Fixpoint chain (b : Context.CommandContextBuilder Actor string string)
  : list (list (string * (Z * Z))) :=
  map (fun n => (CommandNode.name (Context.node n),
                 (StringRange.start (Context.pn_range n),
                  StringRange.end_ (Context.pn_range n))))
      (Context.b_nodes b)
  :: match Context.b_child b with
     | Some c => chain c
     | None => []
     end.

(** A list of at least two names, without duplicates after parsing and
    after loading. *)
Definition byName : ListArgumentType.ListParsingStrategy string string :=
  ListArgumentType.mkStrategy None (Some (fun p : string => p))
                              (Some (fun v : string => v)).
Definition names : ListArgumentType.t string string :=
  ListArgumentType.mk byName 2 None.

(** The node built from [say], a literal ["now"], and the node after
    [addChild] of the literal. *)
Definition sayBuilder : ArgumentBuilder.t Actor string :=
  match say with
  | Some b => b
  | None => ArgumentBuilder.newLiteral ["say"%string]
  end.
Definition sayNode : Node :=
  match say ≫= ArgumentBuilder.build byteCompare 1 [] with
  | Some n => n
  | None => CommandNode.newRoot
  end.
Definition nowNode : Node :=
  match ArgumentBuilder.build byteCompare 1 [] (leaf "now") with
  | Some n => n
  | None => CommandNode.newRoot
  end.
Definition sayNow : Node :=
  match CommandNode.addChild byteCompare sayNode nowNode with
  | Some n => n
  | None => CommandNode.newRoot
  end.

End Fixtures.

(** * Properties *)

(** Case analysis on the options bound in the goal and on the tests. *)
Ltac bind_cases :=
  repeat match goal with
    | |- context [ ?x ≫= _ ] => destruct x eqn:?; cbn [mbind option_bind]
    | |- context [ if ?b then _ else _ ] => destruct b eqn:?
    end.

(** ** Strings and the reader *)

Section StringFacts.

Lemma length_nonneg (s : string) : 0 <= JsString.length s.
Proof. unfold JsString.length. lia. Qed.

Lemma append_cons (c : ascii) (a b : string) :
  (String c a +:+ b)%string = String c (a +:+ b).
Proof. reflexivity. Qed.

Lemma length_append (a b : string) :
  JsString.length (a +:+ b) = JsString.length a + JsString.length b.
Proof.
  unfold JsString.length. rewrite <- Nat2Z.inj_add. f_equal.
  induction a as [|c a IH]; [reflexivity | simpl; now f_equal].
Qed.

Lemma prefix_of_append (a b : string) :
  String.substring 0 (String.length a) (a +:+ b) = a.
Proof.
  induction a as [|c a IH].
  - destruct b; reflexivity.
  - rewrite append_cons. simpl. now rewrite IH.
Qed.

Lemma substring_of_append (a b : string) :
  JsString.substring (a +:+ b) 0 (JsString.length a) = a.
Proof.
  unfold JsString.substring, JsString.clamp.
  rewrite length_append.
  pose proof (length_nonneg a). pose proof (length_nonneg b).
  replace (Z.min (Z.max 0 (Z.min 0 (JsString.length a + JsString.length b)))
             (Z.max 0 (Z.min (JsString.length a)
                         (JsString.length a + JsString.length b))))
    with 0 by lia.
  replace (Z.max (Z.max 0 (Z.min 0 (JsString.length a + JsString.length b)))
             (Z.max 0 (Z.min (JsString.length a)
                         (JsString.length a + JsString.length b))) - 0)
    with (JsString.length a) by lia.
  unfold JsString.length. rewrite Nat2Z.id. simpl.
  apply prefix_of_append.
Qed.

Lemma get_after_prefix (a : string) (c : ascii) (b : string) :
  String.get (String.length a) (a +:+ String c b) = Some c.
Proof.
  induction a as [|c' a IH]; [reflexivity|].
  rewrite append_cons. simpl. exact IH.
Qed.

Lemma charAt_after_prefix (a : string) (c : ascii) (b : string) :
  JsString.charAt (a +:+ String c b) (JsString.length a) = Some c.
Proof.
  unfold JsString.charAt.
  pose proof (length_nonneg a).
  destruct (JsString.length a <? 0) eqn:E; [apply Z.ltb_lt in E; lia|].
  unfold JsString.length. rewrite Nat2Z.id. apply get_after_prefix.
Qed.

Lemma append_empty (a : string) : (a +:+ "")%string = a.
Proof.
  induction a as [|c a IH]; [reflexivity|].
  rewrite append_cons. congruence.
Qed.

End StringFacts.

(** ** Literal nodes *)

Section LiteralFacts.

(** A literal equal to its own lower-case form matches an input that is
    this literal followed by nothing or by a space and more. *)
Lemma tryLiteral_self (m rest : string) :
  JsString.toLowerCase m = m ->
  rest = ""%string \/ (exists rest', rest = String " " rest') ->
  LiteralCommandNode.tryLiteral (StringReader.new (m +:+ rest)) m
  = Some (JsString.length m).
Proof.
  intros Hlow Hrest.
  unfold LiteralCommandNode.tryLiteral, StringReader.canRead,
    StringReader.canReadAnything, StringReader.canRead, StringReader.peek.
  cbn [StringReader.new StringReader.cursor StringReader.string_
       StringReader.setCursor].
  rewrite length_append.
  pose proof (length_nonneg m). pose proof (length_nonneg rest).
  destruct (0 + JsString.length m <=? JsString.length m + JsString.length rest)
    eqn:E; [|apply Z.leb_gt in E; lia].
  rewrite Z.add_0_l, substring_of_append, Hlow.
  unfold JsString.eqb. rewrite String.eqb_refl.
  destruct Hrest as [->|[rest' ->]].
  - change (JsString.length "") with 0.
    destruct (JsString.length m + 1 <=? JsString.length m + 0) eqn:E';
      [apply Z.leb_le in E'; lia | reflexivity].
  - rewrite charAt_after_prefix. rewrite bool_decide_eq_true_2 by reflexivity.
    now rewrite orb_true_r.
Qed.

Lemma tryLiteral_end_nonneg (input literal : string) (e : Z) :
  LiteralCommandNode.tryLiteral (StringReader.new input) literal = Some e ->
  -1 < e.
Proof.
  unfold LiteralCommandNode.tryLiteral.
  cbn [StringReader.new StringReader.cursor].
  pose proof (length_nonneg literal).
  repeat (case_match; try discriminate).
  intros [= <-]. lia.
Qed.

Lemma _parse_finds (names : list string) (input m : string) :
  In m names ->
  LiteralCommandNode.tryLiteral (StringReader.new input) m
  = Some (JsString.length m) ->
  -1 < fst (LiteralCommandNode._parse names (StringReader.new input)).
Proof.
  intros Hin Hm.
  induction names as [|n names IH]; [destruct Hin|].
  simpl.
  destruct (LiteralCommandNode.tryLiteral (StringReader.new input) n) eqn:E.
  - simpl. eapply tryLiteral_end_nonneg; eauto.
  - destruct Hin as [->|Hin]; [congruence|]. now apply IH.
Qed.

End LiteralFacts.

(** X25: every name of a literal node that is written in lower case (equal to
    its own [toLowerCase]) is a valid input of the node, alone and followed
    by [" extra"]. *)
Theorem isValidInput_lowercase_names (literalNames : list string) (m : string) :
  In m literalNames ->
  JsString.toLowerCase m = m ->
  LiteralCommandNode.isValidInput literalNames m = true
  /\ LiteralCommandNode.isValidInput literalNames (m +:+ " extra") = true.
Proof.
  intros Hin Hlow.
  unfold LiteralCommandNode.isValidInput.
  split; apply Z.ltb_lt.
  - apply _parse_finds with (m := m); auto.
    rewrite <- (append_empty m) at 1.
    apply tryLiteral_self; auto.
  - apply _parse_finds with (m := m); auto.
    apply tryLiteral_self; eauto.
Qed.

Lemma isValidInput_lowercase_names_witness :
  LiteralCommandNode.isValidInput ["teleport"; "tp"]%string "tp" = true
  /\ LiteralCommandNode.isValidInput ["teleport"; "tp"]%string ("tp" +:+ " extra") = true.
Proof.
  apply (@isValidInput_lowercase_names ["teleport"; "tp"]%string "tp"%string).
  - simpl. auto.
  - reflexivity.
Defined.

(** C5 at the failing input.  A literal node whose only name is ["Stop"]
    rejects the inputs ["Stop"], ["stop"] and ["Stop extra"]: [_parse]
    lower-cases the input and compares it with the name as written, so a
    name with a capital letter matches nothing, although the suggestions of
    the node lower-case the name too and offer it. *)
Theorem isValidInput_rejects_mixed_case_name :
  In "Stop"%string ["Stop"%string]
  /\ LiteralCommandNode.isValidInput ["Stop"%string] "Stop" = false
  /\ LiteralCommandNode.isValidInput ["Stop"%string] "stop" = false
  /\ LiteralCommandNode.isValidInput ["Stop"%string] ("Stop" +:+ " extra") = false
  /\ map (fun s => Suggestions.text s)
         (Suggestions.suggestions
            (@Dispatch.literalListSuggestions Fixtures.Actor string
               ["Stop"%string]
               (Suggestions.newBuilder "st" 0
                  (Dispatch.mkMetadata None None None None))))
     = ["Stop"%string].
Proof. split; [simpl; auto | repeat split; vm_compute; reflexivity]. Qed.

(** ** Requirements *)

Section RequirementFacts.
Context {Source T : Type}.

Abbreviation NReq := (Requirement.NormalizedRequirement Source T).
Abbreviation Req := (Requirement.Requirement Source T).

(** The loop of [requireOr] computes what the loop of [requireAnd] does. *)
Lemma anyFailedLoop_firstFailure (ns : list NReq) (user : Source) :
  Requirement.anyFailedLoop ns user = Requirement.firstFailure ns user.
Proof.
  unfold Requirement.anyFailedLoop.
  enough (G : forall acc,
             fold_left
               (fun anyFailed (requirement : NReq) =>
                  match requirement user, anyFailed with
                  | Some failure, None => Some failure
                  | _, _ => anyFailed
                  end) ns acc
             = match acc with
               | Some a => Some a
               | None => Requirement.firstFailure ns user
               end) by apply (G None).
  induction ns as [|n ns IH]; intros acc; simpl.
  - now destruct acc.
  - rewrite IH. destruct (n user), acc; reflexivity.
Qed.

Lemma firstFailure_none (ns : list NReq) (user : Source) :
  Requirement.firstFailure ns user = None <-> Forall (fun n => n user = None) ns.
Proof.
  induction ns as [|n ns IH]; simpl.
  - split; auto.
  - destruct (n user) eqn:E.
    + split; [discriminate|]. intros H. inversion H; congruence.
    + rewrite IH. split; [now constructor|]. intros H. now inversion H.
Qed.

Lemma firstFailure_some (ns : list NReq) (user : Source)
    (failure : Requirement.RequirementFailure T) :
  Requirement.firstFailure ns user = Some failure <->
  exists pre n post,
    ns = pre ++ n :: post
    /\ Forall (fun m => m user = None) pre
    /\ n user = Some failure.
Proof.
  induction ns as [|n ns IH]; simpl.
  - split; [discriminate|]. intros (pre & m & post & H & _).
    now destruct pre.
  - destruct (n user) eqn:E.
    + split.
      * intros [= <-]. exists [], n, ns. auto.
      * intros (pre & m & post & H & Hpre & Hm).
        destruct pre as [|p pre]; simpl in H; injection H as -> ->.
        -- congruence.
        -- inversion Hpre; congruence.
    + rewrite IH. split.
      * intros (pre & m & post & -> & Hpre & Hm).
        exists (n :: pre), m, post. repeat split; auto.
      * intros (pre & m & post & H & Hpre & Hm).
        destruct pre as [|p pre]; simpl in H; injection H as -> ->.
        -- congruence.
        -- inversion Hpre; subst. eauto 6.
Qed.

(** An array is normalised by [requireAnd]. *)
Lemma normalizeRequirement_array (fuel : nat) (h : Requirement.arrays Source T)
    (l : Requirement.loc) :
  Requirement.normalizeRequirement (S fuel) h (Some (Requirement.ReqArr l))
  = h !! l ≫= Requirement.requireAnd fuel h.
Proof. reflexivity. Qed.

(** On arrays nested at most [d] deep, [normalizeRequirement] returns
    with fuel [d + 1]. *)
Lemma normalizeRequirement_returns (h : Requirement.arrays Source T)
    (d : nat) (r : Req) :
  Requirement.depthBelow h d r ->
  is_Some (Requirement.normalizeRequirement (S d) h (Some r)).
Proof.
  revert r. induction d as [|d IH]; intros r Hr; inversion Hr; subst.
  - simpl. eauto.
  - simpl. eauto.
  - rewrite normalizeRequirement_array, H0.
    cbn [mbind option_bind]. unfold Requirement.requireAnd.
    assert (Hm : is_Some
              (mapM (fun r => Requirement.normalizeRequirement (S d) h (Some r)) rs)).
    { apply mapM_is_Some. eapply Forall_impl; [exact H1|].
      intros x Hx. apply IH, Hx. }
    destruct Hm as [ns ->]. simpl. eauto.
Qed.

End RequirementFacts.

(** C9: on a list of requirements whose nested arrays can be normalised,
    [requireOr] returns a requirement that permits a source exactly when
    every element permits it, and that otherwise gives the failure of the
    first failing element in list order, whatever the later elements say. *)
Theorem requireOr_is_conjunction {Source T : Type}
    (h : Requirement.arrays Source T) (d : nat)
    (rs : list (Requirement.Requirement Source T)) :
  Forall (Requirement.depthBelow h d) rs ->
  exists q ns,
    Requirement.requireOr (S d) h rs = Some q
    /\ mapM (fun r => Requirement.normalizeRequirement (S d) h (Some r)) rs = Some ns
    /\ forall s : Source,
        (q s = None <-> Forall (fun n => n s = None) ns)
        /\ (forall failure,
              q s = Some failure <->
              exists pre n post,
                ns = pre ++ n :: post
                /\ Forall (fun m => m s = None) pre
                /\ n s = Some failure).
Proof.
  intros Hrs.
  assert (Hm : is_Some
            (mapM (fun r => Requirement.normalizeRequirement (S d) h (Some r)) rs)).
  { apply mapM_is_Some. eapply Forall_impl; [exact Hrs|].
    intros x Hx. now apply normalizeRequirement_returns. }
  destruct Hm as [ns Hns].
  exists (Requirement.anyFailedLoop ns), ns.
  unfold Requirement.requireOr. rewrite Hns. repeat split.
  - rewrite anyFailedLoop_firstFailure. apply firstFailure_none.
  - rewrite anyFailedLoop_firstFailure. apply firstFailure_none.
  - rewrite anyFailedLoop_firstFailure. apply firstFailure_some.
  - rewrite anyFailedLoop_firstFailure. apply firstFailure_some.
Qed.

Lemma requireOr_is_conjunction_witness :
  exists q ns,
    Requirement.requireOr 2 Fixtures.common
      [Requirement.ReqFn Fixtures.canBan; Requirement.ReqArr 0%nat] = Some q
    /\ mapM (fun r => Requirement.normalizeRequirement 2 Fixtures.common (Some r))
         [Requirement.ReqFn Fixtures.canBan; Requirement.ReqArr 0%nat] = Some ns
    /\ forall s : Fixtures.Actor,
        (q s = None <-> Forall (fun n => n s = None) ns)
        /\ (forall failure,
              q s = Some failure <->
              exists pre n post,
                ns = pre ++ n :: post
                /\ Forall (fun m => m s = None) pre
                /\ n s = Some failure).
Proof.
  apply (@requireOr_is_conjunction Fixtures.Actor string Fixtures.common 1%nat
           [Requirement.ReqFn Fixtures.canBan; Requirement.ReqArr 0%nat]).
  repeat constructor.
  apply Requirement.depth_arr with (rs := [Requirement.ReqFn Fixtures.isAdmin]).
  - reflexivity.
  - repeat constructor.
Defined.

(** ** Builders *)

Section BuilderFacts.
Context {Source T : Type}.
Variable localeCompare : string -> string -> Z.

Abbreviation Builder := (ArgumentBuilder.t Source T).

Lemma requires_held_array (b : Builder) (h : Requirement.arrays Source T)
    (l : Requirement.loc) (held : list (Requirement.Requirement Source T))
    (r : Requirement.Requirement Source T) :
  ArgumentBuilder.requirement b = Some (Requirement.ReqArr l) ->
  h !! l = Some held ->
  ArgumentBuilder.requires b r h = (b, <[l := held ++ [r]]> h).
Proof. intros Hb Hl. unfold ArgumentBuilder.requires. now rewrite Hb, Hl. Qed.

Lemma requires_pushes (b : Builder) (h : Requirement.arrays Source T)
    (l : Requirement.loc) (held : list (Requirement.Requirement Source T))
    (ps : list (Requirement.NormalizedRequirement Source T)) :
  ArgumentBuilder.requirement b = Some (Requirement.ReqArr l) ->
  h !! l = Some held ->
  exists b' h',
    ArgumentBuilder.requiresAll b (map Requirement.ReqFn ps) h = (b', h')
    /\ ArgumentBuilder.requirement b' = Some (Requirement.ReqArr l)
    /\ ArgumentBuilder.argumentList b' = ArgumentBuilder.argumentList b
    /\ h' !! l = Some (held ++ map Requirement.ReqFn ps).
Proof.
  revert b h held. induction ps as [|p ps IH]; intros b h held Hb Hl.
  - exists b, h. simpl. rewrite app_nil_r. auto.
  - unfold ArgumentBuilder.requiresAll. simpl.
    rewrite requires_held_array with (l := l) (held := held) by assumption.
    destruct (IH b (<[l := held ++ [Requirement.ReqFn p]]> h)
                (held ++ [Requirement.ReqFn p]) Hb) as (b' & h' & E & Hb' & Ha & Hl').
    { apply list_lookup_insert_eq. eapply lookup_lt_Some, Hl. }
    exists b', h'. unfold ArgumentBuilder.requiresAll in E. rewrite E.
    rewrite <- app_assoc in Hl'. auto.
Qed.

Lemma mapM_normalize_predicates (fuel : nat) (h : Requirement.arrays Source T)
    (ps : list (Requirement.NormalizedRequirement Source T)) :
  mapM (fun r => Requirement.normalizeRequirement (S fuel) h (Some r))
       (map Requirement.ReqFn ps) = Some ps.
Proof.
  induction ps as [|p ps IH]; [reflexivity|].
  simpl in *. rewrite IH. reflexivity.
Qed.

End BuilderFacts.

(** X26: where every call of [requires] passes a predicate, the builder makes
    its own array on the second call and the requirement it hands to the
    node is the conjunction of the predicates, in call order. *)
Lemma requires_predicates_accumulate {Source T : Type}
    (b : ArgumentBuilder.t Source T) (h : Requirement.arrays Source T)
    (p1 p2 : Requirement.NormalizedRequirement Source T)
    (ps : list (Requirement.NormalizedRequirement Source T)) :
  ArgumentBuilder.requirement b = None ->
  exists b' h',
    ArgumentBuilder.requiresAll b (map Requirement.ReqFn (p1 :: p2 :: ps)) h = (b', h')
    /\ Requirement.normalizeRequirement 2 h' (ArgumentBuilder.requirement b')
       = Some (Requirement.firstFailure (p1 :: p2 :: ps)).
Proof.
  intros Hb.
  set (b2 := ArgumentBuilder.withRequirement
               (ArgumentBuilder.withRequirement b (Some (Requirement.ReqFn p1)))
               (Some (Requirement.ReqArr (List.length h)))).
  destruct (@requires_pushes Source T b2
              (h ++ [[Requirement.ReqFn p1; Requirement.ReqFn p2]])
              (List.length h) [Requirement.ReqFn p1; Requirement.ReqFn p2] ps)
    as (b' & h' & E & Hb' & _ & Hl').
  { reflexivity. }
  { rewrite lookup_app_r by lia. now rewrite Nat.sub_diag. }
  exists b', h'. split.
  - unfold ArgumentBuilder.requiresAll in *. cbn [map fold_left].
    unfold ArgumentBuilder.requires at 2. rewrite Hb.
    unfold ArgumentBuilder.requires at 1. cbn. exact E.
  - rewrite Hb', normalizeRequirement_array, Hl'. cbn [mbind option_bind].
    unfold Requirement.requireAnd.
    change ([Requirement.ReqFn p1; Requirement.ReqFn p2] ++ map Requirement.ReqFn ps)
      with (map (@Requirement.ReqFn Source T) (p1 :: p2 :: ps)).
    now rewrite mapM_normalize_predicates.
Qed.

(** C6 at the failing input.  The caller's array [[isAdmin]] is the first
    requirement of two builders: [ban] also requires [canBan], [kick] also
    requires [canKick].  [requires] pushes into the caller's array, so the
    node built from [ban] also demands [canKick]: it denies a source that
    passes [isAdmin] and [canBan], the two requirements [ban] was given. *)
Theorem requires_pushes_into_shared_array :
  exists node q,
    Fixtures.banBuiltAfterKick = Some node
    /\ CommandNode.requirement node = Some q
    /\ Fixtures.isAdmin Fixtures.moderator = None
    /\ Fixtures.canBan Fixtures.moderator = None
    /\ q Fixtures.moderator = Some (Fixtures.deny "may not kick").
Proof.
  eexists _, _. split; [reflexivity|]. split; [reflexivity|].
  repeat split.
Qed.

(** ** Contexts *)

(** C10: [copy] keeps the source, the root node, the executor, the entries
    of the argument map, the traversed nodes, the child and the range of
    the builder, and leaves the redirect modifier of the copy unset. *)
Theorem copy_keeps_all_but_modifier {Source T Value : Type}
    (b : Context.CommandContextBuilder Source T Value) :
  Context.b_source (Context.copy b) = Context.b_source b
  /\ Context.b_rootNode (Context.copy b) = Context.b_rootNode b
  /\ Context.b_command (Context.copy b) = Context.b_command b
  /\ Context.args (Context.copy b) = Context.args b
  /\ Context.b_nodes (Context.copy b) = Context.b_nodes b
  /\ Context.b_child (Context.copy b) = Context.b_child b
  /\ Context.b_range (Context.copy b) = Context.b_range b
  /\ Context.b_modifier (Context.copy b) = None.
Proof.
  unfold Context.copy. cbn.
  repeat split.
  rewrite map_to_list_empty. cbn. apply list_to_map_to_list.
Qed.

(** C8: [getArguments] returns an object without keys, whatever the
    argument map of the context holds; [getArgumentIfExists] and
    [getArgument] give the value recorded under a name. *)
Theorem getArguments_has_no_keys {Source T Value : Type}
    (ctx : Context.CommandContext Source T Value) :
  Context.getArguments ctx = ∅
  /\ forall name : string,
      Context.getArgumentIfExists ctx name
      = (fun argument => Context.result argument)
          <$> (Context.parsedArguments ctx !! name)
      /\ match Context.parsedArguments ctx !! name with
         | Some argument =>
             Context.getArgument ctx name = inr (Context.result argument)
         | None => exists message, Context.getArgument ctx name = inl message
         end.
Proof.
  split; [reflexivity|].
  intros name. unfold Context.getArgumentIfExists, Context.getArgument.
  destruct (Context.parsedArguments ctx !! name); simpl; eauto.
Qed.

(** ** Requirement checks on the tree *)

Section CheckRequirementFacts.
Context {Source T : Type}.

(** The only failure [checkRequirement] ever returns is the one of the
    node's own requirement. *)
Lemma checkRequirement_failure_is_own (fuel : nat)
    (resolve : NodeRef -> CommandNode.t Source T) (n : CommandNode.t Source T)
    (source : Source) (failure : Requirement.RequirementFailure T) :
  CommandNode.checkRequirement fuel resolve n source = Some (Some failure) ->
  exists q, CommandNode.requirement n = Some q /\ q source = Some failure.
Proof.
  destruct fuel as [|fuel]; [discriminate|].
  cbn [CommandNode.checkRequirement].
  destruct (CommandNode.requirement n) as [q|] eqn:Eq.
  - destruct (q source) as [f|] eqn:Ef.
    + intros [= <-]. eauto.
    + destruct (CommandNode.command n); [discriminate|].
      bind_cases; discriminate.
  - destruct (CommandNode.command n); [discriminate|].
    bind_cases; discriminate.
Qed.

End CheckRequirementFacts.

(** C2 at the failing input.  The node [vault] has no executor and no
    redirect, its own requirement passes, and its only child [secret] is
    denied to the source: [checkRequirement] answers permitted for [vault],
    not the failure of the child. *)
Theorem checkRequirement_permits_node_with_denied_children :
  exists vault secret,
    Fixtures.vault = Some vault
    /\ CommandNode.command vault = None
    /\ CommandNode.redirect vault = None
    /\ CommandNode.children vault = [secret]
    /\ CommandNode.checkRequirement 3 (Dispatch.resolve Fixtures.env0) secret
         Fixtures.moderator = Some (Some (Fixtures.deny "may not kick"))
    /\ CommandNode.checkRequirement 3 (Dispatch.resolve Fixtures.env0) vault
         Fixtures.moderator = Some None.
Proof.
  eexists _, _. split; [reflexivity|]. repeat split.
Qed.

(** ** Execution of a parse with unread input *)

Section ExecuteFacts.
Context {Source T Value : Type}.
Variable env : Dispatch.Env Source T Value.

(** X27: with input left in the reader, [executeResults] throws before any
    executor runs or the consumer is told: the sole recorded exception,
    or else ["Unknown argument"] on an empty context range and
    ["Unknown command"] on a non-empty one. *)
Lemma executeResults_leftover (parse : Context.ParseResults Source T Value) :
  StringReader.canReadAnything (Context.reader parse) = true ->
  Dispatch.events (Dispatch.executeResults env parse) = []
  /\ Dispatch.completion (Dispatch.executeResults env parse)
     = inl (match Context.exceptions parse with
            | [(_, sole)] => sole
            | _ =>
                UnknownSomethingError (Context.reader parse)
                  (if StringRange.isEmpty
                        (Context.b_range (Context.context parse))
                   then "argument" else "command")
            end).
Proof.
  intros H. unfold Dispatch.executeResults. rewrite H. split; [reflexivity|].
  cbn. unfold Dispatch.leftoverError.
  destruct (Context.exceptions parse) as [|[k e] [|x rest]];
    try reflexivity;
    destruct (StringRange.isEmpty _); reflexivity.
Qed.

End ExecuteFacts.

(** C1 at the failing input.  The only command of the dispatcher is hidden
    from the source, so parsing ["d"] matches no node and records no
    exception; [executeResults] then throws ["Unknown argument"], where the
    specification (and the comment on [RequirementFailure.reason]) promise
    the unknown-command error.  And with ["a"] registered, parsing ["a b"]
    matches the node ["a"] and stops before ["b"]; [executeResults] throws
    ["Unknown command"], where the specification says unknown argument. *)
Theorem executeResults_reports_unknown_argument_when_nothing_matched :
  (exists dispatcher node parse,
      Fixtures.withHiddenCommand = Some (dispatcher, node)
      /\ Dispatch.parse Fixtures.env0 3 dispatcher "d" Fixtures.moderator = Some parse
      /\ Context.b_nodes (Context.context parse) = []
      /\ Context.exceptions parse = []
      /\ Dispatch.executeResults Fixtures.env0 parse
         = Dispatch.mkOutcome []
             (inl (UnknownSomethingError (StringReader.new "d") "argument")))
  /\ (exists parse,
        Dispatch.parse Fixtures.env0 3 Fixtures.afterA "a b" Fixtures.moderator
        = Some parse
        /\ Fixtures.chain (Context.context parse) = [[("a"%string, (0, 1))]]
        /\ Context.exceptions parse = []
        /\ Dispatch.executeResults Fixtures.env0 parse
           = Dispatch.mkOutcome []
               (inl (UnknownSomethingError (StringReader.mk "a b" 2) "command"))).
Proof.
  split.
  - eexists _, _, _. split; [reflexivity|]. split; [reflexivity|].
    repeat split.
  - eexists. split; [reflexivity|]. repeat split.
Qed.

(** The last scenario of the test suite: ["j j j a"] follows the redirect
    of ["j"] to the root three times and matches ["a"] there; the executor
    of ["a"] then runs. *)
Example parse_follows_redirect_to_root :
  exists parse,
    Dispatch.parse Fixtures.envJ 10 Fixtures.withJ "j j j a" Fixtures.moderator
    = Some parse
    /\ Fixtures.chain (Context.context parse)
       = [[("j"%string, (0, 1))]; [("j"%string, (2, 3))];
          [("j"%string, (4, 5))]; [("a"%string, (6, 7))]]
    /\ StringReader.canReadAnything (Context.reader parse) = false
    /\ Dispatch.completion (Dispatch.executeResults Fixtures.envJ parse)
       = inr [Dispatch.Success None].
Proof. eexists. split; [reflexivity|]. repeat split. Qed.

(** ** The tie-break of [parseNodes] *)

Section SortFacts.
Context {A : Type}.
Variable compareFn : A -> A -> Z.
Variable rank : A -> nat.
Hypothesis compare_rank :
  forall a b, compareFn a b <= 0 <-> (rank a <= rank b)%nat.

Lemma insert_head (x : A) (l : list A) :
  hd_error (JsArray.insert compareFn x l)
  = match l with
    | [] => Some x
    | y :: _ => if compareFn x y <=? 0 then Some x else Some y
    end.
Proof. destruct l as [|y l]; simpl; [|destruct (compareFn x y <=? 0)]; reflexivity. Qed.

(** The head of the sorted array is the leftmost element of least rank. *)
Lemma sort_head_leftmost_least (l : list A) :
  l <> [] ->
  exists pre p post,
    l = pre ++ p :: post
    /\ hd_error (JsArray.sort compareFn l) = Some p
    /\ (forall q, In q pre -> (rank p < rank q)%nat)
    /\ (forall q, In q post -> (rank p <= rank q)%nat).
Proof.
  induction l as [|x l IH]; [congruence|]. intros _.
  destruct l as [|y l].
  - exists [], x, []. simpl. repeat split; intros q [].
  - destruct IH as (pre & m & post & E & Hhd & Hpre & Hpost); [congruence|].
    change (JsArray.sort compareFn (x :: y :: l))
      with (JsArray.insert compareFn x (JsArray.sort compareFn (y :: l))).
    rewrite insert_head.
    destruct (JsArray.sort compareFn (y :: l)) as [|z zs]; [discriminate|].
    injection Hhd as ->.
    destruct (compareFn x m <=? 0) eqn:Ec.
    + apply Z.leb_le, compare_rank in Ec.
      exists [], x, (y :: l). repeat split; [intros q []|].
      intros q Hq. rewrite E in Hq. apply in_app_or in Hq.
      destruct Hq as [Hq|[<-|Hq]]; auto.
      * specialize (Hpre q Hq). lia.
      * specialize (Hpost q Hq). lia.
    + apply Z.leb_gt in Ec.
      assert (rank m < rank x)%nat.
      { destruct (Nat.lt_ge_cases (rank m) (rank x)) as [|Hle]; auto.
        apply compare_rank in Hle. lia. }
      exists (x :: pre), m, post. rewrite E. repeat split; auto.
      intros q [<-|Hq]; auto.
Qed.

End SortFacts.

Section TieBreakFacts.
Context {Source T Value : Type}.

Abbreviation Potential := (Context.ParseResults Source T Value).

Lemma before_rank (a b : Potential) :
  TieBreak.before a b <-> (TieBreak.rank a < TieBreak.rank b)%nat.
Proof.
  unfold TieBreak.before, TieBreak.rank.
  destruct (TieBreak.leftover a), (TieBreak.leftover b),
    (TieBreak.hasErrors a), (TieBreak.hasErrors b); simpl;
    split; intros H; try lia;
    try (destruct H as [[? ?]|[? [? ?]]]; discriminate);
    auto.
Qed.

Lemma comparePotentials_rank (a b : Potential) :
  Dispatch.comparePotentials a b <= 0
  <-> (TieBreak.rank a <= TieBreak.rank b)%nat.
Proof.
  unfold Dispatch.comparePotentials, TieBreak.rank, TieBreak.hasErrors,
    TieBreak.leftover.
  destruct (StringReader.canReadAnything (Context.reader a)),
    (StringReader.canReadAnything (Context.reader b)),
    (JsMap.size (Context.exceptions a) =? 0),
    (JsMap.size (Context.exceptions b) =? 0); simpl; lia.
Qed.

End TieBreakFacts.

(** C4: with more than one potential, the end of [parseNodes] returns the
    potential that comes first in the order of the specification, and of
    several such the one inserted first: every potential inserted earlier
    comes strictly after it in that order, and none inserted later comes
    before it. *)
Theorem parseNodes_returns_first_in_order {Source T Value : Type}
    (potentials : list (Context.ParseResults Source T Value))
    (contextSoFar : Context.CommandContextBuilder Source T Value)
    (originalReader : StringReader.t) (errors : JsMap.t (Error T)) :
  (1 < List.length potentials)%nat ->
  exists earlier chosen later,
    potentials = earlier ++ chosen :: later
    /\ Dispatch.selectResult potentials contextSoFar originalReader errors = chosen
    /\ (forall q, In q earlier -> TieBreak.before chosen q)
    /\ (forall q, In q later -> ~ TieBreak.before q chosen).
Proof.
  intros Hlen.
  destruct (@sort_head_leftmost_least _
              (@Dispatch.comparePotentials Source T Value)
              (@TieBreak.rank Source T Value)
              (@comparePotentials_rank Source T Value) potentials)
    as (pre & p & post & E & Hhd & Hpre & Hpost).
  { destruct potentials; simpl in Hlen; [lia|congruence]. }
  exists pre, p, post. repeat split; auto.
  - unfold Dispatch.selectResult.
    destruct potentials as [|a l]; [simpl in Hlen; lia|].
    destruct (1 <? Z.of_nat (List.length (a :: l))) eqn:El;
      [|apply Z.ltb_ge in El; lia].
    destruct (JsArray.sort _ (a :: l)); [discriminate|].
    now injection Hhd as ->.
  - intros q Hq. apply before_rank. auto.
  - intros q Hq Hb. apply before_rank in Hb. specialize (Hpost q Hq). lia.
Qed.

Lemma parseNodes_returns_first_in_order_witness :
  exists earlier chosen later,
    [Fixtures.stoppedEarly; Fixtures.readAll] = earlier ++ chosen :: later
    /\ Dispatch.selectResult [Fixtures.stoppedEarly; Fixtures.readAll]
         (Context.newBuilder Fixtures.moderator CommandNode.newRoot 0)
         (StringReader.new "ab") [] = chosen
    /\ (forall q, In q earlier -> TieBreak.before chosen q)
    /\ (forall q, In q later -> ~ TieBreak.before q chosen).
Proof.
  apply (@parseNodes_returns_first_in_order Fixtures.Actor string string
           [Fixtures.stoppedEarly; Fixtures.readAll]).
  simpl. lia.
Defined.

(** ** Registration *)

Section MapFacts.
Context {V : Type}.

Lemma set_absent (m : JsMap.t V) (k : string) (v : V) :
  JsMap.get m k = None -> JsMap.set m k v = m ++ [(k, v)].
Proof.
  induction m as [|[k' v'] m IH]; simpl; [reflexivity|].
  destruct (String.eqb k k'); [discriminate|].
  intros H. now rewrite IH.
Qed.

Lemma delete_inserted (pre post : JsMap.t V) (k : string) (v : V) :
  JsMap.get (pre ++ post) k = None ->
  JsMap.delete (pre ++ (k, v) :: post) k = pre ++ post.
Proof.
  induction pre as [|[k' v'] pre IH]; simpl.
  - now rewrite String.eqb_refl.
  - destruct (String.eqb k k'); [discriminate|].
    intros H. now rewrite IH.
Qed.

End MapFacts.

Section SortedInsertion.
Context {A : Type}.
Variable compareFn : A -> A -> Z.

Lemma insert_before_ordered (x : A) (l : list A) :
  JsArray.ordered compareFn (x :: l) ->
  JsArray.insert compareFn x l = x :: l.
Proof.
  destruct l as [|y l]; simpl; [reflexivity|].
  intros [H _]. apply Z.leb_le in H. now rewrite H.
Qed.

(** Sorting an ordered array with one more element at its end puts the
    element somewhere and moves nothing else. *)
Lemma sort_one_more (l : list A) (x : A) :
  JsArray.ordered compareFn l ->
  exists pre post,
    JsArray.sort compareFn (l ++ [x]) = pre ++ x :: post /\ l = pre ++ post.
Proof.
  induction l as [|e l IH]; intros Hord.
  - exists [], []. auto.
  - destruct IH as (pre & post & Es & El); [apply Hord|].
    change (JsArray.sort compareFn ((e :: l) ++ [x]))
      with (JsArray.insert compareFn e (JsArray.sort compareFn (l ++ [x]))).
    rewrite Es.
    destruct pre as [|p pre]; simpl in *.
    + subst post.
      destruct (compareFn e x <=? 0).
      * exists [e], l. auto.
      * exists [], (e :: l). now rewrite insert_before_ordered.
    + subst l. destruct Hord as [Hep _].
      apply Z.leb_le in Hep. rewrite Hep.
      exists (e :: p :: pre), post. auto.
Qed.

End SortedInsertion.

Section RegistrationFacts.
Context {Source T : Type}.
Variable localeCompare : string -> string -> Z.

Abbreviation TreeNode := (CommandNode.t Source T).

(** [addChild] changes the maps of the parent and nothing else. *)
Lemma addChild_kind (parent node parent' : TreeNode) :
  CommandNode.addChild localeCompare parent node = Some parent' ->
  CommandNode.kind parent' = CommandNode.kind parent.
Proof.
  destruct node as [k c cd r rd md cm ls ar].
  cbn [CommandNode.addChild CommandNode.kind].
  destruct k; [discriminate| |];
    (destruct (CommandNode.getChild parent _);
     cbn [mbind option_bind];
     [ match goal with
       | |- context [fold_left ?f ?l ?a] => destruct (fold_left f l a)
       end; cbn [mbind option_bind]; [|discriminate]
     | ]; intros [= <-]; reflexivity).
Qed.

Lemma addChild_all_kind (children : list TreeNode) (start result : TreeNode) :
  fold_left
    (fun acc argument =>
       node ← acc; CommandNode.addChild localeCompare node argument)
    children (Some start) = Some result ->
  CommandNode.kind result = CommandNode.kind start.
Proof.
  revert start. induction children as [|c cs IH]; intros start; simpl.
  - now intros [= <-].
  - destruct (CommandNode.addChild localeCompare start c) as [s'|] eqn:E.
    + intros H. rewrite (IH _ H). eapply addChild_kind, E.
    + intros H. exfalso. clear -H.
      induction cs; simpl in H; [discriminate|auto].
Qed.

(** What [build] returns is a node of the class of the builder. *)
Lemma build_literal (fuel : nat) (h : Requirement.arrays Source T)
    (b : ArgumentBuilder.t Source T) (literals : list string) (node : TreeNode) :
  ArgumentBuilder.kind b = ArgumentBuilder.LiteralArgumentBuilder literals ->
  ArgumentBuilder.build localeCompare fuel h b = Some node ->
  CommandNode.kind node = CommandNode.Literal literals.
Proof.
  intros Hk. unfold ArgumentBuilder.build.
  destruct (Requirement.normalizeRequirement fuel h _); [|discriminate].
  cbn [mbind option_bind]. intros H.
  apply addChild_all_kind in H. rewrite H, Hk. reflexivity.
Qed.

End RegistrationFacts.

Section SettledFacts.
Context {Source T : Type}.
Variable localeCompare : string -> string -> Z.

(** [localeCompare] orders any two strings one way or the other. *)
Hypothesis localeCompare_total :
  forall a b, 0 < localeCompare a b -> localeCompare b a <= 0.

Abbreviation Entry := (string * CommandNode.t Source T)%type.

Lemma compareEntries_total (a b : Entry) :
  0 < CommandNode.compareEntries localeCompare a b ->
  CommandNode.compareEntries localeCompare b a <= 0.
Proof.
  unfold CommandNode.compareEntries, CommandNode.compareTo.
  destruct (CommandNode.isLiteral (snd a)), (CommandNode.isLiteral (snd b));
    simpl; auto; lia.
Qed.

Lemma insert_ordered (x : Entry) (l : list Entry) :
  JsArray.ordered (CommandNode.compareEntries localeCompare) l ->
  JsArray.ordered (CommandNode.compareEntries localeCompare)
                  (JsArray.insert (CommandNode.compareEntries localeCompare) x l).
Proof.
  induction l as [|y l IH]; intros Hl; [simpl; auto|].
  cbn [JsArray.insert].
  destruct (CommandNode.compareEntries localeCompare x y <=? 0) eqn:E.
  - apply Z.leb_le in E. split; auto.
  - apply Z.leb_gt in E. apply compareEntries_total in E.
    destruct Hl as [Hy Hl]. specialize (IH Hl).
    split; [|exact IH].
    destruct l as [|z l]; [exact E|].
    cbn [JsArray.insert] in *.
    destruct (CommandNode.compareEntries localeCompare x z <=? 0); auto.
Qed.

Lemma sort_ordered (l : list Entry) :
  JsArray.ordered (CommandNode.compareEntries localeCompare)
                  (JsArray.sort (CommandNode.compareEntries localeCompare) l).
Proof.
  induction l as [|x l IH]; [exact I|].
  apply insert_ordered, IH.
Qed.

Lemma get_keys {V : Type} (m : JsMap.t V) (k : string) :
  JsMap.get m k <> None <-> In k (map fst m).
Proof.
  induction m as [|[k' v] m IH]; simpl; [tauto|].
  destruct (String.eqb k k') eqn:E.
  - apply String.eqb_eq in E. subst. split; [auto|discriminate].
  - apply String.eqb_neq in E. rewrite IH. split; [auto|].
    intros [H|H]; [congruence|exact H].
Qed.

Lemma keys_insert (x : Entry) (l : list Entry) (k : string) :
  In k (map fst (JsArray.insert (CommandNode.compareEntries localeCompare) x l))
  <-> k = fst x \/ In k (map fst l).
Proof.
  induction l as [|y l IH]; simpl; [firstorder|].
  destruct (CommandNode.compareEntries localeCompare x y <=? 0); simpl.
  - firstorder.
  - rewrite IH. firstorder.
Qed.

Lemma keys_sort (l : list Entry) (k : string) :
  In k (map fst (JsArray.sort (CommandNode.compareEntries localeCompare) l))
  <-> In k (map fst l).
Proof.
  induction l as [|x l IH]; [reflexivity|].
  change (JsArray.sort (CommandNode.compareEntries localeCompare) (x :: l))
    with (JsArray.insert (CommandNode.compareEntries localeCompare) x
            (JsArray.sort (CommandNode.compareEntries localeCompare) l)).
  rewrite keys_insert, IH. simpl. firstorder.
Qed.

Lemma keys_set {V : Type} (m : JsMap.t V) (k' : string) (v : V) (k : string) :
  In k (map fst (JsMap.set m k' v)) <-> k = k' \/ In k (map fst m).
Proof.
  induction m as [|[k0 v0] m IH]; simpl; [firstorder|].
  destruct (String.eqb k' k0) eqn:E; simpl.
  - apply String.eqb_eq in E. subst. firstorder.
  - rewrite IH. firstorder.
Qed.

Lemma keys_replace {V : Type} (m : JsMap.t V) (k' : string) (v : V) :
  map fst (JsMap.replace m k' v) = map fst m.
Proof.
  induction m as [|[k0 v0] m IH]; simpl; [reflexivity|].
  destruct (String.eqb k' k0); simpl; congruence.
Qed.

(** A new root is settled, and [addChild] leaves a settled parent settled. *)
Lemma newRoot_settled :
  CommandNode.settled localeCompare (@CommandNode.newRoot Source T).
Proof. split; [exact I|]. intros k H. now simpl in H. Qed.

(** The two ways [addChild] returns. *)
Lemma addChild_shape (parent node parent' : CommandNode.t Source T) :
  CommandNode.addChild localeCompare parent node = Some parent' ->
  (exists child child2,
      parent' = CommandNode.sortChildren localeCompare
                  (CommandNode.replaceChild parent (CommandNode.name node)
                                            child child2))
  \/ parent' = CommandNode.sortChildren localeCompare
                 (CommandNode.insertChild parent node).
Proof.
  destruct node as [k c cd r rd md cm ls ar].
  cbn [CommandNode.addChild CommandNode.kind].
  destruct k as [|names|name type custom]; [discriminate| |].
  - destruct (CommandNode.getChild parent _) as [child|];
      cbn [mbind option_bind].
    + destruct (fold_left _ _ _) as [child2|]; cbn [mbind option_bind];
        [|discriminate].
      intros [= <-]. left. eauto.
    + intros [= <-]. now right.
  - destruct (CommandNode.getChild parent _) as [child|];
      cbn [mbind option_bind].
    + destruct (fold_left _ _ _) as [child2|]; cbn [mbind option_bind];
        [|discriminate].
      intros [= <-]. left. eauto.
    + intros [= <-]. now right.
Qed.

Lemma addChild_settled (parent node parent' : CommandNode.t Source T) :
  CommandNode.settled localeCompare parent ->
  CommandNode.addChild localeCompare parent node = Some parent' ->
  CommandNode.settled localeCompare parent'.
Proof.
  intros [_ Hkeys] Hadd.
  assert (Hshape : exists updated,
             parent' = CommandNode.sortChildren localeCompare updated
             /\ forall k, JsMap.get (CommandNode.literals updated) k <> None ->
                          JsMap.get (CommandNode.childrenMap updated) k <> None).
  { destruct (addChild_shape _ _ Hadd) as [(child & child2 & ->)| ->];
      eexists; (split; [reflexivity|]);
      intros key; rewrite !get_keys;
      unfold CommandNode.replaceChild, CommandNode.insertChild, CommandNode.withMaps;
      cbn [CommandNode.literals CommandNode.childrenMap CommandNode.kind];
      specialize (Hkeys key); rewrite !get_keys in Hkeys.
    - destruct (CommandNode.kind child); rewrite ?keys_replace; exact Hkeys.
    - destruct (CommandNode.kind node); rewrite ?keys_set; tauto. }
  destruct Hshape as (updated & -> & Hk).
  split.
  - cbn. apply sort_ordered.
  - intros key. cbn [CommandNode.sortChildren CommandNode.withMaps
                       CommandNode.literals CommandNode.childrenMap].
    intros H. apply get_keys, keys_sort, get_keys. auto.
Qed.

(** Hence every dispatcher reached by registrations from a new one is
    settled. *)
Lemma register_settled (fuel : nat) (h : Requirement.arrays Source T)
    (d d' : CommandDispatcher.t Source T) (command : ArgumentBuilder.t Source T)
    (node : CommandNode.t Source T) :
  CommandNode.settled localeCompare (CommandDispatcher.root d) ->
  CommandDispatcher.register localeCompare fuel h d command = Some (d', node) ->
  CommandNode.settled localeCompare (CommandDispatcher.root d').
Proof.
  intros Hs. unfold CommandDispatcher.register.
  destruct (ArgumentBuilder.build localeCompare fuel h command); [|discriminate].
  cbn [mbind option_bind].
  destruct (CommandNode.addChild localeCompare (CommandDispatcher.root d) t)
    eqn:E; [|discriminate].
  cbn [mbind option_bind]. intros [= <- _]. cbn. eapply addChild_settled; eauto.
Qed.

End SettledFacts.

(** C3, as the code has it: in a settled dispatcher (children in sorted
    order, every literal entry among the children: the state every
    registration leaves) whose root has no child under the name of the
    built node, [register] followed by [unregister] of the returned node
    gives back the dispatcher as it was. *)
Theorem register_then_unregister_restores {Source T : Type}
    (localeCompare : string -> string -> Z) (fuel : nat)
    (h : Requirement.arrays Source T) (d d' : CommandDispatcher.t Source T)
    (command : ArgumentBuilder.t Source T) (literals : list string)
    (node : CommandNode.t Source T) :
  ArgumentBuilder.kind command = ArgumentBuilder.LiteralArgumentBuilder literals ->
  CommandDispatcher.register localeCompare fuel h d command = Some (d', node) ->
  CommandNode.settled localeCompare (CommandDispatcher.root d) ->
  CommandNode.getChild (CommandDispatcher.root d) (CommandNode.name node) = None ->
  CommandDispatcher.unregister d' node = d.
Proof.
  intros Hkind Hreg [Hord Hkeys] Hchild.
  assert (Hlit : JsMap.get (CommandNode.literals (CommandDispatcher.root d))
                           (CommandNode.name node) = None).
  { destruct (JsMap.get (CommandNode.literals (CommandDispatcher.root d))
                        (CommandNode.name node)) eqn:E; [|reflexivity].
    exfalso. apply (Hkeys (CommandNode.name node)); [congruence|exact Hchild]. }
  clear Hkeys.
  unfold CommandDispatcher.register in Hreg.
  destruct (ArgumentBuilder.build localeCompare fuel h command) as [built|] eqn:Eb;
    [|discriminate].
  cbn [mbind option_bind] in Hreg.
  destruct (CommandNode.addChild localeCompare (CommandDispatcher.root d) built)
    as [root'|] eqn:Ea; [|discriminate].
  cbn [mbind option_bind] in Hreg. injection Hreg as <- <-.
  pose proof (build_literal _ _ _ _ Hkind Eb) as Hk.
  destruct d as [root]. cbn [CommandDispatcher.root] in *.
  unfold CommandDispatcher.unregister. cbn [CommandDispatcher.root]. f_equal.
  destruct built as [k c cd r rd md cm ls ar]. cbn [CommandNode.kind] in Hk. subst k.
  cbn [CommandNode.addChild CommandNode.kind] in Ea.
  rewrite Hchild in Ea. cbn [mbind option_bind] in Ea. injection Ea as <-.
  set (built := CommandNode.mk (CommandNode.Literal literals) c cd r rd md cm ls ar) in *.
  unfold CommandNode.getChild in Hchild.
  destruct root as [rk rc rcd rr rrd rmd rcm rls rar].
  cbn [CommandNode.childrenMap CommandNode.literals] in *.
  unfold CommandNode.removeChild, CommandNode.sortChildren, CommandNode.insertChild,
    CommandNode.withMaps.
  cbn [CommandNode.kind CommandNode.command CommandNode.commandDescription
       CommandNode.requirement CommandNode.redirect CommandNode.modifier
       CommandNode.childrenMap CommandNode.literals CommandNode.arguments].
  change (CommandNode.kind built) with (@CommandNode.Literal literals). cbv iota.
  f_equal.
  - rewrite set_absent by exact Hchild.
    destruct (@sort_one_more _ (CommandNode.compareEntries localeCompare)
                rcm (CommandNode.name built, built) Hord) as (pre & post & -> & ->).
    now apply delete_inserted.
  - rewrite set_absent by exact Hlit.
    rewrite <- (app_nil_r rls) at 2.
    apply (@delete_inserted _ rls []). now rewrite app_nil_r.
Qed.

Lemma register_then_unregister_restores_witness :
  CommandDispatcher.unregister Fixtures.afterA Fixtures.aNode
  = CommandDispatcher.new Fixtures.Actor string.
Proof.
  apply (@register_then_unregister_restores Fixtures.Actor string
           Fixtures.byteCompare 1 [] (CommandDispatcher.new _ _) Fixtures.afterA
           Fixtures.aCommand ["a"%string] Fixtures.aNode).
  - reflexivity.
  - reflexivity.
  - split; [exact I|]. intros k H. now simpl in H.
  - reflexivity.
Defined.

(** C3 as stated fails in the case it singles out: with ["a"] already
    registered, [register] of a builder named ["a"] merges into the
    existing child, and [unregister] of the returned node removes that
    child, so the root is left without the child it had before. *)
Lemma register_merge_then_unregister_drops_child :
  Fixtures.withAAgain = Some (Fixtures.afterAAgain, Fixtures.aNodeAgain)
  /\ CommandNode.getChild (CommandDispatcher.root Fixtures.afterA) "a"
     = Some Fixtures.aNode
  /\ CommandNode.getChild
       (CommandDispatcher.root
          (CommandDispatcher.unregister Fixtures.afterAAgain Fixtures.aNodeAgain))
       "a" = None
  /\ CommandDispatcher.unregister Fixtures.afterAAgain Fixtures.aNodeAgain
     <> Fixtures.afterA.
Proof.
  split; [reflexivity|]. split; [reflexivity|]. split; [reflexivity|].
  intros H.
  apply (f_equal (fun d => List.length
                             (CommandNode.childrenMap (CommandDispatcher.root d)))) in H.
  vm_compute in H. discriminate.
Qed.

(** ** Completion *)

Section SuggestionFacts.
Context {Metadata : Type}.

Abbreviation SBuilder := (Suggestions.SuggestionsBuilder Metadata).
Abbreviation Sugg := (Suggestions.Suggestion Metadata).

(** [suggest] of the remaining text leaves the builder as it is. *)
Lemma suggest_remaining (b : SBuilder) (tooltip : option string) :
  Suggestions.suggest b (Suggestions.remaining b) tooltip = b.
Proof.
  unfold Suggestions.suggest, JsString.eqb. now rewrite String.eqb_refl.
Qed.

Lemma seeded_suggest (b0 b : SBuilder) (text : string) (tooltip : option string) :
  Suggestions.seeded b0 b -> Suggestions.seeded b0 (Suggestions.suggest b text tooltip).
Proof.
  intros (Hi & Hs & Hr & Hm & Hf). unfold Suggestions.suggest.
  destruct (JsString.eqb text (Suggestions.remaining b)) eqn:E.
  - repeat split; auto.
  - repeat split; auto. cbn [Suggestions.result].
    apply Forall_app. split; [exact Hf|].
    constructor; [|constructor]. cbn. rewrite Hs, Hi. split; [reflexivity|].
    apply String.eqb_neq. now rewrite <- Hr.
Qed.

Lemma seeded_fold {X : Type} (step : SBuilder -> X -> SBuilder) (xs : list X)
    (b0 b : SBuilder) :
  (forall b x, step b x = b
               \/ exists text tooltip, step b x = Suggestions.suggest b text tooltip) ->
  Suggestions.seeded b0 b -> Suggestions.seeded b0 (fold_left step xs b).
Proof.
  intros Hstep. revert b. induction xs as [|x xs IH]; intros b Hb; simpl; auto.
  apply IH. destruct (Hstep b x) as [->|(t & tip & ->)]; auto.
  now apply seeded_suggest.
Qed.

Lemma seeded_new (input : string) (start : Z) (metadata : Metadata) :
  Suggestions.seeded (Suggestions.newBuilder input start metadata)
         (Suggestions.newBuilder input start metadata).
Proof. repeat split. constructor. Qed.

Lemma fold_min_uniform (l : list Sugg) (range : StringRange.t) :
  Forall (fun s => Suggestions.s_range s = range) l ->
  fold_left (fun acc s => Z.min (StringRange.start (Suggestions.s_range s)) acc)
            l (StringRange.start range) = StringRange.start range
  /\ fold_left (fun acc s => Z.max (StringRange.end_ (Suggestions.s_range s)) acc)
               l (StringRange.end_ range) = StringRange.end_ range.
Proof.
  induction 1 as [|s l Hs _ IH]; simpl; [auto|].
  rewrite Hs, Z.min_id, Z.max_id. exact IH.
Qed.

Lemma equals_refl (r : StringRange.t) : StringRange.equals r r = true.
Proof. unfold StringRange.equals. now rewrite !Z.eqb_refl. Qed.

(** [create] leaves suggestions that all cover the same range as they are. *)
Lemma create_uniform (command : string) (l : list Sugg) (range : StringRange.t) :
  Forall (fun s => Suggestions.s_range s = range) l ->
  Suggestions.suggestions (Suggestions.create command l) = l.
Proof.
  intros H. destruct l as [|first l]; [reflexivity|].
  unfold Suggestions.create.
  assert (Hf : Suggestions.s_range first = range) by now inversion H.
  rewrite Hf. destruct (fold_min_uniform H) as [-> ->].
  cbn [Suggestions.suggestions].
  replace (StringRange.mk (StringRange.start range) (StringRange.end_ range))
    with range by now destruct range.
  rewrite <- (map_id (first :: l)) at 2.
  apply map_ext_Forall. eapply Forall_impl; [exact H|].
  intros s Hs. unfold Suggestions.expand. now rewrite Hs, equals_refl.
Qed.

Lemma fresh_at_uniform (range : StringRange.t) (rem : string) (l : list Sugg) :
  Suggestions.fresh_at range rem l -> Forall (fun s => Suggestions.s_range s = range) l.
Proof. intros H. eapply Forall_impl; [exact H|]. now intros s [? _]. Qed.

(** What a Suggestions.seeded builder builds. *)
Lemma build_seeded (b0 b : SBuilder) :
  Suggestions.seeded b0 b ->
  Suggestions.fresh_at (StringRange.between (Suggestions.start b0)
                                (JsString.length (Suggestions.input b0)))
           (Suggestions.remaining b0)
           (Suggestions.suggestions (Suggestions.build b)).
Proof.
  intros (_ & _ & _ & _ & Hf). unfold Suggestions.build.
  erewrite create_uniform; [exact Hf|]. eapply fresh_at_uniform, Hf.
Qed.

(** [merge] keeps that property of its inputs. *)
Lemma merge_fresh (command : string) (range : StringRange.t) (rem : string)
    (input : list (Suggestions.t Metadata)) :
  Forall (fun set => Suggestions.fresh_at range rem (Suggestions.suggestions set)) input ->
  Suggestions.fresh_at range rem (Suggestions.suggestions (Suggestions.merge command input)).
Proof.
  intros H.
  assert (Hc : Suggestions.fresh_at range rem (concat (map (fun set => Suggestions.suggestions set) input))).
  { induction H as [|set input Hs _ IH]; simpl; [constructor|].
    apply Forall_app. auto. }
  unfold Suggestions.merge.
  destruct input as [|a [|b rest]].
  - constructor.
  - now inversion H.
  - erewrite create_uniform; [exact Hc|]. eapply fresh_at_uniform, Hc.
Qed.

End SuggestionFacts.

Section CompletionFacts.
Context {Source T Value : Type}.
Variable env : Dispatch.Env Source T Value.

Abbreviation Meta := (Dispatch.SuggestionMetadata Source T).
Abbreviation CNode := (CommandNode.t Source T).

Lemma suggestAll_seeded (texts : list (string * option string))
    (b0 : Suggestions.SuggestionsBuilder Meta) :
  Suggestions.seeded b0 b0 ->
  Suggestions.seeded b0 (Dispatch.suggestAll texts b0).
Proof.
  intros H. unfold Dispatch.suggestAll. apply seeded_fold; [|exact H].
  intros b [text tooltip]. right. eauto.
Qed.

(** The inherited [ArgumentType.listSuggestions] only calls [suggest]. *)
Lemma inherited_listSuggestions_seeded (examples : list string)
    (b0 : Suggestions.SuggestionsBuilder Meta) :
  Suggestions.seeded b0 b0 ->
  Suggestions.fresh_at
    (StringRange.between (Suggestions.start b0)
                         (JsString.length (Suggestions.input b0)))
    (Suggestions.remaining b0)
    (Suggestions.suggestions (ArgumentTypeCore.listSuggestions examples b0)).
Proof.
  intros H. unfold ArgumentTypeCore.listSuggestions.
  apply build_seeded, seeded_fold; [|exact H].
  intros b x. destruct (JsString.startsWith x _); eauto.
Qed.

(** What one child contributes to the completions. *)
Lemma listSuggestions_fresh (node : CNode)
    (context : Context.CommandContext Source T Value)
    (truncatedInput : string) (start : Z) (got : Suggestions.t Meta) :
  Dispatch.suggestsThroughBuilderNode env node ->
  Dispatch.listSuggestions env node context
    (Suggestions.newBuilder truncatedInput start (Dispatch.metadataFor node))
  = inr got ->
  Suggestions.fresh_at
    (StringRange.between start (JsString.length truncatedInput))
    (JsString.substringFrom truncatedInput start)
    (Suggestions.suggestions got).
Proof.
  set (b0 := Suggestions.newBuilder truncatedInput start (Dispatch.metadataFor node)).
  pose proof (seeded_new truncatedInput start (Dispatch.metadataFor node)) as Hb0.
  fold b0 in Hb0.
  unfold Dispatch.suggestsThroughBuilderNode, Dispatch.listSuggestions.
  destruct (CommandNode.kind node) as [|names|name type [provider|]].
  - intros _ [= <-]. constructor.
  - intros _ [= <-]. unfold Dispatch.literalListSuggestions.
    apply (build_seeded (b0 := b0)), seeded_fold; [|exact Hb0].
    intros b x. destruct (JsString.startsWith _ _); eauto.
  - intros Hp E. destruct (Hp context b0) as [[e He]|[texts Ht]]; [congruence|].
    rewrite Ht in E. injection E as <-.
    apply (build_seeded (b0 := b0)), suggestAll_seeded, Hb0.
  - intros Hp E. destruct (Hp context b0) as [[e He]|[texts Ht]]; [congruence|].
    rewrite Ht in E. injection E as <-.
    apply (build_seeded (b0 := b0)), suggestAll_seeded, Hb0.
Qed.

Lemma collectSuggestions_fresh (fuel : nat) (children : list CNode)
    (source : Source) (context : Context.CommandContext Source T Value)
    (truncatedInput : string) (start : Z)
    (futures0 futures : list (Suggestions.t Meta)) :
  Forall (Dispatch.suggestsThroughBuilderNode env) children ->
  Forall (fun set =>
            Suggestions.fresh_at
              (StringRange.between start (JsString.length truncatedInput))
              (JsString.substringFrom truncatedInput start)
              (Suggestions.suggestions set)) futures0 ->
  Dispatch.collectSuggestions env fuel children source context truncatedInput
                              start futures0 = Some futures ->
  Forall (fun set =>
            Suggestions.fresh_at
              (StringRange.between start (JsString.length truncatedInput))
              (JsString.substringFrom truncatedInput start)
              (Suggestions.suggestions set)) futures.
Proof.
  intros Hch. revert futures0.
  induction Hch as [|node children Hn _ IH]; intros futures0 H0; simpl.
  - now intros [= <-].
  - destruct (CommandNode.checkRequirement fuel (Dispatch.resolve env) node source)
      as [failure|]; [|discriminate].
    cbn [mbind option_bind].
    destruct (Dispatch.hidden failure); [now apply IH|].
    apply IH. apply Forall_app. split; [exact H0|].
    constructor; [|constructor].
    destruct (Dispatch.listSuggestions env node context _) as [e|got] eqn:E.
    + constructor.
    + eapply listSuggestions_fresh; eauto.
Qed.

End CompletionFacts.

(** C7, as the code has it: [suggest] of the text that remains to be
    completed adds nothing; and when every child of the node before the
    cursor gets its suggestions from calls of [suggest] on the builder it is
    handed (literal nodes and the inherited [listSuggestions] do), no
    completion of the merged set equals what the user has typed at the
    cursor. *)
Theorem completions_exclude_typed_remainder {Source T Value : Type}
    (env : Dispatch.Env Source T Value) (fuel : nat)
    (parse : Context.ParseResults Source T Value) (cursor : Z) (source : Source)
    (nodeBeforeCursor : Context.SuggestionContext Source T)
    (result : Suggestions.t (Dispatch.SuggestionMetadata Source T)) :
  Context.findSuggestionContext (Context.context parse) cursor
  = Some nodeBeforeCursor ->
  Forall (Dispatch.suggestsThroughBuilderNode env)
         (CommandNode.children (Context.parent nodeBeforeCursor)) ->
  Dispatch.getCompletionSuggestions env fuel parse cursor source
  = Some (inr result) ->
  (forall (builder : Suggestions.SuggestionsBuilder (Dispatch.SuggestionMetadata Source T))
          (tooltip : option string),
      Suggestions.suggest builder (Suggestions.remaining builder) tooltip = builder)
  /\ forall s,
      In s (Suggestions.suggestions result) ->
      Suggestions.text s <> Dispatch.typedRemainder parse cursor nodeBeforeCursor.
Proof.
  intros Hfind Hch Hget. split; [intros; apply suggest_remaining|].
  unfold Dispatch.getCompletionSuggestions in Hget. rewrite Hfind in Hget.
  destruct (Dispatch.collectSuggestions _ _ _ _ _ _ _ _) as [futures|] eqn:Ec;
    [|discriminate].
  cbn [mbind option_bind] in Hget. injection Hget as <-.
  apply collectSuggestions_fresh in Ec; [|exact Hch|constructor].
  apply (merge_fresh (StringReader.string_ (Context.reader parse))) in Ec.
  intros s Hs. unfold Suggestions.fresh_at in Ec.
  rewrite Forall_forall in Ec. apply list_elem_of_In in Hs.
  now destruct (Ec s Hs).
Qed.

Lemma completions_exclude_typed_remainder_witness :
  (forall (builder : Suggestions.SuggestionsBuilder
                       (Dispatch.SuggestionMetadata Fixtures.Actor string))
          (tooltip : option string),
      Suggestions.suggest builder (Suggestions.remaining builder) tooltip = builder)
  /\ forall s,
      In s (Suggestions.suggestions
              (Fixtures.completions Fixtures.env0 Fixtures.parsedAOneI 5)) ->
      Suggestions.text s
      <> Dispatch.typedRemainder Fixtures.parsedAOneI 5
           (Fixtures.nodeBefore Fixtures.parsedAOneI 5).
Proof.
  apply (@completions_exclude_typed_remainder Fixtures.Actor string string
           Fixtures.env0 5 Fixtures.parsedAOneI 5 Fixtures.moderator
           (Fixtures.nodeBefore Fixtures.parsedAOneI 5)
           (Fixtures.completions Fixtures.env0 Fixtures.parsedAOneI 5)).
  - reflexivity.
  - vm_compute. repeat constructor.
  - reflexivity.
Defined.

(** The test ['should suggest completions'] of the repository: after
    ["a 1 i "] with the cursor at 5 the typed ["i"] is dropped and ["ii"]
    stays; with the cursor at 4 both are offered. *)
Example completions_after_a_1_i :
  Fixtures.texts
    (Dispatch.getCompletionSuggestions Fixtures.env0 5 Fixtures.parsedAOneI 5
                                       Fixtures.moderator) = ["ii"%string]
  /\ Fixtures.texts
       (Dispatch.getCompletionSuggestions Fixtures.env0 5 Fixtures.parsedAOneI 4
                                          Fixtures.moderator)
     = ["i"%string; "ii"%string].
Proof. split; reflexivity. Qed.

(** C7 as stated fails: the argument ["word"] of ["say"] has a provider of
    its own, which returns a suggestion it made itself; after ["say he"]
    with the cursor at the end, the completions contain ["he"], the very
    text typed at the cursor. *)
Lemma custom_provider_repeats_typed_remainder :
  Dispatch.typedRemainder Fixtures.parsedSayHe 6
    (Fixtures.nodeBefore Fixtures.parsedSayHe 6) = "he"%string
  /\ exists set s,
      Dispatch.getCompletionSuggestions Fixtures.env1 5 Fixtures.parsedSayHe 6
                                        Fixtures.moderator = Some (inr set)
      /\ In s (Suggestions.suggestions set)
      /\ Suggestions.text s = "he"%string.
Proof.
  split; [reflexivity|].
  eexists _, _. split; [reflexivity|]. split; [left; reflexivity|reflexivity].
Qed.


(** * Further properties of the code *)

(** ** [LiteralCommandNode._parse] *)

Section LiteralParseFacts.

Lemma tryLiteral_spec (reader : StringReader.t) (literal : string) :
  match LiteralCommandNode.tryLiteral reader literal with
  | Some e =>
      e = StringReader.cursor reader + JsString.length literal
      /\ Matching.literalAt reader literal
  | None => ~ Matching.literalAt reader literal
  end.
Proof.
  unfold LiteralCommandNode.tryLiteral, Matching.literalAt,
    StringReader.canRead, StringReader.canReadAnything, StringReader.canRead,
    StringReader.peek, JsString.eqb.
  cbn [StringReader.setCursor StringReader.cursor StringReader.string_].
  set (s := StringReader.string_ reader).
  set (c := StringReader.cursor reader).
  set (e := c + JsString.length literal).
  destruct (e <=? JsString.length s) eqn:E1.
  - apply Z.leb_le in E1.
    destruct (String.eqb (JsString.toLowerCase (JsString.substring s c e)) literal)
      eqn:E2.
    + apply String.eqb_eq in E2.
      destruct (e + 1 <=? JsString.length s) eqn:E3; cbn [negb orb].
      * apply Z.leb_le in E3.
        destruct (bool_decide (JsString.charAt s e = Some " "%char)) eqn:E4.
        -- apply bool_decide_eq_true in E4. auto.
        -- apply bool_decide_eq_false in E4.
           intros (_ & _ & [H|H]); [lia|contradiction].
      * apply Z.leb_gt in E3.
        split; [reflexivity|]. split; [exact E1|]. split; [exact E2|]. left. lia.
    + apply String.eqb_neq in E2. intros (_ & H & _). contradiction.
  - apply Z.leb_gt in E1. intros (H & _). lia.
Qed.

End LiteralParseFacts.

(** X1: [_parse] tries the names in order.  It returns [-1] and leaves the
    reader alone exactly when no name matches at the cursor; otherwise it
    returns the end of the first name that matches and moves the reader
    there. *)
Theorem _parse_first_match (literalNames : list string) (reader : StringReader.t) :
  0 <= StringReader.cursor reader ->
  (fst (LiteralCommandNode._parse literalNames reader) = -1
   /\ snd (LiteralCommandNode._parse literalNames reader) = reader
   /\ Forall (fun literal => ~ Matching.literalAt reader literal) literalNames)
  \/ (exists earlier literal later,
         literalNames = earlier ++ literal :: later
         /\ Forall (fun l => ~ Matching.literalAt reader l) earlier
         /\ Matching.literalAt reader literal
         /\ fst (LiteralCommandNode._parse literalNames reader)
            = StringReader.cursor reader + JsString.length literal
         /\ snd (LiteralCommandNode._parse literalNames reader)
            = StringReader.setCursor reader
                (StringReader.cursor reader + JsString.length literal)
         /\ -1 < fst (LiteralCommandNode._parse literalNames reader)).
Proof.
  intros Hc.
  induction literalNames as [|literal rest IH].
  - left. simpl. auto.
  - cbn [LiteralCommandNode._parse].
    pose proof (tryLiteral_spec reader literal) as Ht.
    destruct (LiteralCommandNode.tryLiteral reader literal) as [e|].
    + destruct Ht as [-> Hm]. right. exists [], literal, rest.
      cbn [fst snd]. pose proof (length_nonneg literal).
      repeat split; auto; try apply Hm. lia.
    + destruct IH as [(H1 & H2 & H3)|(earlier & l & later & -> & H1 & H2 & H3 & H4 & H5)].
      * left. repeat split; auto.
      * right. exists (literal :: earlier), l, later. repeat split; auto; apply H2.
Qed.

Lemma _parse_first_match_witness :
  (fst (LiteralCommandNode._parse ["teleport"; "tp"]%string (StringReader.new "tp home")) = -1
   /\ snd (LiteralCommandNode._parse ["teleport"; "tp"]%string (StringReader.new "tp home"))
      = StringReader.new "tp home"
   /\ Forall (fun literal => ~ Matching.literalAt (StringReader.new "tp home") literal)
             ["teleport"; "tp"]%string)
  \/ (exists earlier literal later,
         ["teleport"; "tp"]%string = earlier ++ literal :: later
         /\ Forall (fun l => ~ Matching.literalAt (StringReader.new "tp home") l) earlier
         /\ Matching.literalAt (StringReader.new "tp home") literal
         /\ fst (LiteralCommandNode._parse ["teleport"; "tp"]%string (StringReader.new "tp home"))
            = StringReader.cursor (StringReader.new "tp home") + JsString.length literal
         /\ snd (LiteralCommandNode._parse ["teleport"; "tp"]%string (StringReader.new "tp home"))
            = StringReader.setCursor (StringReader.new "tp home")
                (StringReader.cursor (StringReader.new "tp home") + JsString.length literal)
         /\ -1 < fst (LiteralCommandNode._parse ["teleport"; "tp"]%string (StringReader.new "tp home"))).
Proof.
  apply (@_parse_first_match ["teleport"; "tp"]%string (StringReader.new "tp home")).
  simpl. lia.
Defined.

(** ** [getRelevant] *)

Section FilterFacts.
Context {A : Type}.

Lemma filter_head (f : A -> bool) (l : list A) :
  match List.filter f l with
  | [] => Forall (fun x => f x = false) l
  | x :: _ =>
      exists pre post,
        l = pre ++ x :: post /\ Forall (fun y => f y = false) pre /\ f x = true
  end.
Proof.
  induction l as [|a l IH]; simpl; [constructor|].
  destruct (f a) eqn:E.
  - exists [], l. repeat split; auto.
  - destruct (List.filter f l) as [|x rest].
    + constructor; auto.
    + destruct IH as (pre & post & -> & Hpre & Hx).
      exists (a :: pre), post. repeat split; auto.
Qed.

End FilterFacts.

(** X2: [getRelevant] returns either the first literal child that
    recognises the next token of the input, alone, or, when no literal
    child does, all the argument children: once a literal recognises the
    token no argument child is tried. *)
Theorem getRelevant_literal_shadows_arguments {Source T : Type}
    (this : CommandNode.t Source T) (input : StringReader.t) :
  (Forall (fun l => Matching.recognises (Matching.nextToken input) l = false)
          (JsMap.values (CommandNode.literals this))
   /\ Dispatch.getRelevant this input = JsMap.values (CommandNode.arguments this))
  \/ (exists earlier literal later,
         JsMap.values (CommandNode.literals this) = earlier ++ literal :: later
         /\ Forall (fun l => Matching.recognises (Matching.nextToken input) l = false)
                   earlier
         /\ Matching.recognises (Matching.nextToken input) literal = true
         /\ Dispatch.getRelevant this input = [literal]).
Proof.
  unfold Dispatch.getRelevant.
  destruct (0 <? JsMap.size (CommandNode.literals this)) eqn:E.
  - pose proof (filter_head (Matching.recognises (Matching.nextToken input))
                  (JsMap.values (CommandNode.literals this))) as H.
    unfold Matching.recognises, Matching.nextToken in *.
    destruct (List.filter _ (JsMap.values (CommandNode.literals this))) as [|l rest].
    + left. auto.
    + right. destruct H as (pre & post & H1 & H2 & H3). exists pre, l, post. auto.
  - left. split; [|reflexivity].
    apply Z.ltb_ge in E. unfold JsMap.size in E.
    destruct (CommandNode.literals this); [constructor|simpl in E; lia].
Qed.

(** ** [requireAnd] and [normalizeRequirement] *)

(** X3: on a list of requirements whose nested arrays can be normalised,
    [requireAnd] returns a requirement that permits a source exactly when
    every element permits it and otherwise returns the failure of the first
    element that fails. *)
Theorem requireAnd_first_failure {Source T : Type}
    (h : Requirement.arrays Source T) (d : nat)
    (rs : list (Requirement.Requirement Source T)) :
  Forall (Requirement.depthBelow h d) rs ->
  exists q ns,
    Requirement.requireAnd (S d) h rs = Some q
    /\ mapM (fun r => Requirement.normalizeRequirement (S d) h (Some r)) rs = Some ns
    /\ forall s : Source,
        (q s = None <-> Forall (fun n => n s = None) ns)
        /\ (forall failure,
              q s = Some failure <->
              exists pre n post,
                ns = pre ++ n :: post
                /\ Forall (fun m => m s = None) pre
                /\ n s = Some failure).
Proof.
  intros Hrs.
  assert (Hm : is_Some
            (mapM (fun r => Requirement.normalizeRequirement (S d) h (Some r)) rs)).
  { apply mapM_is_Some. eapply Forall_impl; [exact Hrs|].
    intros x Hx. now apply normalizeRequirement_returns. }
  destruct Hm as [ns Hns].
  exists (Requirement.firstFailure ns), ns.
  unfold Requirement.requireAnd. rewrite Hns.
  split; [reflexivity|]. split; [reflexivity|].
  intros s. split; [apply firstFailure_none|]. intros failure. apply firstFailure_some.
Qed.

Lemma requireAnd_first_failure_witness :
  exists q ns,
    Requirement.requireAnd 2 Fixtures.common
      [Requirement.ReqArr 0%nat; Requirement.ReqFn Fixtures.canKick] = Some q
    /\ mapM (fun r => Requirement.normalizeRequirement 2 Fixtures.common (Some r))
         [Requirement.ReqArr 0%nat; Requirement.ReqFn Fixtures.canKick] = Some ns
    /\ forall s : Fixtures.Actor,
        (q s = None <-> Forall (fun n => n s = None) ns)
        /\ (forall failure,
              q s = Some failure <->
              exists pre n post,
                ns = pre ++ n :: post
                /\ Forall (fun m => m s = None) pre
                /\ n s = Some failure).
Proof.
  apply (@requireAnd_first_failure Fixtures.Actor string Fixtures.common 1%nat
           [Requirement.ReqArr 0%nat; Requirement.ReqFn Fixtures.canKick]).
  constructor.
  - apply Requirement.depth_arr with (rs := [Requirement.ReqFn Fixtures.isAdmin]).
    + reflexivity.
    + repeat constructor.
  - repeat constructor.
Defined.

Section CyclicArrays.
Context {Source T : Type}.

(** An array that holds itself is never normalised, whatever the fuel. *)
Lemma normalizeRequirement_self_reference (h : Requirement.arrays Source T)
    (l : Requirement.loc) (rs : list (Requirement.Requirement Source T))
    (fuel : nat) :
  h !! l = Some rs ->
  In (Requirement.ReqArr l) rs ->
  Requirement.normalizeRequirement fuel h (Some (Requirement.ReqArr l)) = None.
Proof.
  intros Hl Hin. induction fuel as [|fuel IH]; [reflexivity|].
  rewrite normalizeRequirement_array, Hl. cbn [mbind option_bind].
  unfold Requirement.requireAnd.
  destruct (mapM (fun r => Requirement.normalizeRequirement fuel h (Some r)) rs)
    as [ns|] eqn:E; [|reflexivity].
  exfalso.
  assert (Hs : is_Some
            (mapM (fun r => Requirement.normalizeRequirement fuel h (Some r)) rs))
    by (rewrite E; eauto).
  apply mapM_is_Some in Hs. rewrite Forall_forall in Hs.
  apply list_elem_of_In in Hin. specialize (Hs _ Hin).
  cbn in Hs. rewrite IH in Hs. now destruct Hs.
Qed.

Lemma requires_first (b : ArgumentBuilder.t Source T)
    (r : Requirement.Requirement Source T) (h : Requirement.arrays Source T) :
  ArgumentBuilder.requirement b = None ->
  ArgumentBuilder.requires b r h
  = (ArgumentBuilder.withRequirement b (Some r), h).
Proof. intros Hb. unfold ArgumentBuilder.requires. now rewrite Hb. Qed.

End CyclicArrays.

(** X4: a builder that is given the same array twice, as in
    [b.requires(a).requires(a)], pushes the array into itself, and [build]
    does not return on it, however long the recursion is allowed to run. *)
Theorem requires_same_array_twice_never_builds {Source T : Type}
    (localeCompare : string -> string -> Z)
    (b : ArgumentBuilder.t Source T) (h : Requirement.arrays Source T)
    (l : Requirement.loc) (held : list (Requirement.Requirement Source T))
    (fuel : nat) :
  ArgumentBuilder.requirement b = None ->
  h !! l = Some held ->
  ArgumentBuilder.build localeCompare fuel
    (snd (ArgumentBuilder.requiresAll b [Requirement.ReqArr l; Requirement.ReqArr l] h))
    (fst (ArgumentBuilder.requiresAll b [Requirement.ReqArr l; Requirement.ReqArr l] h))
  = None.
Proof.
  intros Hb Hl.
  unfold ArgumentBuilder.requiresAll. cbn [fold_left].
  rewrite requires_first by exact Hb.
  rewrite requires_held_array with (l := l) (held := held)
    by (reflexivity || assumption).
  cbn [fst snd].
  unfold ArgumentBuilder.build. cbn [ArgumentBuilder.requirement
    ArgumentBuilder.withRequirement].
  rewrite normalizeRequirement_self_reference
    with (rs := held ++ [Requirement.ReqArr l]); [reflexivity| |].
  - apply list_lookup_insert_eq. eapply lookup_lt_Some, Hl.
  - apply in_or_app. right. now left.
Qed.

Lemma requires_same_array_twice_never_builds_witness :
  ArgumentBuilder.build Fixtures.byteCompare 7
    (snd (ArgumentBuilder.requiresAll Fixtures.ban
            [Requirement.ReqArr 0%nat; Requirement.ReqArr 0%nat] Fixtures.common))
    (fst (ArgumentBuilder.requiresAll Fixtures.ban
            [Requirement.ReqArr 0%nat; Requirement.ReqArr 0%nat] Fixtures.common))
  = None.
Proof.
  apply (@requires_same_array_twice_never_builds Fixtures.Actor string
           Fixtures.byteCompare Fixtures.ban Fixtures.common 0%nat
           [Requirement.ReqFn Fixtures.isAdmin] 7%nat).
  - reflexivity.
  - reflexivity.
Defined.

(** ** [checkRequirement] *)

(** X5: whenever [checkRequirement] returns, it returns what the node's own
    requirement returns for the source (permitted when the node has none):
    neither the executor, nor the redirect target, nor the children change
    the answer. *)
Theorem checkRequirement_is_own_requirement {Source T : Type} (fuel : nat)
    (resolve : NodeRef -> CommandNode.t Source T) (this : CommandNode.t Source T)
    (source : Source) (answer : option (Requirement.RequirementFailure T)) :
  CommandNode.checkRequirement fuel resolve this source = Some answer ->
  answer = match CommandNode.requirement this with
           | Some requirement => requirement source
           | None => None
           end.
Proof.
  destruct fuel as [|fuel]; [discriminate|].
  cbn [CommandNode.checkRequirement].
  destruct (match CommandNode.requirement this with
            | Some r => r source
            | None => None
            end) as [failure|].
  - now intros [= <-].
  - destruct (CommandNode.command this); [now intros [= <-]|].
    bind_cases; intros [= <-]; reflexivity.
Qed.

Lemma checkRequirement_is_own_requirement_witness :
  @None (Requirement.RequirementFailure string)
  = match CommandNode.requirement Fixtures.aNode with
    | Some requirement => requirement Fixtures.moderator
    | None => None
    end.
Proof.
  apply (@checkRequirement_is_own_requirement Fixtures.Actor string 2%nat
           (Dispatch.resolve Fixtures.env0) Fixtures.aNode Fixtures.moderator None).
  reflexivity.
Defined.

(** ** [addChild] and [removeChild] *)

Section InsertionFacts.
Context {A : Type}.
Variable compareFn : A -> A -> Z.

Lemma insert_permutation (x : A) (l : list A) :
  Permutation (JsArray.insert compareFn x l) (x :: l).
Proof.
  induction l as [|y l IH]; simpl; [reflexivity|].
  destruct (compareFn x y <=? 0); [reflexivity|].
  rewrite IH. apply perm_swap.
Qed.

Lemma sort_permutation (l : list A) : Permutation (JsArray.sort compareFn l) l.
Proof.
  induction l as [|x l IH]; [reflexivity|].
  change (JsArray.sort compareFn (x :: l))
    with (JsArray.insert compareFn x (JsArray.sort compareFn l)).
  rewrite insert_permutation. now constructor.
Qed.

End InsertionFacts.

Section KeyFacts.
Context {V : Type}.

Lemma get_in (m : JsMap.t V) (k : string) (v : V) :
  JsMap.get m k = Some v -> In (k, v) m.
Proof.
  induction m as [|[k' v'] m IH]; simpl; [discriminate|].
  destruct (String.eqb k k') eqn:E.
  - apply String.eqb_eq in E. intros [= ->]. subst. now left.
  - intros H. right. auto.
Qed.

Lemma in_get (m : JsMap.t V) (k : string) (v : V) :
  NoDup (map fst m) -> In (k, v) m -> JsMap.get m k = Some v.
Proof.
  induction m as [|[k' v'] m IH]; simpl; [tauto|].
  intros Hnd [H|H].
  - injection H as -> ->. now rewrite String.eqb_refl.
  - inversion Hnd as [|? ? Hnotin Hnd']; subst.
    destruct (String.eqb k k') eqn:E.
    + apply String.eqb_eq in E. subst. exfalso. apply Hnotin.
      apply list_elem_of_In. change k' with (fst (k', v)). now apply in_map.
    + auto.
Qed.

Lemma get_permutation (m m' : JsMap.t V) (k : string) :
  NoDup (map fst m) -> Permutation m m' -> JsMap.get m' k = JsMap.get m k.
Proof.
  intros Hnd Hp.
  assert (Hnd' : NoDup (map fst m')).
  { apply (NoDup_Permutation_proper (map fst m) (map fst m'));
      [now apply Permutation_map | exact Hnd]. }
  destruct (JsMap.get m k) as [v|] eqn:E.
  - apply in_get; [exact Hnd'|]. eapply Permutation_in; [exact Hp|].
    now apply get_in.
  - destruct (JsMap.get m' k) as [v|] eqn:E'; [|reflexivity].
    apply get_in in E'. apply (Permutation_in _ (Permutation_sym Hp)) in E'.
    apply in_get in E'; [congruence|exact Hnd].
Qed.

Lemma get_set_same (m : JsMap.t V) (k : string) (v : V) :
  JsMap.get (JsMap.set m k v) k = Some v.
Proof.
  induction m as [|[k' v'] m IH]; simpl.
  - now rewrite String.eqb_refl.
  - destruct (String.eqb k k') eqn:E; simpl; rewrite E; auto.
Qed.

Lemma get_set_other (m : JsMap.t V) (k k' : string) (v : V) :
  k' <> k -> JsMap.get (JsMap.set m k v) k' = JsMap.get m k'.
Proof.
  intros Hne. induction m as [|[k0 v0] m IH]; simpl.
  - apply String.eqb_neq in Hne. now rewrite Hne.
  - destruct (String.eqb k k0) eqn:E; simpl.
    + apply String.eqb_eq in E. subst k0.
      apply String.eqb_neq in Hne. now rewrite Hne.
    + now rewrite IH.
Qed.

Lemma get_replace_same (m : JsMap.t V) (k : string) (v old : V) :
  JsMap.get m k = Some old -> JsMap.get (JsMap.replace m k v) k = Some v.
Proof.
  induction m as [|[k' v'] m IH]; simpl; [discriminate|].
  destruct (String.eqb k k') eqn:E; simpl; rewrite E; auto.
Qed.

Lemma get_replace_other (m : JsMap.t V) (k k' : string) (v : V) :
  k' <> k -> JsMap.get (JsMap.replace m k v) k' = JsMap.get m k'.
Proof.
  intros Hne. induction m as [|[k0 v0] m IH]; simpl; [reflexivity|].
  destruct (String.eqb k k0) eqn:E; simpl.
  - apply String.eqb_eq in E. subst k0.
    apply String.eqb_neq in Hne. now rewrite Hne.
  - now rewrite IH.
Qed.

Lemma keys_set_absent (m : JsMap.t V) (k : string) (v : V) :
  JsMap.get m k = None -> map fst (JsMap.set m k v) = map fst m ++ [k].
Proof.
  induction m as [|[k' v'] m IH]; simpl; [reflexivity|].
  destruct (String.eqb k k'); [discriminate|].
  intros H. simpl. now rewrite IH.
Qed.

Lemma keys_replace_same (m : JsMap.t V) (k : string) (v : V) :
  map fst (JsMap.replace m k v) = map fst m.
Proof.
  induction m as [|[k' v'] m IH]; simpl; [reflexivity|].
  destruct (String.eqb k k'); simpl; congruence.
Qed.

Lemma get_none_keys (m : JsMap.t V) (k : string) :
  JsMap.get m k = None -> ~ In k (map fst m).
Proof.
  induction m as [|[k' v'] m IH]; simpl; [tauto|].
  destruct (String.eqb k k') eqn:E; [discriminate|].
  apply String.eqb_neq in E. intros H [H'|H']; [congruence|]. now apply IH.
Qed.

Lemma get_delete_other (m : JsMap.t V) (k k' : string) :
  k' <> k -> JsMap.get (JsMap.delete m k) k' = JsMap.get m k'.
Proof.
  intros Hne. induction m as [|[k0 v0] m IH]; simpl; [reflexivity|].
  destruct (String.eqb k k0) eqn:E; simpl.
  - apply String.eqb_eq in E. subst k0.
    apply String.eqb_neq in Hne. now rewrite Hne.
  - now rewrite IH.
Qed.

Lemma keys_delete_subset (m : JsMap.t V) (k k' : string) :
  In k' (map fst (JsMap.delete m k)) -> In k' (map fst m).
Proof.
  induction m as [|[k0 v0] m IH]; simpl; [tauto|].
  destruct (String.eqb k k0); simpl; tauto.
Qed.

Lemma delete_unique (m : JsMap.t V) (k : string) :
  NoDup (map fst m) ->
  NoDup (map fst (JsMap.delete m k)) /\ JsMap.get (JsMap.delete m k) k = None.
Proof.
  induction m as [|[k0 v0] m IH]; simpl; [auto using NoDup_nil_2|].
  intros Hnd. inversion Hnd as [|? ? Hnotin Hnd']; subst.
  destruct (String.eqb k k0) eqn:E; simpl.
  - apply String.eqb_eq in E. subst k0. split; [exact Hnd'|].
    destruct (JsMap.get m k) eqn:G; [|reflexivity].
    exfalso. apply Hnotin. apply list_elem_of_In.
    apply get_in in G. change k with (fst (k, v)). now apply in_map.
  - rewrite E. destruct (IH Hnd') as [H1 H2]. split; [|exact H2].
    constructor; [|exact H1].
    intros Hin. apply Hnotin. apply list_elem_of_In.
    apply list_elem_of_In in Hin. eapply keys_delete_subset, Hin.
Qed.

End KeyFacts.

Section PartitionFacts.
Context {Source T : Type}.
Variable localeCompare : string -> string -> Z.

Lemma insert_argument (x : string * CommandNode.t Source T)
    (ls os : list (string * CommandNode.t Source T)) :
  CommandNode.isLiteral (snd x) = false ->
  Forall (fun e => CommandNode.isLiteral (snd e) = true) ls ->
  JsArray.insert (CommandNode.compareEntries localeCompare) x (ls ++ os)
  = ls ++ JsArray.insert (CommandNode.compareEntries localeCompare) x os.
Proof.
  intros Hx Hls. induction Hls as [|y ls Hy Hls IH]; [reflexivity|].
  cbn [app JsArray.insert].
  unfold CommandNode.compareEntries at 1, CommandNode.compareTo.
  rewrite Hx, Hy. cbn. now rewrite IH.
Qed.

Lemma insert_literal (x : string * CommandNode.t Source T)
    (ls os : list (string * CommandNode.t Source T)) :
  CommandNode.isLiteral (snd x) = true ->
  Forall (fun e => CommandNode.isLiteral (snd e) = false) os ->
  JsArray.insert (CommandNode.compareEntries localeCompare) x (ls ++ os)
  = JsArray.insert (CommandNode.compareEntries localeCompare) x ls ++ os.
Proof.
  intros Hx Hos. induction ls as [|y ls IH].
  - destruct Hos as [|z os Hz Hos]; [reflexivity|].
    cbn [app JsArray.insert].
    unfold CommandNode.compareEntries, CommandNode.compareTo.
    rewrite Hx, Hz. reflexivity.
  - cbn [app JsArray.insert].
    destruct (CommandNode.compareEntries localeCompare x y <=? 0); [reflexivity|].
    now rewrite IH.
Qed.

(** Whatever [localeCompare] answers, the sort leaves the literal nodes
    before all the others. *)
Lemma sort_partition (l : list (string * CommandNode.t Source T)) :
  exists ls os,
    JsArray.sort (CommandNode.compareEntries localeCompare) l = ls ++ os
    /\ Forall (fun e => CommandNode.isLiteral (snd e) = true) ls
    /\ Forall (fun e => CommandNode.isLiteral (snd e) = false) os.
Proof.
  induction l as [|x l (ls & os & E & Hls & Hos)].
  - exists [], []. repeat split; constructor.
  - change (JsArray.sort (CommandNode.compareEntries localeCompare) (x :: l))
      with (JsArray.insert (CommandNode.compareEntries localeCompare) x
              (JsArray.sort (CommandNode.compareEntries localeCompare) l)).
    rewrite E.
    destruct (CommandNode.isLiteral (snd x)) eqn:Hx.
    + rewrite insert_literal by assumption.
      exists (JsArray.insert (CommandNode.compareEntries localeCompare) x ls), os.
      split; [reflexivity|]. split; [|exact Hos].
      eapply Permutation_Forall;
        [apply Permutation_sym, insert_permutation|]. now constructor.
    + rewrite insert_argument by assumption.
      exists ls, (JsArray.insert (CommandNode.compareEntries localeCompare) x os).
      split; [reflexivity|]. split; [exact Hls|].
      eapply Permutation_Forall;
        [apply Permutation_sym, insert_permutation|]. now constructor.
Qed.

End PartitionFacts.

(** X6: after [addChild] the children of the parent are listed with every
    literal node before every other node, wherever the new node was added
    and whatever [localeCompare] answers. *)
Theorem addChild_puts_literals_first {Source T : Type}
    (localeCompare : string -> string -> Z)
    (parent node parent' : CommandNode.t Source T) :
  CommandNode.addChild localeCompare parent node = Some parent' ->
  TreeOrder.literalsFirst (CommandNode.children parent').
Proof.
  intros Hadd.
  assert (H : exists updated,
             parent' = CommandNode.sortChildren localeCompare updated).
  { destruct (addChild_shape _ _ _ Hadd) as [(child & child2 & ->)| ->]; eauto. }
  destruct H as (updated & ->).
  unfold CommandNode.children, CommandNode.sortChildren, CommandNode.withMaps,
    JsMap.values.
  cbn [CommandNode.childrenMap].
  destruct (sort_partition localeCompare (CommandNode.childrenMap updated))
    as (ls & os & -> & Hls & Hos).
  exists (map snd ls), (map snd os). rewrite map_app.
  split; [reflexivity|]. split; apply Forall_map; assumption.
Qed.

Lemma addChild_puts_literals_first_witness :
  TreeOrder.literalsFirst (CommandNode.children Fixtures.sayNow).
Proof.
  apply (@addChild_puts_literals_first Fixtures.Actor string Fixtures.byteCompare
           Fixtures.sayNode Fixtures.nowNode Fixtures.sayNow).
  reflexivity.
Defined.

Section KeyFacts2.
Context {V : Type}.

Lemma keys_of_set (m : JsMap.t V) (k' : string) (v : V) (k : string) :
  In k (map fst (JsMap.set m k' v)) <-> k = k' \/ In k (map fst m).
Proof.
  induction m as [|[k0 v0] m IH]; simpl; [intuition|].
  destruct (String.eqb k' k0) eqn:E; simpl.
  - apply String.eqb_eq in E. subst. intuition.
  - rewrite IH. intuition.
Qed.

Lemma keys_of_sort (compareFn : string * V -> string * V -> Z)
    (l : list (string * V)) (k : string) :
  In k (map fst (JsArray.sort compareFn l)) <-> In k (map fst l).
Proof.
  split; apply Permutation_in, Permutation_map;
    [|apply Permutation_sym]; apply sort_permutation.
Qed.

End KeyFacts2.

Section MergeFacts.
Context {Source T : Type}.
Variable localeCompare : string -> string -> Z.

(** The two ways [addChild] returns, with what it merges. *)
Lemma addChild_cases (parent node parent' : CommandNode.t Source T) :
  CommandNode.addChild localeCompare parent node = Some parent' ->
  CommandNode.kind node <> CommandNode.Root
  /\ match CommandNode.getChild parent (CommandNode.name node) with
     | Some child =>
         exists child2,
           fold_left
             (fun acc '(_, grandchild) =>
                c ← acc; CommandNode.addChild localeCompare c grandchild)
             (CommandNode.childrenMap node)
             (Some match CommandNode.command node with
                   | Some c => CommandNode.withCommand child (Some c)
                   | None => child
                   end) = Some child2
           /\ parent' = CommandNode.sortChildren localeCompare
                          (CommandNode.replaceChild parent (CommandNode.name node)
                                                    child child2)
     | None =>
         parent' = CommandNode.sortChildren localeCompare
                     (CommandNode.insertChild parent node)
     end.
Proof.
  destruct node as [k c cd r rd md cm ls ar].
  cbn [CommandNode.addChild CommandNode.kind CommandNode.command
       CommandNode.childrenMap].
  destruct k as [|names|name type custom]; [discriminate| |].
  - destruct (CommandNode.getChild parent _) as [child|];
      cbn [mbind option_bind].
    + destruct (fold_left _ _ _) as [child2|] eqn:E; cbn [mbind option_bind];
        [|discriminate].
      intros [= <-]. split; [discriminate|]. eauto.
    + intros [= <-]. split; [discriminate|reflexivity].
  - destruct (CommandNode.getChild parent _) as [child|];
      cbn [mbind option_bind].
    + destruct (fold_left _ _ _) as [child2|] eqn:E; cbn [mbind option_bind];
        [|discriminate].
      intros [= <-]. split; [discriminate|]. eauto.
    + intros [= <-]. split; [discriminate|reflexivity].
Qed.

Lemma addChild_ownFields (parent node parent' : CommandNode.t Source T) :
  CommandNode.addChild localeCompare parent node = Some parent' ->
  TreeOrder.ownFields parent' = TreeOrder.ownFields parent.
Proof.
  intros H.
  destruct (addChild_shape _ _ _ H) as [(child & child2 & ->)| ->]; reflexivity.
Qed.

Lemma addChild_keys (parent node parent' : CommandNode.t Source T) (k : string) :
  CommandNode.addChild localeCompare parent node = Some parent' ->
  In k (map fst (CommandNode.childrenMap parent'))
  <-> k = CommandNode.name node \/ In k (map fst (CommandNode.childrenMap parent)).
Proof.
  intros H. destruct (addChild_cases _ _ H) as [_ Hc].
  unfold CommandNode.getChild in Hc.
  destruct (JsMap.get (CommandNode.childrenMap parent) (CommandNode.name node))
    as [child|] eqn:G.
  - destruct Hc as (child2 & _ & ->).
    cbn [CommandNode.sortChildren CommandNode.replaceChild CommandNode.withMaps
         CommandNode.childrenMap].
    rewrite keys_of_sort, keys_replace.
    assert (In (CommandNode.name node) (map fst (CommandNode.childrenMap parent)))
      by (apply get_keys; congruence).
    split; [auto|]. intros [->|]; auto.
  - subst parent'.
    cbn [CommandNode.sortChildren CommandNode.insertChild CommandNode.withMaps
         CommandNode.childrenMap].
    now rewrite keys_of_sort, keys_of_set.
Qed.

(** The loop of the merge touches the maps of the child only, and leaves
    every child of the new node under the child. *)
Lemma merge_loop (l : list (string * CommandNode.t Source T))
    (start result : CommandNode.t Source T) :
  fold_left
    (fun acc '(_, grandchild) =>
       c ← acc; CommandNode.addChild localeCompare c grandchild)
    l (Some start) = Some result ->
  TreeOrder.ownFields result = TreeOrder.ownFields start
  /\ (forall k, In k (map fst (CommandNode.childrenMap start)) ->
                In k (map fst (CommandNode.childrenMap result)))
  /\ Forall (fun e => In (CommandNode.name (snd e))
                         (map fst (CommandNode.childrenMap result))) l.
Proof.
  revert start. induction l as [|[key g] l IH]; intros start; cbn [fold_left].
  - intros [= <-]. repeat split; auto.
  - cbn [mbind option_bind].
    destruct (CommandNode.addChild localeCompare start g) as [next|] eqn:E.
    + intros H. destruct (IH _ H) as (H1 & H2 & H3).
      split; [rewrite H1; eapply addChild_ownFields, E|].
      split.
      * intros k Hk. apply H2. apply (addChild_keys _ _ k E). now right.
      * constructor; [|exact H3]. cbn [snd].
        apply H2. apply (addChild_keys _ _ _ E). now left.
    + intros H. exfalso. clear -H.
      induction l as [|[? ?] l IHl]; cbn in H; [discriminate|auto].
Qed.

(** Lookups in the parent after [addChild], for a parent whose map holds
    each key once. *)
Lemma addChild_lookup (parent node parent' : CommandNode.t Source T) :
  TreeOrder.uniqueKeys parent ->
  CommandNode.addChild localeCompare parent node = Some parent' ->
  TreeOrder.uniqueKeys parent'
  /\ (forall k, k <> CommandNode.name node ->
                CommandNode.getChild parent' k = CommandNode.getChild parent k)
  /\ match CommandNode.getChild parent (CommandNode.name node) with
     | Some child =>
         exists child2,
           fold_left
             (fun acc '(_, grandchild) =>
                c ← acc; CommandNode.addChild localeCompare c grandchild)
             (CommandNode.childrenMap node)
             (Some match CommandNode.command node with
                   | Some c => CommandNode.withCommand child (Some c)
                   | None => child
                   end) = Some child2
           /\ CommandNode.getChild parent' (CommandNode.name node) = Some child2
     | None => CommandNode.getChild parent' (CommandNode.name node) = Some node
     end.
Proof.
  unfold TreeOrder.uniqueKeys. intros Hnd H.
  destruct (addChild_cases _ _ H) as [_ Hc].
  unfold CommandNode.getChild in *.
  destruct (JsMap.get (CommandNode.childrenMap parent) (CommandNode.name node))
    as [child|] eqn:G.
  - destruct Hc as (child2 & Hfold & ->).
    cbn [CommandNode.sortChildren CommandNode.replaceChild CommandNode.withMaps
         CommandNode.childrenMap].
    assert (Hnd' : NoDup (map fst (JsMap.replace (CommandNode.childrenMap parent)
                                     (CommandNode.name node) child2)))
      by now rewrite keys_replace.
    assert (Hget : forall k,
               JsMap.get (JsArray.sort (CommandNode.compareEntries localeCompare)
                            (JsMap.replace (CommandNode.childrenMap parent)
                               (CommandNode.name node) child2)) k
               = JsMap.get (JsMap.replace (CommandNode.childrenMap parent)
                              (CommandNode.name node) child2) k).
    { intros k. apply get_permutation; [exact Hnd'|].
      apply Permutation_sym, sort_permutation. }
    split; [|split].
    + eapply NoDup_Permutation_proper; [|exact Hnd'].
      apply Permutation_map, sort_permutation.
    + intros k Hk. rewrite Hget. now apply get_replace_other.
    + exists child2. split; [exact Hfold|].
      rewrite Hget. eapply get_replace_same, G.
  - subst parent'.
    cbn [CommandNode.sortChildren CommandNode.insertChild CommandNode.withMaps
         CommandNode.childrenMap].
    assert (Hnd' : NoDup (map fst (JsMap.set (CommandNode.childrenMap parent)
                                     (CommandNode.name node) node))).
    { rewrite keys_set_absent by exact G.
      apply NoDup_app. split; [exact Hnd|]. split; [|apply NoDup_singleton].
      intros x Hx Hx'. apply list_elem_of_In in Hx.
      apply list_elem_of_singleton in Hx'. subst x.
      now apply get_none_keys in G. }
    assert (Hget : forall k,
               JsMap.get (JsArray.sort (CommandNode.compareEntries localeCompare)
                            (JsMap.set (CommandNode.childrenMap parent)
                               (CommandNode.name node) node)) k
               = JsMap.get (JsMap.set (CommandNode.childrenMap parent)
                              (CommandNode.name node) node) k).
    { intros k. apply get_permutation; [exact Hnd'|].
      apply Permutation_sym, sort_permutation. }
    split; [|split].
    + eapply NoDup_Permutation_proper; [|exact Hnd'].
      apply Permutation_map, sort_permutation.
    + intros k Hk. rewrite Hget. now apply get_set_other.
    + rewrite Hget. apply get_set_same.
Qed.

End MergeFacts.

(** X7: in a parent that holds each name once, [addChild] changes the
    child found under the name of the new node and no other.  Where the
    name was free, the new node is found under it afterwards.  Where a
    child was there, it stays, with its class, requirement, redirect,
    modifier and description: of the new node it takes the executor, when
    the new node has one, and the children, each of which is found under
    the child afterwards. *)
Theorem addChild_merges_into_existing_child {Source T : Type}
    (localeCompare : string -> string -> Z)
    (parent node parent' : CommandNode.t Source T) :
  TreeOrder.uniqueKeys parent ->
  CommandNode.addChild localeCompare parent node = Some parent' ->
  TreeOrder.uniqueKeys parent'
  /\ (forall k, k <> CommandNode.name node ->
                CommandNode.getChild parent' k = CommandNode.getChild parent k)
  /\ match CommandNode.getChild parent (CommandNode.name node) with
     | None => CommandNode.getChild parent' (CommandNode.name node) = Some node
     | Some child =>
         exists merged,
           CommandNode.getChild parent' (CommandNode.name node) = Some merged
           /\ CommandNode.kind merged = CommandNode.kind child
           /\ CommandNode.requirement merged = CommandNode.requirement child
           /\ CommandNode.redirect merged = CommandNode.redirect child
           /\ CommandNode.modifier merged = CommandNode.modifier child
           /\ CommandNode.commandDescription merged
              = CommandNode.commandDescription child
           /\ CommandNode.command merged
              = match CommandNode.command node with
                | Some c => Some c
                | None => CommandNode.command child
                end
           /\ Forall (fun grandchild =>
                        CommandNode.getChild merged (CommandNode.name grandchild)
                        <> None)
                     (CommandNode.children node)
     end.
Proof.
  intros Hnd H.
  destruct (@addChild_lookup _ _ localeCompare _ _ _ Hnd H) as (H1 & H2 & H3).
  split; [exact H1|]. split; [exact H2|].
  destruct (CommandNode.getChild parent (CommandNode.name node)) as [child|];
    [|exact H3].
  destruct H3 as (merged & Hfold & Hget).
  exists merged. split; [exact Hget|].
  destruct (@merge_loop _ _ localeCompare _ _ _ Hfold) as (Hown & _ & Hall).
  unfold TreeOrder.ownFields in Hown.
  assert (Hown' :
    (CommandNode.kind merged, CommandNode.command merged,
     CommandNode.commandDescription merged, CommandNode.requirement merged,
     CommandNode.redirect merged, CommandNode.modifier merged)
    = (CommandNode.kind child,
       match CommandNode.command node with
       | Some c => Some c
       | None => CommandNode.command child
       end,
       CommandNode.commandDescription child, CommandNode.requirement child,
       CommandNode.redirect child, CommandNode.modifier child)).
  { rewrite Hown. destruct (CommandNode.command node); reflexivity. }
  injection Hown' as -> -> -> -> -> ->.
  repeat (split; [reflexivity|]).
  unfold CommandNode.children, JsMap.values. apply Forall_map.
  eapply Forall_impl; [exact Hall|].
  intros e He. unfold CommandNode.getChild. now apply get_keys.
Qed.

Lemma addChild_merges_into_existing_child_witness :
  TreeOrder.uniqueKeys (CommandDispatcher.root Fixtures.afterAAgain)
  /\ (forall k, k <> CommandNode.name Fixtures.aNode ->
                CommandNode.getChild (CommandDispatcher.root Fixtures.afterAAgain) k
                = CommandNode.getChild (CommandDispatcher.root Fixtures.afterA) k)
  /\ match CommandNode.getChild (CommandDispatcher.root Fixtures.afterA)
             (CommandNode.name Fixtures.aNode) with
     | None =>
         CommandNode.getChild (CommandDispatcher.root Fixtures.afterAAgain) (CommandNode.name Fixtures.aNode)
         = Some Fixtures.aNode
     | Some child =>
         exists merged,
           CommandNode.getChild (CommandDispatcher.root Fixtures.afterAAgain) (CommandNode.name Fixtures.aNode)
           = Some merged
           /\ CommandNode.kind merged = CommandNode.kind child
           /\ CommandNode.requirement merged = CommandNode.requirement child
           /\ CommandNode.redirect merged = CommandNode.redirect child
           /\ CommandNode.modifier merged = CommandNode.modifier child
           /\ CommandNode.commandDescription merged
              = CommandNode.commandDescription child
           /\ CommandNode.command merged
              = match CommandNode.command Fixtures.aNode with
                | Some c => Some c
                | None => CommandNode.command child
                end
           /\ Forall (fun grandchild =>
                        CommandNode.getChild merged (CommandNode.name grandchild)
                        <> None)
                     (CommandNode.children Fixtures.aNode)
     end.
Proof.
  apply (@addChild_merges_into_existing_child Fixtures.Actor string
           Fixtures.byteCompare (CommandDispatcher.root Fixtures.afterA) Fixtures.aNode (CommandDispatcher.root Fixtures.afterAAgain)).
  - unfold TreeOrder.uniqueKeys. vm_compute. apply NoDup_singleton.
  - reflexivity.
Defined.

(** X8: [removeChild] of the node that [addChild] was given leaves its
    name without a child, also where the name had a child before the
    addition, and under every other name the child that was there before
    the addition. *)
Theorem addChild_then_removeChild_lookup {Source T : Type}
    (localeCompare : string -> string -> Z)
    (parent node parent' : CommandNode.t Source T) :
  TreeOrder.uniqueKeys parent ->
  CommandNode.addChild localeCompare parent node = Some parent' ->
  CommandNode.getChild (CommandNode.removeChild parent' node)
                       (CommandNode.name node) = None
  /\ (forall k, k <> CommandNode.name node ->
                CommandNode.getChild (CommandNode.removeChild parent' node) k
                = CommandNode.getChild parent k)
  /\ TreeOrder.uniqueKeys (CommandNode.removeChild parent' node)
  /\ TreeOrder.ownFields (CommandNode.removeChild parent' node)
     = TreeOrder.ownFields parent.
Proof.
  intros Hnd H.
  destruct (@addChild_lookup _ _ localeCompare _ _ _ Hnd H) as (H1 & H2 & _).
  unfold TreeOrder.uniqueKeys, CommandNode.getChild, CommandNode.removeChild in *.
  cbn [CommandNode.childrenMap].
  destruct (@delete_unique _ (CommandNode.childrenMap parent') (CommandNode.name node) H1)
    as [Hd1 Hd2].
  split; [exact Hd2|]. split; [|split; [exact Hd1|]].
  - intros k Hk. rewrite get_delete_other by exact Hk. now apply H2.
  - rewrite <- (addChild_ownFields _ _ _ H). reflexivity.
Qed.

Lemma addChild_then_removeChild_lookup_witness :
  CommandNode.getChild
    (CommandNode.removeChild (CommandDispatcher.root Fixtures.afterAAgain)
                             Fixtures.aNode)
    (CommandNode.name Fixtures.aNode) = None
  /\ (forall k, k <> CommandNode.name Fixtures.aNode ->
                CommandNode.getChild
                  (CommandNode.removeChild
                     (CommandDispatcher.root Fixtures.afterAAgain) Fixtures.aNode) k
                = CommandNode.getChild (CommandDispatcher.root Fixtures.afterA) k)
  /\ TreeOrder.uniqueKeys
       (CommandNode.removeChild (CommandDispatcher.root Fixtures.afterAAgain)
                                Fixtures.aNode)
  /\ TreeOrder.ownFields
       (CommandNode.removeChild (CommandDispatcher.root Fixtures.afterAAgain)
                                Fixtures.aNode)
     = TreeOrder.ownFields (CommandDispatcher.root Fixtures.afterA).
Proof.
  apply (@addChild_then_removeChild_lookup Fixtures.Actor string
           Fixtures.byteCompare (CommandDispatcher.root Fixtures.afterA)
           Fixtures.aNode (CommandDispatcher.root Fixtures.afterAAgain)).
  - unfold TreeOrder.uniqueKeys. vm_compute. apply NoDup_singleton.
  - reflexivity.
Defined.

Section ConsistencyFacts.
Context {Source T : Type}.
Variable localeCompare : string -> string -> Z.

Lemma consistent_insert (parent node : CommandNode.t Source T) :
  CommandNode.kind node <> CommandNode.Root ->
  CommandNode.getChild parent (CommandNode.name node) = None ->
  TreeOrder.consistent parent ->
  forall k,
    JsMap.get (CommandNode.literals (CommandNode.insertChild parent node)) k
    = JsMap.get (JsMap.set (CommandNode.childrenMap parent)
                           (CommandNode.name node) node) k
      ≫= @TreeOrder.literalOnly Source T
    /\ JsMap.get (CommandNode.arguments (CommandNode.insertChild parent node)) k
       = JsMap.get (JsMap.set (CommandNode.childrenMap parent)
                              (CommandNode.name node) node) k
         ≫= @TreeOrder.argumentOnly Source T.
Proof.
  intros Hroot Hnone Hcons k. unfold CommandNode.getChild in Hnone.
  destruct (Hcons (CommandNode.name node)) as [Hl Ha].
  rewrite Hnone in Hl, Ha. cbn [mbind option_bind] in Hl, Ha.
  destruct (Hcons k) as [Hlk Hak].
  unfold CommandNode.insertChild, CommandNode.withMaps.
  cbn [CommandNode.literals CommandNode.arguments].
  destruct (String.eqb k (CommandNode.name node)) eqn:E.
  - apply String.eqb_eq in E. subst k. rewrite get_set_same.
    cbn [mbind option_bind].
    unfold TreeOrder.literalOnly, TreeOrder.argumentOnly.
    destruct (CommandNode.kind node); [contradiction| |];
      rewrite ?get_set_same; auto.
  - apply String.eqb_neq in E.
    rewrite (get_set_other (CommandNode.childrenMap parent) node E).
    destruct (CommandNode.kind node); rewrite ?get_set_other by exact E; auto.
Qed.

Lemma consistent_replace (parent : CommandNode.t Source T) (key : string)
    (child child2 : CommandNode.t Source T) :
  CommandNode.getChild parent key = Some child ->
  CommandNode.kind child2 = CommandNode.kind child ->
  TreeOrder.consistent parent ->
  forall k,
    JsMap.get (CommandNode.literals (CommandNode.replaceChild parent key child child2)) k
    = JsMap.get (JsMap.replace (CommandNode.childrenMap parent) key child2) k
      ≫= @TreeOrder.literalOnly Source T
    /\ JsMap.get (CommandNode.arguments
                    (CommandNode.replaceChild parent key child child2)) k
       = JsMap.get (JsMap.replace (CommandNode.childrenMap parent) key child2) k
         ≫= @TreeOrder.argumentOnly Source T.
Proof.
  intros Hsome Hkind Hcons k. unfold CommandNode.getChild in Hsome.
  destruct (Hcons key) as [Hl Ha].
  rewrite Hsome in Hl, Ha. cbn [mbind option_bind] in Hl, Ha.
  destruct (Hcons k) as [Hlk Hak].
  unfold CommandNode.replaceChild, CommandNode.withMaps.
  cbn [CommandNode.literals CommandNode.arguments].
  destruct (String.eqb k key) eqn:E.
  - apply String.eqb_eq in E. subst k.
    rewrite (get_replace_same _ _ child2 Hsome).
    cbn [mbind option_bind].
    unfold TreeOrder.literalOnly, TreeOrder.argumentOnly in *.
    rewrite Hkind.
    destruct (CommandNode.kind child); auto;
      split; auto; eapply get_replace_same; eassumption.
  - apply String.eqb_neq in E.
    rewrite (get_replace_other (CommandNode.childrenMap parent) child2 E).
    destruct (CommandNode.kind child); rewrite ?get_replace_other by exact E; auto.
Qed.

End ConsistencyFacts.

Section KeyedFacts.
Context {Source T : Type}.
Variable localeCompare : string -> string -> Z.

Lemma set_Forall {V : Type} (P : string * V -> Prop) (m : JsMap.t V)
    (k : string) (v : V) :
  Forall P m -> P (k, v) -> Forall P (JsMap.set m k v).
Proof.
  intros Hm Hv. induction Hm as [|[k0 v0] m H0 Hm IH]; simpl.
  - now constructor.
  - destruct (String.eqb k k0) eqn:E.
    + apply String.eqb_eq in E. subst k0. now constructor.
    + now constructor.
Qed.

Lemma replace_Forall {V : Type} (P : string * V -> Prop) (m : JsMap.t V)
    (k : string) (v : V) :
  Forall P m -> P (k, v) -> Forall P (JsMap.replace m k v).
Proof.
  intros Hm Hv. induction Hm as [|[k0 v0] m H0 Hm IH]; simpl; [constructor|].
  destruct (String.eqb k k0) eqn:E.
  - apply String.eqb_eq in E. subst k0. now constructor.
  - now constructor.
Qed.

Lemma name_of_kind (a b : CommandNode.t Source T) :
  CommandNode.kind a = CommandNode.kind b -> CommandNode.name a = CommandNode.name b.
Proof. unfold CommandNode.name. now intros ->. Qed.

Lemma addChild_keyed (parent node parent' : CommandNode.t Source T) :
  TreeOrder.keyed parent ->
  CommandNode.addChild localeCompare parent node = Some parent' ->
  TreeOrder.keyed parent'.
Proof.
  unfold TreeOrder.keyed. intros Hk H.
  destruct (addChild_cases _ _ _ H) as [_ Hc].
  unfold CommandNode.getChild in Hc.
  destruct (JsMap.get (CommandNode.childrenMap parent) (CommandNode.name node))
    as [child|] eqn:G.
  - destruct Hc as (child2 & Hfold & ->).
    cbn [CommandNode.sortChildren CommandNode.replaceChild CommandNode.withMaps
         CommandNode.childrenMap].
    eapply Permutation_Forall; [apply Permutation_sym, sort_permutation|].
    apply replace_Forall; [exact Hk|]. cbn [fst snd].
    destruct (@merge_loop _ _ localeCompare _ _ _ Hfold) as (Hown & _).
    apply (f_equal (fun p => fst (fst (fst (fst (fst p)))))) in Hown.
    cbn in Hown.
    assert (Hkind : CommandNode.kind child2 = CommandNode.kind child)
      by (rewrite Hown; now destruct (CommandNode.command node)).
    rewrite (name_of_kind _ _ Hkind).
    apply get_in in G. rewrite Forall_forall in Hk.
    apply list_elem_of_In in G. exact (Hk _ G).
  - subst parent'.
    cbn [CommandNode.sortChildren CommandNode.insertChild CommandNode.withMaps
         CommandNode.childrenMap].
    eapply Permutation_Forall; [apply Permutation_sym, sort_permutation|].
    apply set_Forall; [exact Hk|reflexivity].
Qed.

Lemma get_app {V : Type} (m1 m2 : JsMap.t V) (k : string) :
  JsMap.get (m1 ++ m2) k
  = match JsMap.get m1 k with
    | Some v => Some v
    | None => JsMap.get m2 k
    end.
Proof.
  induction m1 as [|[k0 v0] m1 IH]; simpl; [reflexivity|].
  destruct (String.eqb k k0); auto.
Qed.

(** Adding, one after the other, children that are held under their own
    names, each name once, to a node that has none of the names: each is
    added as it is. *)
Lemma addChild_all_lookup (m2 m1 : list (string * CommandNode.t Source T))
    (start result : CommandNode.t Source T) :
  NoDup (map fst (m1 ++ m2)) ->
  Forall (fun e => fst e = CommandNode.name (snd e)) m2 ->
  TreeOrder.uniqueKeys start ->
  (forall k, CommandNode.getChild start k = JsMap.get m1 k) ->
  fold_left
    (fun acc argument =>
       node ← acc; CommandNode.addChild localeCompare node argument)
    (map snd m2) (Some start) = Some result ->
  TreeOrder.ownFields result = TreeOrder.ownFields start
  /\ TreeOrder.uniqueKeys result
  /\ forall k, CommandNode.getChild result k = JsMap.get (m1 ++ m2) k.
Proof.
  revert m1 start.
  induction m2 as [|[key v] m2 IH]; intros m1 start Hnd Hkey Hu Hget; cbn [map fold_left].
  - intros [= <-]. rewrite app_nil_r. auto.
  - cbn [mbind option_bind snd].
    destruct (CommandNode.addChild localeCompare start v) as [next|] eqn:E.
    + intros H. inversion Hkey as [|? ? Hk Hkey']; subst. cbn [fst snd] in Hk.
      destruct (@addChild_lookup _ _ localeCompare _ _ _ Hu E) as (Hu' & Hother & Hname).
      assert (Hfree : JsMap.get m1 key = None).
      { destruct (JsMap.get m1 key) as [x|] eqn:G; [|reflexivity].
        exfalso. rewrite map_app in Hnd. apply NoDup_app in Hnd.
        destruct Hnd as (_ & Hdisj & _).
        apply (Hdisj key).
        - apply list_elem_of_In, get_keys. congruence.
        - cbn. left. }
      rewrite <- Hk, Hget, Hfree in Hname.
      destruct (IH (m1 ++ [(key, v)]) next) as (H1 & H2 & H3); auto.
      * now rewrite <- app_assoc.
      * intros k. rewrite get_app. cbn [JsMap.get].
        destruct (String.eqb k key) eqn:Ek.
        -- apply String.eqb_eq in Ek. subst k. rewrite Hfree. exact Hname.
        -- apply String.eqb_neq in Ek. rewrite Hother by (rewrite <- Hk; exact Ek).
           rewrite Hget. now destruct (JsMap.get m1 k).
      * split; [rewrite H1; eapply addChild_ownFields, E|].
        split; [exact H2|]. intros k. rewrite H3, <- app_assoc. reflexivity.
    + intros H. exfalso. clear -H.
      induction (map snd m2) as [|a l IHl]; cbn in H; [discriminate|auto].
Qed.

End KeyedFacts.

(** X9: [addChild] keeps the three maps of the parent in step: when each
    name is held once, each child is held under its own name, and
    [literals] and [arguments] hold under each name the child that
    [childrenMap] holds there, if it is of their class, the same is true
    after [addChild]. *)
Theorem addChild_keeps_maps_consistent {Source T : Type}
    (localeCompare : string -> string -> Z)
    (parent node parent' : CommandNode.t Source T) :
  TreeOrder.uniqueKeys parent ->
  TreeOrder.keyed parent ->
  TreeOrder.consistent parent ->
  CommandNode.addChild localeCompare parent node = Some parent' ->
  TreeOrder.uniqueKeys parent' /\ TreeOrder.keyed parent'
  /\ TreeOrder.consistent parent'.
Proof.
  intros Hnd Hkeyed Hcons H.
  destruct (@addChild_lookup _ _ localeCompare _ _ _ Hnd H) as (H1 & _ & _).
  split; [exact H1|].
  split; [exact (@addChild_keyed _ _ localeCompare _ _ _ Hkeyed H)|].
  destruct (addChild_cases _ _ _ H) as [Hroot Hc].
  destruct (CommandNode.getChild parent (CommandNode.name node)) as [child|] eqn:G.
  - destruct Hc as (child2 & Hfold & ->).
    assert (Hkind : CommandNode.kind child2 = CommandNode.kind child).
    { destruct (@merge_loop _ _ localeCompare _ _ _ Hfold) as (Hown & _).
      apply (f_equal (fun p => fst (fst (fst (fst (fst p)))))) in Hown.
      cbn in Hown. rewrite Hown. now destruct (CommandNode.command node). }
    intros k.
    destruct (@consistent_replace _ _ parent _ child child2 G Hkind Hcons k) as [Hl Ha].
    assert (Hget :
      JsMap.get (CommandNode.childrenMap
                   (CommandNode.sortChildren localeCompare
                      (CommandNode.replaceChild parent (CommandNode.name node)
                         child child2))) k
      = JsMap.get (JsMap.replace (CommandNode.childrenMap parent)
                     (CommandNode.name node) child2) k).
    { cbn [CommandNode.sortChildren CommandNode.replaceChild CommandNode.withMaps
           CommandNode.childrenMap].
      apply get_permutation;
        [rewrite keys_replace; exact Hnd|apply Permutation_sym, sort_permutation]. }
    rewrite Hget. exact (conj Hl Ha).
  - subst parent'. intros k.
    destruct (@consistent_insert _ _ parent node Hroot G Hcons k) as [Hl Ha].
    assert (Hget :
      JsMap.get (CommandNode.childrenMap
                   (CommandNode.sortChildren localeCompare
                      (CommandNode.insertChild parent node))) k
      = JsMap.get (JsMap.set (CommandNode.childrenMap parent)
                     (CommandNode.name node) node) k).
    { cbn [CommandNode.sortChildren CommandNode.insertChild CommandNode.withMaps
           CommandNode.childrenMap].
      apply get_permutation; [|apply Permutation_sym, sort_permutation].
      unfold CommandNode.getChild in G.
      rewrite keys_set_absent by exact G.
      apply NoDup_app. split; [exact Hnd|]. split; [|apply NoDup_singleton].
      intros x Hx Hx'. apply list_elem_of_In in Hx.
      apply list_elem_of_singleton in Hx'. subst x.
      now apply get_none_keys in G. }
    rewrite Hget. exact (conj Hl Ha).
Qed.

Lemma addChild_keeps_maps_consistent_witness :
  TreeOrder.uniqueKeys (CommandDispatcher.root Fixtures.afterA)
  /\ TreeOrder.keyed (CommandDispatcher.root Fixtures.afterA)
  /\ TreeOrder.consistent (CommandDispatcher.root Fixtures.afterA).
Proof.
  apply (@addChild_keeps_maps_consistent Fixtures.Actor string
           Fixtures.byteCompare CommandNode.newRoot Fixtures.aNode
           (CommandDispatcher.root Fixtures.afterA)).
  - apply NoDup_nil_2.
  - constructor.
  - intros k. split; reflexivity.
  - reflexivity.
Defined.

Section SortedFacts.
Context {Source T : Type}.
Variable localeCompare : string -> string -> Z.
Hypothesis localeCompare_total :
  forall a b, 0 < localeCompare a b -> localeCompare b a <= 0.
Hypothesis localeCompare_trans :
  forall a b c,
    localeCompare a b <= 0 -> localeCompare b c <= 0 -> localeCompare a c <= 0.

Lemma compareTo_total (a b : CommandNode.t Source T) :
  0 < CommandNode.compareTo localeCompare a b ->
  CommandNode.compareTo localeCompare b a <= 0.
Proof.
  unfold CommandNode.compareTo.
  destruct (CommandNode.isLiteral a), (CommandNode.isLiteral b);
    simpl; auto; lia.
Qed.

Lemma compareTo_trans (a b c : CommandNode.t Source T) :
  CommandNode.compareTo localeCompare a b <= 0 ->
  CommandNode.compareTo localeCompare b c <= 0 ->
  CommandNode.compareTo localeCompare a c <= 0.
Proof.
  unfold CommandNode.compareTo.
  destruct (CommandNode.isLiteral a), (CommandNode.isLiteral b),
    (CommandNode.isLiteral c); simpl; eauto; lia.
Qed.

Lemma insert_sorted (x : string * CommandNode.t Source T)
    (l : list (string * CommandNode.t Source T)) :
  TreeOrder.sorted localeCompare (map snd l) ->
  TreeOrder.sorted localeCompare
    (map snd (JsArray.insert (CommandNode.compareEntries localeCompare) x l)).
Proof.
  induction l as [|y l IH]; intros Hl; [simpl; auto|].
  destruct Hl as [Hy Hl]. cbn [JsArray.insert].
  destruct (CommandNode.compareEntries localeCompare x y <=? 0) eqn:E.
  - apply Z.leb_le in E. split; [|split; assumption].
    constructor; [exact E|].
    eapply Forall_impl; [exact Hy|]. intros z Hz. eapply compareTo_trans; eauto.
  - apply Z.leb_gt in E. apply compareTo_total in E.
    split; [|now apply IH].
    eapply Permutation_Forall;
      [apply Permutation_map, Permutation_sym, insert_permutation|].
    now constructor.
Qed.

Lemma sort_sorted (l : list (string * CommandNode.t Source T)) :
  TreeOrder.sorted localeCompare
    (map snd (JsArray.sort (CommandNode.compareEntries localeCompare) l)).
Proof.
  induction l as [|x l IH]; [exact I|]. apply insert_sorted, IH.
Qed.

End SortedFacts.

(** X10: when [localeCompare] orders any two strings and is transitive,
    [addChild] leaves the children of the parent sorted under [compareTo]:
    no child is after a later one. *)
Theorem addChild_sorts_children {Source T : Type}
    (localeCompare : string -> string -> Z)
    (parent node parent' : CommandNode.t Source T) :
  (forall a b, 0 < localeCompare a b -> localeCompare b a <= 0) ->
  (forall a b c,
      localeCompare a b <= 0 -> localeCompare b c <= 0 -> localeCompare a c <= 0) ->
  CommandNode.addChild localeCompare parent node = Some parent' ->
  TreeOrder.sorted localeCompare (CommandNode.children parent').
Proof.
  intros Htotal Htrans Hadd.
  assert (H : exists updated,
             parent' = CommandNode.sortChildren localeCompare updated).
  { destruct (addChild_shape _ _ _ Hadd) as [(child & child2 & ->)| ->]; eauto. }
  destruct H as (updated & ->).
  apply sort_sorted; assumption.
Qed.

Section ByteOrder.

Lemma byteCompare_total (a b : string) :
  0 < Fixtures.byteCompare a b -> Fixtures.byteCompare b a <= 0.
Proof.
  unfold Fixtures.byteCompare. rewrite (String.compare_antisym b a).
  destruct (String.compare a b); simpl; lia.
Qed.

Lemma byteCompare_le (a b : string) :
  Fixtures.byteCompare a b <= 0 <-> a = b \/ OrderedTypeEx.String_as_OT.lt a b.
Proof.
  unfold Fixtures.byteCompare.
  destruct (String.compare a b) eqn:E.
  - apply OrderedTypeEx.String_as_OT.cmp_eq in E. split; [auto|lia].
  - apply OrderedTypeEx.String_as_OT.cmp_lt in E. split; [auto|lia].
  - split; [lia|]. intros [->|H].
    + assert (String.compare b b = Eq) by now apply OrderedTypeEx.String_as_OT.cmp_eq.
      congruence.
    + apply OrderedTypeEx.String_as_OT.cmp_lt in H. unfold OrderedTypeEx.String_as_OT.cmp in H. congruence.
Qed.

Lemma byteCompare_trans (a b c : string) :
  Fixtures.byteCompare a b <= 0 -> Fixtures.byteCompare b c <= 0 ->
  Fixtures.byteCompare a c <= 0.
Proof.
  rewrite !byteCompare_le. intros [->|H1] [->|H2]; auto.
  right. eapply OrderedTypeEx.String_as_OT.lt_trans; eauto.
Qed.

End ByteOrder.

Lemma addChild_sorts_children_witness :
  TreeOrder.sorted Fixtures.byteCompare (CommandNode.children Fixtures.sayNow).
Proof.
  apply (@addChild_sorts_children Fixtures.Actor string Fixtures.byteCompare
           Fixtures.sayNode Fixtures.nowNode Fixtures.sayNow).
  - exact byteCompare_total.
  - exact byteCompare_trans.
  - reflexivity.
Defined.

(** ** Builders *)

(** X11: for a builder that holds each child once and under its own name,
    the node [build] returns has the class and names of the builder, its
    executor, description, redirect target and modifier, the normalised
    requirement, and under each name the child the builder holds there. *)
Theorem build_returns_node_of_builder {Source T : Type}
    (localeCompare : string -> string -> Z) (fuel : nat)
    (h : Requirement.arrays Source T) (b : ArgumentBuilder.t Source T)
    (node : CommandNode.t Source T) :
  TreeOrder.uniqueKeys (ArgumentBuilder.arguments b) ->
  TreeOrder.keyed (ArgumentBuilder.arguments b) ->
  ArgumentBuilder.build localeCompare fuel h b = Some node ->
  exists normalized,
    Requirement.normalizeRequirement fuel h (ArgumentBuilder.requirement b)
    = Some normalized
    /\ CommandNode.kind node
       = match ArgumentBuilder.kind b with
         | ArgumentBuilder.LiteralArgumentBuilder literals =>
             CommandNode.Literal literals
         | ArgumentBuilder.RequiredArgumentBuilder name type provider =>
             CommandNode.Argument name type provider
         end
    /\ CommandNode.command node = ArgumentBuilder.command b
    /\ CommandNode.commandDescription node = ArgumentBuilder.commandDescription b
    /\ CommandNode.requirement node = Some normalized
    /\ CommandNode.redirect node = ArgumentBuilder.target b
    /\ CommandNode.modifier node = ArgumentBuilder.modifier b
    /\ forall k,
        CommandNode.getChild node k
        = CommandNode.getChild (ArgumentBuilder.arguments b) k.
Proof.
  intros Hu Hk. unfold ArgumentBuilder.build.
  destruct (Requirement.normalizeRequirement fuel h (ArgumentBuilder.requirement b))
    as [normalized|]; [|discriminate].
  cbn [mbind option_bind]. intros H.
  exists normalized. split; [reflexivity|].
  unfold ArgumentBuilder.argumentList, CommandNode.children, JsMap.values in H.
  apply (@addChild_all_lookup _ _ localeCompare
           (CommandNode.childrenMap (ArgumentBuilder.arguments b)) []) in H.
  - destruct H as (Hown & _ & Hget).
    unfold TreeOrder.ownFields in Hown. cbn in Hown.
    injection Hown as -> -> -> -> -> ->.
    repeat (split; [reflexivity|]). exact Hget.
  - exact Hu.
  - exact Hk.
  - apply NoDup_nil_2.
  - reflexivity.
Qed.

Lemma build_returns_node_of_builder_witness :
  exists normalized,
    Requirement.normalizeRequirement 1 [] (ArgumentBuilder.requirement Fixtures.sayBuilder)
    = Some normalized
    /\ CommandNode.kind Fixtures.sayNode
       = match ArgumentBuilder.kind Fixtures.sayBuilder with
         | ArgumentBuilder.LiteralArgumentBuilder literals =>
             CommandNode.Literal literals
         | ArgumentBuilder.RequiredArgumentBuilder name type provider =>
             CommandNode.Argument name type provider
         end
    /\ CommandNode.command Fixtures.sayNode = ArgumentBuilder.command Fixtures.sayBuilder
    /\ CommandNode.commandDescription Fixtures.sayNode
       = ArgumentBuilder.commandDescription Fixtures.sayBuilder
    /\ CommandNode.requirement Fixtures.sayNode = Some normalized
    /\ CommandNode.redirect Fixtures.sayNode = ArgumentBuilder.target Fixtures.sayBuilder
    /\ CommandNode.modifier Fixtures.sayNode = ArgumentBuilder.modifier Fixtures.sayBuilder
    /\ forall k,
        CommandNode.getChild Fixtures.sayNode k
        = CommandNode.getChild (ArgumentBuilder.arguments Fixtures.sayBuilder) k.
Proof.
  apply (@build_returns_node_of_builder Fixtures.Actor string Fixtures.byteCompare
           1%nat [] Fixtures.sayBuilder Fixtures.sayNode).
  - unfold TreeOrder.uniqueKeys. vm_compute. apply NoDup_singleton.
  - unfold TreeOrder.keyed. vm_compute. repeat constructor.
  - reflexivity.
Defined.

(** X12: a builder that has been given a child refuses [forward] and
    [redirect] from then on, whatever the target; the child is added
    whether or not the builder has a target already, which it keeps. *)
Theorem then_blocks_forward {Source T : Type}
    (localeCompare : string -> string -> Z) (fuel : nat)
    (h : Requirement.arrays Source T) (b sub b' : ArgumentBuilder.t Source T) :
  ArgumentBuilder.then_ localeCompare fuel h b sub = Some b' ->
  (forall target modifier, ArgumentBuilder.forward b' target modifier = None)
  /\ (forall target modifier description,
         ArgumentBuilder.redirect b' target modifier description = None)
  /\ ArgumentBuilder.target b' = ArgumentBuilder.target b
  /\ ArgumentBuilder.modifier b' = ArgumentBuilder.modifier b.
Proof.
  unfold ArgumentBuilder.then_.
  destruct (ArgumentBuilder.build localeCompare fuel h sub) as [child|];
    [|discriminate].
  cbn [mbind option_bind].
  destruct (CommandNode.addChild localeCompare (ArgumentBuilder.arguments b) child)
    as [arguments'|] eqn:E; [|discriminate].
  cbn [mbind option_bind]. intros [= <-].
  assert (Hin : In (CommandNode.name child)
                   (map fst (CommandNode.childrenMap arguments')))
    by (apply (@addChild_keys _ _ localeCompare _ _ _ _ E); now left).
  assert (Hne : forall description,
             ArgumentBuilder.argumentList
               (ArgumentBuilder.mk (ArgumentBuilder.kind b) arguments'
                  (ArgumentBuilder.command b) description
                  (ArgumentBuilder.requirement b) (ArgumentBuilder.target b)
                  (ArgumentBuilder.modifier b)) <> []).
  { intros description.
    unfold ArgumentBuilder.argumentList, CommandNode.children, JsMap.values.
    cbn [ArgumentBuilder.arguments].
    destruct (CommandNode.childrenMap arguments'); [destruct Hin|discriminate]. }
  split; [|split; [|split; reflexivity]].
  - intros target modifier. unfold ArgumentBuilder.forward.
    specialize (Hne (ArgumentBuilder.commandDescription b)).
    destruct (ArgumentBuilder.argumentList _); [contradiction|reflexivity].
  - intros target modifier description.
    unfold ArgumentBuilder.redirect, ArgumentBuilder.forward.
    cbn [ArgumentBuilder.kind ArgumentBuilder.arguments ArgumentBuilder.command
         ArgumentBuilder.requirement ArgumentBuilder.target ArgumentBuilder.modifier].
    specialize (Hne description).
    unfold ArgumentBuilder.argumentList in *. cbn [ArgumentBuilder.arguments] in *.
    destruct (CommandNode.children arguments'); [contradiction|reflexivity].
Qed.

Lemma then_blocks_forward_witness :
  (forall target modifier,
      ArgumentBuilder.forward Fixtures.sayBuilder target modifier = None)
  /\ (forall target modifier description,
         ArgumentBuilder.redirect Fixtures.sayBuilder target modifier description
         = None)
  /\ ArgumentBuilder.target Fixtures.sayBuilder
     = ArgumentBuilder.target
         (@ArgumentBuilder.newLiteral Fixtures.Actor string ["say"%string])
  /\ ArgumentBuilder.modifier Fixtures.sayBuilder
     = ArgumentBuilder.modifier
         (@ArgumentBuilder.newLiteral Fixtures.Actor string ["say"%string]).
Proof.
  apply (@then_blocks_forward Fixtures.Actor string Fixtures.byteCompare 1%nat []
           (ArgumentBuilder.newLiteral ["say"%string])
           (ArgumentBuilder.executes
              (ArgumentBuilder.suggests
                 (ArgumentBuilder.newRequired "word" 0%nat) 0%nat)
              1%nat None)
           Fixtures.sayBuilder).
  reflexivity.
Defined.

(** ** Execution *)

Section ExecutionFacts.
Context {Source T Value : Type}.
Variable env : Dispatch.Env Source T Value.

(** A chain of contexts ends in a context without child. *)
Lemma CommandContext_chain_ind (P : Context.CommandContext Source T Value -> Prop) :
  (forall c, Context.child c = None -> P c) ->
  (forall c next, Context.child c = Some next -> P next -> P c) ->
  forall c, P c.
Proof.
  intros Hlast Hstep. fix IH 1. intros c.
  destruct c as [s i pa r n rg cmd [next|] m].
  - apply (Hstep _ next); [reflexivity|apply IH].
  - apply Hlast. reflexivity.
Qed.

(** The ways the loop of [executeResults] ends when it starts with nothing
    run and nothing returned. *)
Lemma executeChain_outcomes (reader : StringReader.t)
    (original this : Context.CommandContext Source T Value) :
  forall (source : Source) (foundCommand : bool),
    (exists c context value,
        Dispatch.runCommand env c context = inr value
        /\ Dispatch.executeChain env reader original this source foundCommand [] []
           = Dispatch.mkOutcome
               [Dispatch.Ran c context; Dispatch.Consumed context true]
               (inr [Dispatch.Success value]))
    \/ (exists c context e,
           Dispatch.runCommand env c context = inl e
           /\ Dispatch.executeChain env reader original this source foundCommand [] []
              = Dispatch.mkOutcome
                  [Dispatch.Ran c context; Dispatch.Consumed context false] (inl e))
    \/ (exists m context e,
           Dispatch.runModifier env m context = inl e
           /\ Dispatch.executeChain env reader original this source foundCommand [] []
              = Dispatch.mkOutcome [Dispatch.Consumed context false] (inl e))
    \/ Dispatch.executeChain env reader original this source foundCommand [] []
       = Dispatch.mkOutcome [Dispatch.Consumed original false]
           (inl (UnknownSomethingError reader "command"))
    \/ Dispatch.executeChain env reader original this source foundCommand [] []
       = Dispatch.mkOutcome [] (inr []).
Proof.
  induction this as [this Hlast|this next Hnext IH] using CommandContext_chain_ind;
    intros source foundCommand.
  - destruct this as [s i pa r n rg cmd ch m]. cbn in Hlast. subst ch.
    cbn [Dispatch.executeChain Context.child Context.copyFor Context.command].
    destruct cmd as [c|].
    + destruct (Dispatch.runCommand env c _) as [e|value] eqn:E.
      * right. left. eauto.
      * left. eauto.
    + unfold Dispatch.finish. destruct foundCommand; auto.
  - destruct this as [s i pa r n rg cmd ch m]. cbn in Hnext. subst ch.
    cbn [Dispatch.executeChain Context.child Context.copyFor Context.modifier
         Context.source].
    destruct (Context.hasNodes next).
    + destruct m as [m|].
      * destruct (Dispatch.runModifier env m _) as [e|source'] eqn:E.
        -- right. right. left. eauto.
        -- apply IH.
      * apply IH.
    + unfold Dispatch.finish. destruct foundCommand; auto.
Qed.

End ExecutionFacts.

(** X13: [executeResults] calls at most one executor and tells the consumer
    at most once.  It ends in one of six ways: input was left and it throws
    at once; one executor ran and its value is the only element returned;
    the executor threw; a redirect modifier threw; nothing to run was found
    and it throws ["Unknown command"]; or a redirect was followed and the
    last context has no executor, and it returns the empty array without
    telling the consumer. *)
Theorem executeResults_runs_at_most_one_executor {Source T Value : Type}
    (env : Dispatch.Env Source T Value)
    (parse : Context.ParseResults Source T Value) :
  (StringReader.canReadAnything (Context.reader parse) = true
   /\ Dispatch.executeResults env parse
      = Dispatch.mkOutcome [] (inl (Dispatch.leftoverError parse)))
  \/ (exists c context value,
         Dispatch.runCommand env c context = inr value
         /\ Dispatch.executeResults env parse
            = Dispatch.mkOutcome
                [Dispatch.Ran c context; Dispatch.Consumed context true]
                (inr [Dispatch.Success value]))
  \/ (exists c context e,
         Dispatch.runCommand env c context = inl e
         /\ Dispatch.executeResults env parse
            = Dispatch.mkOutcome
                [Dispatch.Ran c context; Dispatch.Consumed context false] (inl e))
  \/ (exists m context e,
         Dispatch.runModifier env m context = inl e
         /\ Dispatch.executeResults env parse
            = Dispatch.mkOutcome [Dispatch.Consumed context false] (inl e))
  \/ Dispatch.executeResults env parse
     = Dispatch.mkOutcome
         [Dispatch.Consumed
            (Context.build (Context.context parse)
                           (StringReader.string_ (Context.reader parse)))
            false]
         (inl (UnknownSomethingError (Context.reader parse) "command"))
  \/ Dispatch.executeResults env parse = Dispatch.mkOutcome [] (inr []).
Proof.
  unfold Dispatch.executeResults.
  destruct (StringReader.canReadAnything (Context.reader parse)); [left; auto|].
  right. apply executeChain_outcomes.
Qed.

(** ** Parsing *)

Section ParseFacts.
Context {Source T Value : Type}.
Variable env : Dispatch.Env Source T Value.

Abbreviation CBuilder := (Context.CommandContextBuilder Source T Value).
Abbreviation Results := (Context.ParseResults Source T Value).

Abbreviation grows := (@Recorded.grows Source T Value).

Lemma grows_refl (c : CBuilder) : grows c c.
Proof.
  split; [|auto]. unfold Recorded.extends.
  repeat split; try lia. exists []. now rewrite app_nil_r.
Qed.

Lemma grows_trans (a b c : CBuilder) : grows a b -> grows b c -> grows a c.
Proof.
  intros [(H1 & H2 & (m1 & H3) & H4 & H5) Hc1] [(G1 & G2 & (m2 & G3) & G4 & G5) Hc2].
  split; [|auto]. unfold Recorded.extends.
  repeat split; try congruence; try lia.
  exists (m1 ++ m2). rewrite G3, H3. now rewrite app_assoc.
Qed.

Lemma grows_copy (c : CBuilder) : grows c (Context.copy c).
Proof.
  split.
  - unfold Recorded.extends, Context.copy. cbn.
    repeat split; try lia. exists []. now rewrite app_nil_r.
  - unfold Recorded.covered, Context.copy. cbn. auto.
Qed.

Lemma grows_withNode (c : CBuilder) (node : CommandNode.t Source T)
    (range : StringRange.t) :
  grows c (Context.withNode c node range).
Proof.
  split.
  - unfold Recorded.extends, Context.withNode, StringRange.encompassing. cbn.
    repeat split; try lia. eauto.
  - unfold Recorded.covered, Context.withNode, StringRange.encompassing. cbn.
    intros H. apply Forall_app. split.
    + eapply Forall_impl; [exact H|]. cbn. intros n Hn. lia.
    + constructor; [|constructor]. cbn. lia.
Qed.

Lemma grows_withArgument (c : CBuilder) (name : string)
    (argument : Context.ParsedArgument Value) :
  grows c (Context.withArgument c name argument).
Proof.
  split.
  - unfold Recorded.extends, Context.withArgument. cbn.
    repeat split; try lia. exists []. now rewrite app_nil_r.
  - auto.
Qed.

Lemma grows_withCommand (c : CBuilder) (command : option Command) :
  grows c (Context.withCommand c command).
Proof.
  split.
  - unfold Recorded.extends, Context.withCommand. cbn.
    repeat split; try lia. exists []. now rewrite app_nil_r.
  - auto.
Qed.

Lemma grows_withChild (c child : CBuilder) : grows c (Context.withChild c child).
Proof.
  split.
  - unfold Recorded.extends, Context.withChild. cbn.
    repeat split; try lia. exists []. now rewrite app_nil_r.
  - auto.
Qed.

Lemma parseNode_grows (this : CommandNode.t Source T) (reader reader' : StringReader.t)
    (c c' : CBuilder) :
  Dispatch.parseNode env this reader c = inr (reader', c') -> grows c c'.
Proof.
  unfold Dispatch.parseNode.
  destruct (CommandNode.kind this) as [|names|name type custom].
  - intros [= _ <-]. apply grows_refl.
  - destruct (LiteralCommandNode._parse names reader) as [end_ r'].
    destruct (-1 <? end_); [|discriminate].
    intros [= _ <-]. apply grows_withNode.
  - destruct (Dispatch.typeParse env type reader) as [e|[v r']]; [discriminate|].
    destruct (Dispatch.typeLoad env type v) as [e|loaded]; [discriminate|].
    intros [= _ <-].
    eapply grows_trans; [apply grows_withArgument|apply grows_withNode].
Qed.

Lemma tryParse_grows (child : CommandNode.t Source T) (reader reader' : StringReader.t)
    (c c' : CBuilder) :
  Dispatch.tryParse env child reader c = inr (reader', c') -> grows c c'.
Proof.
  unfold Dispatch.tryParse.
  destruct (Dispatch.parseNode env child reader c) as [e|[r1 c1]] eqn:E;
    [discriminate|].
  destruct (_ && _); [discriminate|].
  intros [= _ <-]. eapply parseNode_grows, E.
Qed.

Lemma selectResult_grows (potentials : list Results) (c : CBuilder)
    (reader : StringReader.t) (errors : JsMap.t (Error T)) :
  Forall (fun p => grows c (Context.context p)) potentials ->
  grows c (Context.context (Dispatch.selectResult potentials c reader errors)).
Proof.
  intros Hp. unfold Dispatch.selectResult.
  destruct potentials as [|p ps]; [apply grows_refl|].
  destruct (1 <? Z.of_nat (List.length (p :: ps))).
  - pose proof (sort_permutation (@Dispatch.comparePotentials Source T Value)
                  (p :: ps)) as Hperm.
    destruct (JsArray.sort _ (p :: ps)) as [|first rest]; [apply grows_refl|].
    apply (Permutation_Forall (Permutation_sym Hperm)) in Hp. now inversion Hp.
  - now inversion Hp.
Qed.

Lemma parseNodes_grows (fuel : nat) :
  forall (node : CommandNode.t Source T) (reader : StringReader.t)
         (c : CBuilder) (r : Results),
    Dispatch.parseNodes env fuel node reader c = Some r ->
    grows c (Context.context r).
Proof.
  induction fuel as [|fuel IH]; intros node reader c r; [discriminate|].
  cbn [Dispatch.parseNodes].
  match goal with
  | |- ?loop ?cs0 ?es0 ?ps0 = Some r -> _ =>
      enough (Hloop : forall children errors potentials,
                 Forall (fun p : Results => grows c (Context.context p)) potentials ->
                 loop children errors potentials = Some r ->
                 grows c (Context.context r))
        by (apply Hloop; constructor)
  end.
  induction children as [|child rest IHc]; intros errors potentials Hp.
  - intros [= <-]. now apply selectResult_grows.
  - destruct (CommandNode.checkRequirement fuel (Dispatch.resolve env) child
                (Context.b_source c)) as [failure|]; [|discriminate].
    cbn [mbind option_bind].
    destruct (Dispatch.visibility env errors child failure) as [errors1|];
      [|now apply IHc].
    destruct (Dispatch.tryParse env child (StringReader.clone reader)
                (Context.copy c)) as [e|[reader1 context1]] eqn:Et;
      [now apply IHc|].
    assert (H2 : grows c (Context.withCommand context1 (CommandNode.command child))).
    { eapply grows_trans; [apply grows_copy|].
      eapply grows_trans; [eapply tryParse_grows, Et|apply grows_withCommand]. }
    destruct (StringReader.canRead reader1 _).
    + destruct (CommandNode.redirect child) as [target|].
      * destruct (Dispatch.parseNodes env fuel _ _ _) as [parse|]; [|discriminate].
        cbn [mbind option_bind]. intros [= <-]. cbn [Context.context].
        eapply grows_trans; [exact H2|apply grows_withChild].
      * destruct (Dispatch.parseNodes env fuel child _ _) as [parse|] eqn:Ep;
          [|discriminate].
        cbn [mbind option_bind]. apply IHc.
        apply Forall_app. split; [exact Hp|].
        constructor; [|constructor].
        eapply grows_trans; [exact H2|eapply IH, Ep].
    + apply IHc. apply Forall_app. split; [exact Hp|].
      constructor; [|constructor]. exact H2.
Qed.

End ParseFacts.

(** X14: the context [parseNodes] returns is for the source and the root
    of the context it was given; it holds the nodes recorded there, in
    their order, with nodes added after them only, and its range covers
    the range it had; and where the range covered the ranges of the
    recorded nodes before, it covers them after. *)
Theorem parseNodes_only_appends_nodes {Source T Value : Type}
    (env : Dispatch.Env Source T Value) (fuel : nat)
    (node : CommandNode.t Source T) (originalReader : StringReader.t)
    (contextSoFar : Context.CommandContextBuilder Source T Value)
    (result : Context.ParseResults Source T Value) :
  Dispatch.parseNodes env fuel node originalReader contextSoFar = Some result ->
  Recorded.extends contextSoFar (Context.context result)
  /\ (Recorded.covered contextSoFar -> Recorded.covered (Context.context result)).
Proof. apply parseNodes_grows. Qed.

Lemma parseNodes_only_appends_nodes_witness :
  Recorded.extends
    (Context.newBuilder Fixtures.moderator
       (CommandDispatcher.root Fixtures.withAOne) 0)
    (Context.context Fixtures.parsedAOneI)
  /\ (Recorded.covered
        (Context.newBuilder (Value := string) Fixtures.moderator
           (CommandDispatcher.root Fixtures.withAOne) 0) ->
      Recorded.covered (Context.context Fixtures.parsedAOneI)).
Proof.
  apply (@parseNodes_only_appends_nodes Fixtures.Actor string string
           Fixtures.env0 5%nat (CommandDispatcher.root Fixtures.withAOne)
           (StringReader.new "a 1 i ")
           (Context.newBuilder Fixtures.moderator
              (CommandDispatcher.root Fixtures.withAOne) 0)
           Fixtures.parsedAOneI).
  vm_compute. reflexivity.
Defined.

(** ** [findSuggestionContext] *)

Section SuggestionContextFacts.
Context {Source T Value : Type}.

Lemma nodeAtCursor_spec (nodes : list (Context.ParsedCommandNode Source T))
    (prev : CommandNode.t Source T) (cursor : Z) :
  match Context.nodeAtCursor prev nodes cursor with
  | inr found =>
      Context.startPos found <= cursor
      /\ (Context.parent found = prev
          \/ In (Context.parent found) (map (fun n => Context.node n) nodes))
  | inl last =>
      last = prev \/ In last (map (fun n => Context.node n) nodes)
  end.
Proof.
  revert prev. induction nodes as [|n nodes IH]; intros prev; cbn; [auto|].
  destruct ((StringRange.start (Context.pn_range n) <=? cursor)
            && (cursor <=? StringRange.end_ (Context.pn_range n))) eqn:E.
  - apply andb_true_iff in E. destruct E as [E _]. apply Z.leb_le in E.
    cbn. auto.
  - specialize (IH (Context.node n)).
    destruct (Context.nodeAtCursor (Context.node n) nodes cursor) as [last|found].
    + destruct IH as [->|H]; auto.
    + destruct IH as [H1 [->|H]]; auto.
Qed.

End SuggestionContextFacts.

(** X15: for a cursor that is not after the range of a context, or a
    context without child whose range covers the ranges of its nodes:
    [findSuggestionContext] throws when the cursor is before the range,
    and otherwise returns a suggestion context whose start is not after the
    cursor and whose parent is the root node of the context or one of the
    recorded nodes. *)
Theorem findSuggestionContext_start_not_after_cursor {Source T Value : Type}
    (this : Context.CommandContextBuilder Source T Value) (cursor : Z) :
  cursor <= StringRange.end_ (Context.b_range this)
  \/ (Context.b_child this = None /\ Recorded.covered this) ->
  if cursor <? StringRange.start (Context.b_range this)
  then Context.findSuggestionContext this cursor = None
  else
    exists found,
      Context.findSuggestionContext this cursor = Some found
      /\ Context.startPos found <= cursor
      /\ (Context.parent found = Context.b_rootNode this
          \/ In (Context.parent found)
                (map (fun n => Context.node n) (Context.b_nodes this))).
Proof.
  destruct this as [s root args nodes cmd child range m].
  cbn [Context.findSuggestionContext Context.b_range Context.b_child
       Context.b_nodes Context.b_rootNode].
  intros H2.
  destruct (cursor <? StringRange.start range) eqn:H1.
  - apply Z.ltb_lt in H1. apply Z.leb_gt in H1. now rewrite H1.
  - apply Z.ltb_ge in H1. apply Z.leb_le in H1. rewrite H1.
    destruct (StringRange.end_ range <? cursor) eqn:E.
    + apply Z.ltb_lt in E. destruct H2 as [H2|[-> Hcov]]; [lia|].
      unfold Recorded.covered in Hcov. cbn in Hcov.
      destruct nodes as [|n nodes _] using rev_ind.
      * cbn. eexists. split; [reflexivity|]. cbn. apply Z.leb_le in H1. auto.
      * rewrite map_app. cbn [map]. rewrite last_last.
        eexists. split; [reflexivity|].
        apply Forall_app in Hcov. destruct Hcov as [_ Hn].
        inversion Hn as [|? ? [_ Hend] _]; subst.
        cbn. split; [lia|]. right. rewrite map_app. apply in_or_app.
        right. now left.
    + pose proof (nodeAtCursor_spec nodes root cursor) as Hspec.
      destruct (Context.nodeAtCursor root nodes cursor) as [last|found].
      * eexists. split; [reflexivity|]. cbn. apply Z.leb_le in H1. auto.
      * eexists. split; [reflexivity|]. exact Hspec.
Qed.

Lemma findSuggestionContext_start_not_after_cursor_witness :
  if 6 <? StringRange.start (Context.b_range (Context.context Fixtures.parsedAOneI))
  then Context.findSuggestionContext (Context.context Fixtures.parsedAOneI) 6 = None
  else
    exists found,
      Context.findSuggestionContext (Context.context Fixtures.parsedAOneI) 6
      = Some found
      /\ Context.startPos found <= 6
      /\ (Context.parent found
          = Context.b_rootNode (Context.context Fixtures.parsedAOneI)
          \/ In (Context.parent found)
                (map (fun n => Context.node n)
                     (Context.b_nodes (Context.context Fixtures.parsedAOneI)))).
Proof.
  apply (@findSuggestionContext_start_not_after_cursor Fixtures.Actor string string
           (Context.context Fixtures.parsedAOneI) 6).
  right. split; [reflexivity|].
  unfold Recorded.covered. vm_compute. repeat constructor; discriminate.
Defined.

(** ** Witnesses of earlier properties *)

Lemma executeResults_leftover_witness :
  Dispatch.events (Dispatch.executeResults Fixtures.env0 Fixtures.stoppedEarly) = []
  /\ Dispatch.completion (Dispatch.executeResults Fixtures.env0 Fixtures.stoppedEarly)
     = inl (match Context.exceptions Fixtures.stoppedEarly with
            | [(_, sole)] => sole
            | _ =>
                UnknownSomethingError (Context.reader Fixtures.stoppedEarly)
                  (if StringRange.isEmpty
                        (Context.b_range (Context.context Fixtures.stoppedEarly))
                   then "argument" else "command")
            end).
Proof.
  apply (@executeResults_leftover Fixtures.Actor string string Fixtures.env0
           Fixtures.stoppedEarly).
  reflexivity.
Defined.

Lemma requires_predicates_accumulate_witness :
  exists b' h',
    ArgumentBuilder.requiresAll Fixtures.ban
      (map Requirement.ReqFn [Fixtures.isAdmin; Fixtures.canBan]) [] = (b', h')
    /\ Requirement.normalizeRequirement 2 h' (ArgumentBuilder.requirement b')
       = Some (Requirement.firstFailure [Fixtures.isAdmin; Fixtures.canBan]).
Proof.
  apply (@requires_predicates_accumulate Fixtures.Actor string Fixtures.ban []
           Fixtures.isAdmin Fixtures.canBan []).
  reflexivity.
Defined.

(** ** Suggestions *)

Section SuggestFacts.
Context {Metadata : Type}.

Abbreviation SBuilder2 := (Suggestions.SuggestionsBuilder Metadata).

(** A loop that calls [suggest] for the elements that pass a test adds,
    in order, one suggestion for each of them whose text is not the
    remaining text. *)
Lemma fold_suggest {X : Type} (test : X -> bool) (txt : X -> string)
    (tip : X -> option string) (xs : list X) :
  forall b : SBuilder2,
    fold_left (fun b x => if test x then Suggestions.suggest b (txt x) (tip x) else b)
              xs b
    = Suggestions.mkBuilder (Suggestions.input b) (Suggestions.start b)
        (Suggestions.b_metadata b) (Suggestions.remaining b)
        (Suggestions.result b
         ++ map (fun x =>
                   Suggestions.mkSuggestion
                     (StringRange.between (Suggestions.start b)
                        (JsString.length (Suggestions.input b)))
                     (Suggestions.b_metadata b) (txt x) (tip x))
                (List.filter
                   (fun x => test x
                             && negb (JsString.eqb (txt x) (Suggestions.remaining b)))
                   xs)).
Proof.
  induction xs as [|x xs IH]; intros b; cbn [fold_left List.filter map].
  - rewrite app_nil_r. now destruct b.
  - rewrite IH. destruct (test x); cbn [andb].
    + unfold Suggestions.suggest.
      destruct (JsString.eqb (txt x) (Suggestions.remaining b)); cbn [negb].
      * reflexivity.
      * cbn. now rewrite <- app_assoc.
    + reflexivity.
Qed.

End SuggestFacts.

(** X16: the [listSuggestions] that argument types inherit offers exactly
    the examples that start with the text that remains to be completed and
    are not equal to it, in the order of the examples, each as a replacement
    of the input from the start of the builder to the end. *)
Theorem inherited_listSuggestions_offers_examples_by_prefix {Metadata : Type}
    (examples : list string) (input : string) (start : Z) (metadata : Metadata) :
  Suggestions.suggestions
    (ArgumentTypeCore.listSuggestions examples
       (Suggestions.newBuilder input start metadata))
  = map (fun example =>
           Suggestions.mkSuggestion
             (StringRange.between start (JsString.length input))
             metadata example None)
        (List.filter
           (fun example =>
              JsString.startsWith example (JsString.substringFrom input start)
              && negb (JsString.eqb example (JsString.substringFrom input start)))
           examples).
Proof.
  unfold ArgumentTypeCore.listSuggestions.
  rewrite (fold_suggest
             (fun literal =>
                JsString.startsWith literal
                  (Suggestions.remaining (Suggestions.newBuilder input start metadata)))
             (fun literal => literal) (fun _ => None)).
  cbn [Suggestions.newBuilder Suggestions.input Suggestions.start
       Suggestions.b_metadata Suggestions.remaining Suggestions.result app].
  unfold Suggestions.build. cbn [Suggestions.input Suggestions.result].
  apply create_uniform with (range := StringRange.between start (JsString.length input)).
  apply Forall_map. apply Forall_forall. reflexivity.
Qed.

(** X17: a literal node offers exactly those of its names whose lower-case
    form starts with the lower-case form of the text that remains to be
    completed, except a name equal to that text as written; each comes with
    the other names of the node, joined by [", "], as its tooltip, or
    without tooltip when the node has no other name. *)
Theorem literalListSuggestions_offers_names_by_prefix {Source T : Type}
    (literalNames : list string) (input : string) (start : Z)
    (metadata : Dispatch.SuggestionMetadata Source T) :
  Suggestions.suggestions
    (Dispatch.literalListSuggestions literalNames
       (Suggestions.newBuilder input start metadata))
  = map (fun literal =>
           Suggestions.mkSuggestion
             (StringRange.between start (JsString.length input))
             metadata literal
             (let other :=
                List.filter (fun e => negb (JsString.eqb e literal)) literalNames in
              match other with
              | [] => None
              | _ :: _ => Some (String.concat ", " other)
              end))
        (List.filter
           (fun literal =>
              JsString.startsWith
                (JsString.toLowerCase literal)
                (JsString.toLowerCase (JsString.substringFrom input start))
              && negb (JsString.eqb literal (JsString.substringFrom input start)))
           literalNames).
Proof.
  unfold Dispatch.literalListSuggestions.
  rewrite (fold_suggest
             (fun literal =>
                JsString.startsWith (JsString.toLowerCase literal)
                  (JsString.toLowerCase
                     (Suggestions.remaining
                        (Suggestions.newBuilder input start metadata))))
             (fun literal => literal)
             (fun literal =>
                let other :=
                  List.filter (fun e => negb (JsString.eqb e literal)) literalNames in
                match other with
                | [] => None
                | _ :: _ => Some (String.concat ", " other)
                end)).
  cbn [Suggestions.newBuilder Suggestions.input Suggestions.start
       Suggestions.b_metadata Suggestions.remaining Suggestions.result app].
  unfold Suggestions.build. cbn [Suggestions.input Suggestions.result].
  apply create_uniform with (range := StringRange.between start (JsString.length input)).
  apply Forall_map. apply Forall_forall. reflexivity.
Qed.

Section SubstringFacts.

Lemma append_assoc (a b c : string) : ((a +:+ b) +:+ c = a +:+ (b +:+ c))%string.
Proof.
  induction a as [|x a IH]; [reflexivity|].
  rewrite !append_cons. now rewrite IH.
Qed.

Lemma substring_nat_split (s : string) :
  forall n m1 m2 : nat,
    String.substring n (m1 + m2) s
    = (String.substring n m1 s +:+ String.substring (n + m1) m2 s)%string.
Proof.
  induction s as [|c s IH]; intros n m1 m2.
  - destruct n, m1, m2; reflexivity.
  - destruct n as [|n].
    + destruct m1 as [|m1]; [reflexivity|].
      cbn [Nat.add String.substring]. rewrite append_cons. f_equal.
      apply (IH 0%nat).
    + cbn [Nat.add String.substring]. apply IH.
Qed.

Lemma substring_nat_empty (s : string) (n : nat) : String.substring n 0 s = ""%string.
Proof.
  revert n. induction s as [|c s IH]; intros [|n]; try reflexivity. apply IH.
Qed.

Lemma substring_within (s : string) (x y : Z) :
  0 <= x -> x <= y -> y <= JsString.length s ->
  JsString.substring s x y = String.substring (Z.to_nat x) (Z.to_nat (y - x)) s.
Proof.
  intros H1 H2 H3. unfold JsString.substring, JsString.clamp.
  replace (Z.min (Z.max 0 (Z.min x (JsString.length s)))
                 (Z.max 0 (Z.min y (JsString.length s)))) with x by lia.
  replace (Z.max (Z.max 0 (Z.min x (JsString.length s)))
                 (Z.max 0 (Z.min y (JsString.length s)))) with y by lia.
  reflexivity.
Qed.

Lemma substring_split (s : string) (x y z : Z) :
  0 <= x -> x <= y -> y <= z -> z <= JsString.length s ->
  (JsString.substring s x y +:+ JsString.substring s y z)%string
  = JsString.substring s x z.
Proof.
  intros H1 H2 H3 H4.
  rewrite !substring_within by lia.
  replace (Z.to_nat (z - x)) with (Z.to_nat (y - x) + Z.to_nat (z - y))%nat by lia.
  rewrite substring_nat_split. do 2 f_equal. lia.
Qed.

Lemma substring_same (s : string) (x : Z) :
  0 <= x -> x <= JsString.length s -> JsString.substring s x x = ""%string.
Proof.
  intros H1 H2. rewrite substring_within by lia.
  rewrite Z.sub_diag. apply substring_nat_empty.
Qed.

End SubstringFacts.

Section ExpandFacts.
Context {Metadata : Type}.

Lemma equals_eq (a b : StringRange.t) : StringRange.equals a b = true -> a = b.
Proof.
  unfold StringRange.equals. intros H. apply andb_true_iff in H.
  destruct H as [H1 H2]. apply Z.eqb_eq in H1, H2.
  destruct a, b. cbn in *. congruence.
Qed.

Lemma expand_range (s : Suggestions.Suggestion Metadata) (command : string)
    (range : StringRange.t) :
  Suggestions.s_range (Suggestions.expand s command range) = range.
Proof.
  unfold Suggestions.expand.
  destruct (StringRange.equals range (Suggestions.s_range s)) eqn:E; [|reflexivity].
  apply equals_eq in E. now rewrite E.
Qed.

Lemma fold_min_below (l : list (Suggestions.Suggestion Metadata)) (a : Z) :
  fold_left (fun acc s => Z.min (StringRange.start (Suggestions.s_range s)) acc) l a
  <= a
  /\ Forall (fun s =>
               fold_left
                 (fun acc s => Z.min (StringRange.start (Suggestions.s_range s)) acc)
                 l a
               <= StringRange.start (Suggestions.s_range s)) l.
Proof.
  revert a. induction l as [|x l IH]; intros a; cbn [fold_left].
  - split; [lia|constructor].
  - destruct (IH (Z.min (StringRange.start (Suggestions.s_range x)) a)) as [H1 H2].
    split; [lia|]. constructor; [lia|exact H2].
Qed.

Lemma fold_max_above (l : list (Suggestions.Suggestion Metadata)) (a : Z) :
  a <= fold_left (fun acc s => Z.max (StringRange.end_ (Suggestions.s_range s)) acc) l a
  /\ Forall (fun s =>
               StringRange.end_ (Suggestions.s_range s)
               <= fold_left
                    (fun acc s => Z.max (StringRange.end_ (Suggestions.s_range s)) acc)
                    l a) l.
Proof.
  revert a. induction l as [|x l IH]; intros a; cbn [fold_left].
  - split; [lia|constructor].
  - destruct (IH (Z.max (StringRange.end_ (Suggestions.s_range x)) a)) as [H1 H2].
    split; [lia|]. constructor; [lia|exact H2].
Qed.

End ExpandFacts.

(** X18: every suggestion of the set that [Suggestions.create] returns has
    the range of the set, and that range covers the range of every
    suggestion [create] was given. *)
Theorem create_gives_common_covering_range {Metadata : Type}
    (command : string) (suggestions : list (Suggestions.Suggestion Metadata)) :
  Forall (fun s =>
            Suggestions.s_range s
            = Suggestions.range (Suggestions.create command suggestions))
         (Suggestions.suggestions (Suggestions.create command suggestions))
  /\ Forall (fun s =>
               StringRange.start
                 (Suggestions.range (Suggestions.create command suggestions))
               <= StringRange.start (Suggestions.s_range s)
               /\ StringRange.end_ (Suggestions.s_range s)
                  <= StringRange.end_
                       (Suggestions.range (Suggestions.create command suggestions)))
            suggestions.
Proof.
  unfold Suggestions.create.
  destruct suggestions as [|first rest]; [split; constructor|].
  set (l := first :: rest).
  cbn [Suggestions.suggestions Suggestions.range StringRange.start StringRange.end_].
  split.
  - apply Forall_map. apply Forall_forall. intros s _. apply expand_range.
  - destruct (fold_min_below l (StringRange.start (Suggestions.s_range first)))
      as [_ Hmin].
    destruct (fold_max_above l (StringRange.end_ (Suggestions.s_range first)))
      as [_ Hmax].
    rewrite Forall_forall in *. intros s Hs. split; [apply Hmin|apply Hmax]; exact Hs.
Qed.

(** X19: expanding a suggestion to a wider range inside the command and
    applying the result to the command gives what applying the suggestion
    itself gives, unless the wider range is the whole command: then [apply]
    returns the command as it is, whatever the text of the suggestion. *)
Theorem apply_of_expanded {Metadata : Type}
    (s : Suggestions.Suggestion Metadata) (command : string)
    (range : StringRange.t) :
  0 <= StringRange.start range ->
  StringRange.start range <= StringRange.start (Suggestions.s_range s) ->
  StringRange.start (Suggestions.s_range s) <= StringRange.end_ (Suggestions.s_range s) ->
  StringRange.end_ (Suggestions.s_range s) <= StringRange.end_ range ->
  StringRange.end_ range <= JsString.length command ->
  Suggestions.apply (Suggestions.expand s command range) command
  = if (StringRange.start range =? 0)
       && (StringRange.end_ range =? JsString.length command)
    then command
    else Suggestions.apply s command.
Proof.
  intros H1 H2 H3 H4 H5.
  destruct ((StringRange.start range =? 0)
            && (StringRange.end_ range =? JsString.length command)) eqn:W.
  - unfold Suggestions.apply. rewrite expand_range, W. reflexivity.
  - unfold Suggestions.expand.
    destruct (StringRange.equals range (Suggestions.s_range s)) eqn:E; [reflexivity|].
    destruct s as [[a b] md txt tip]. destruct range as [c d].
    cbn [Suggestions.s_range Suggestions.text StringRange.start StringRange.end_] in *.
    unfold Suggestions.apply.
    cbn [Suggestions.s_range Suggestions.text StringRange.start StringRange.end_].
    rewrite W.
    assert (Hs : (a =? 0) && (b =? JsString.length command) = false).
    { apply andb_false_iff. apply andb_false_iff in W.
      destruct W as [W|W]; [left|right]; apply Z.eqb_neq in W; apply Z.eqb_neq; lia. }
    rewrite Hs. cbv zeta. unfold JsString.substringFrom.
    assert (Hb0 : (if 0 <? c then ("" +:+ JsString.substring command 0 c)%string
                   else ""%string) = JsString.substring command 0 c).
    { destruct (0 <? c) eqn:E0; [reflexivity|].
      apply Z.ltb_ge in E0. replace c with 0 by lia.
      symmetry. apply substring_same; [lia|apply length_nonneg]. }
    assert (Hb1 : (if c <? a then JsString.substring command c a else ""%string)
                  = JsString.substring command c a).
    { destruct (c <? a) eqn:E0; [reflexivity|].
      apply Z.ltb_ge in E0. replace a with c by lia.
      symmetry. apply substring_same; lia. }
    assert (Hb2 : (if 0 <? a then ("" +:+ JsString.substring command 0 a)%string
                   else ""%string) = JsString.substring command 0 a).
    { destruct (0 <? a) eqn:E0; [reflexivity|].
      apply Z.ltb_ge in E0. replace a with 0 by lia.
      symmetry. apply substring_same; [lia|apply length_nonneg]. }
    assert (Ha1 : (if b <? d then JsString.substring command b d else ""%string)
                  = JsString.substring command b d).
    { destruct (b <? d) eqn:E0; [reflexivity|].
      apply Z.ltb_ge in E0. replace d with b by lia.
      symmetry. apply substring_same; lia. }
    rewrite Hb0, Hb1, Hb2, Ha1.
    assert (Ha0 : forall x (r : string),
               0 <= x -> x <= JsString.length command ->
               (if x <? JsString.length command
                then (r +:+ JsString.substring command x (JsString.length command))%string
                else r)
               = (r +:+ JsString.substring command x (JsString.length command))%string).
    { intros x r Hx1 Hx2. destruct (x <? JsString.length command) eqn:E0; [reflexivity|].
      apply Z.ltb_ge in E0. replace x with (JsString.length command) by lia.
      rewrite substring_same by lia. now rewrite append_empty. }
    rewrite !Ha0 by lia.
    rewrite <- (@substring_split command 0 c a) by lia.
    rewrite <- (@substring_split command b d (JsString.length command)) by lia.
    rewrite !append_assoc. reflexivity.
Qed.

Lemma apply_of_expanded_witness :
  Suggestions.apply
    (Suggestions.expand
       (Suggestions.mkSuggestion (StringRange.between 7 9) tt "tea" None)
       "brew a te now" (StringRange.between 5 10))
    "brew a te now"
  = if (StringRange.start (StringRange.between 5 10) =? 0)
       && (StringRange.end_ (StringRange.between 5 10)
           =? JsString.length "brew a te now")
    then "brew a te now"%string
    else Suggestions.apply
           (Suggestions.mkSuggestion (StringRange.between 7 9) tt "tea" None)
           "brew a te now".
Proof.
  apply (@apply_of_expanded unit
           (Suggestions.mkSuggestion (StringRange.between 7 9) tt "tea" None)
           "brew a te now" (StringRange.between 5 10)); vm_compute; discriminate.
Defined.

(** ** [ListArgumentType] *)

Section UniqueFacts.
Context {A : Type}.
Variable toString : A -> string.

Lemma unique_spec (values : list A) :
  forall stringSet : gset string,
    NoDup (map toString (ListArgumentType.unique toString stringSet values))
    /\ (forall v, In v (ListArgumentType.unique toString stringSet values) ->
                  toString v ∉ stringSet)
    /\ sublist (ListArgumentType.unique toString stringSet values) values
    /\ forall k,
        List.find (fun v => String.eqb k (toString v))
                  (ListArgumentType.unique toString stringSet values)
        = if bool_decide (k ∈ stringSet) then None
          else List.find (fun v => String.eqb k (toString v)) values.
Proof.
  induction values as [|p rest IH]; intros stringSet; cbn [ListArgumentType.unique].
  - split; [apply NoDup_nil_2|]. split; [intros v []|]. split; [constructor|].
    intros k. cbn. now destruct (bool_decide _).
  - destruct (bool_decide (toString p ∈ stringSet)) eqn:E.
    + apply bool_decide_eq_true in E.
      destruct (IH stringSet) as (H1 & H2 & H3 & H4).
      split; [exact H1|]. split; [exact H2|]. split; [now constructor|].
      intros k. rewrite H4. cbn [List.find].
      destruct (bool_decide (k ∈ stringSet)) eqn:Ek; [reflexivity|].
      apply bool_decide_eq_false in Ek.
      destruct (String.eqb k (toString p)) eqn:Ekp; [|reflexivity].
      apply String.eqb_eq in Ekp. subst k. contradiction.
    + apply bool_decide_eq_false in E.
      destruct (IH ({[toString p]} ∪ stringSet)) as (H1 & H2 & H3 & H4).
      split; [|split; [|split]].
      * cbn [map]. apply NoDup_cons_2; [|exact H1].
        intros Hin. apply list_elem_of_In, in_map_iff in Hin.
        destruct Hin as (v & Hv & Hin). apply H2 in Hin.
        apply Hin. rewrite Hv. apply elem_of_union. left.
        now apply elem_of_singleton.
      * intros v [<-|Hin]; [exact E|]. apply H2 in Hin.
        intros Hc. apply Hin, elem_of_union. now right.
      * now constructor.
      * intros k. cbn [List.find].
        destruct (String.eqb k (toString p)) eqn:Ekp.
        -- apply String.eqb_eq in Ekp. subst k.
           now rewrite bool_decide_eq_false_2.
        -- apply String.eqb_neq in Ekp. rewrite H4.
           destruct (bool_decide (k ∈ stringSet)) eqn:Ek.
           ++ apply bool_decide_eq_true in Ek.
              rewrite bool_decide_eq_true_2; [reflexivity|].
              apply elem_of_union. now right.
           ++ apply bool_decide_eq_false in Ek.
              rewrite bool_decide_eq_false_2; [reflexivity|].
              intros Hc. apply elem_of_union in Hc. destruct Hc as [Hc|Hc];
                [apply elem_of_singleton in Hc; contradiction|contradiction].
Qed.

End UniqueFacts.

(** X20: [load] returns when every element loads.  Without
    [uniqueLoadedToString] it returns the loaded elements; with it, it
    returns some of them in their order, no two with the same string, and
    for each string the first loaded element that has it. *)
Theorem load_keeps_first_of_each_string {P V : Type}
    (this : ListArgumentType.t P V) (loadOne : P -> option V)
    (parsed : list P) (result : list V) :
  ListArgumentType.load this loadOne parsed = Some result ->
  exists loaded,
    mapM loadOne parsed = Some loaded
    /\ match ListArgumentType.uniqueLoadedToString (ListArgumentType.strategy this) with
       | None => result = loaded
       | Some toString =>
           NoDup (map toString result)
           /\ sublist result loaded
           /\ forall k,
               List.find (fun v => String.eqb k (toString v)) result
               = List.find (fun v => String.eqb k (toString v)) loaded
       end.
Proof.
  unfold ListArgumentType.load.
  destruct (mapM loadOne parsed) as [loaded|]; [|discriminate].
  cbn [mbind option_bind]. intros [= <-]. exists loaded. split; [reflexivity|].
  destruct (ListArgumentType.uniqueLoadedToString _) as [toString|]; [|reflexivity].
  destruct (unique_spec toString loaded ∅) as (H1 & _ & H3 & H4).
  split; [exact H1|]. split; [exact H3|].
  intros k. rewrite H4.
  rewrite bool_decide_eq_false_2; [reflexivity|apply not_elem_of_empty].
Qed.

Lemma load_keeps_first_of_each_string_witness :
  exists loaded,
    mapM (fun p : string => Some (JsString.toLowerCase p)) ["A"; "b"; "a"]%string
    = Some loaded
    /\ match ListArgumentType.uniqueLoadedToString
               (ListArgumentType.strategy Fixtures.names) with
       | None => ["a"; "b"]%string = loaded
       | Some toString =>
           NoDup (map toString ["a"; "b"]%string)
           /\ sublist ["a"; "b"]%string loaded
           /\ forall k,
               List.find (fun v => String.eqb k (toString v)) ["a"; "b"]%string
               = List.find (fun v => String.eqb k (toString v)) loaded
       end.
Proof.
  apply (@load_keeps_first_of_each_string string string Fixtures.names
           (fun p => Some (JsString.toLowerCase p)) ["A"; "b"; "a"]%string
           ["a"; "b"]%string).
  reflexivity.
Defined.

(** X21: for a list type that its constructor accepted, the end of [parse]
    throws exactly when fewer than [minimum] or more than [maximum]
    elements were read; otherwise it returns elements that were read, in
    their order and at least one, all of them when there is no
    [uniqueParsedToString]. *)
Theorem finishParse_returns_nonempty_within_bounds {P V : Type}
    (strategy : ListArgumentType.ListParsingStrategy P V)
    (minimum : Z) (maximum : option Z) (this : ListArgumentType.t P V)
    (reader : StringReader.t) (got : list P) :
  ListArgumentType.new strategy minimum maximum = inr this ->
  match ListArgumentType.finishParse this reader got with
  | inl error =>
      (Z.of_nat (List.length got) < minimum
       /\ ListArgumentType.failType error = ListArgumentType.TOO_LOW)
      \/ (minimum <= Z.of_nat (List.length got)
          /\ ListArgumentType.above maximum (Z.of_nat (List.length got)) = true
          /\ ListArgumentType.failType error = ListArgumentType.TOO_HIGH)
  | inr result =>
      minimum <= Z.of_nat (List.length got)
      /\ ListArgumentType.above maximum (Z.of_nat (List.length got)) = false
      /\ result <> []
      /\ sublist result got
      /\ (ListArgumentType.uniqueParsedToString strategy = None -> result = got)
  end.
Proof.
  unfold ListArgumentType.new.
  destruct (minimum <? 1) eqn:Emin; [discriminate|].
  destruct (ListArgumentType.above maximum minimum); [discriminate|].
  intros [= <-]. apply Z.ltb_ge in Emin.
  unfold ListArgumentType.finishParse.
  cbn [ListArgumentType.minimum ListArgumentType.maximum ListArgumentType.strategy].
  destruct (Z.of_nat (List.length got) <? minimum) eqn:Elow; cbn [orb].
  - apply Z.ltb_lt in Elow. left. auto.
  - apply Z.ltb_ge in Elow.
    destruct (ListArgumentType.above maximum (Z.of_nat (List.length got))) eqn:Ehigh.
    + right. auto.
    + split; [exact Elow|]. split; [reflexivity|].
      destruct got as [|p rest]; [cbn in Elow; lia|].
      destruct (ListArgumentType.uniqueParsedToString strategy) as [toString|].
      * split; [|split; [|discriminate]].
        -- cbn [ListArgumentType.unique].
           rewrite bool_decide_eq_false_2 by apply not_elem_of_empty.
           discriminate.
        -- apply (unique_spec toString (p :: rest) ∅).
      * split; [discriminate|]. split; [reflexivity|reflexivity].
Qed.

Lemma finishParse_returns_nonempty_within_bounds_witness :
  match ListArgumentType.finishParse Fixtures.names (StringReader.new "a,a")
          ["a"; "a"]%string with
  | inl error =>
      (Z.of_nat (List.length ["a"; "a"]%string) < 2
       /\ ListArgumentType.failType error = ListArgumentType.TOO_LOW)
      \/ (2 <= Z.of_nat (List.length ["a"; "a"]%string)
          /\ ListArgumentType.above None (Z.of_nat (List.length ["a"; "a"]%string))
             = true
          /\ ListArgumentType.failType error = ListArgumentType.TOO_HIGH)
  | inr result =>
      2 <= Z.of_nat (List.length ["a"; "a"]%string)
      /\ ListArgumentType.above None (Z.of_nat (List.length ["a"; "a"]%string))
         = false
      /\ result <> []
      /\ sublist result ["a"; "a"]%string
      /\ (ListArgumentType.uniqueParsedToString Fixtures.byName = None ->
          result = ["a"; "a"]%string)
  end.
Proof.
  apply (@finishParse_returns_nonempty_within_bounds string string
           Fixtures.byName 2 None Fixtures.names (StringReader.new "a,a")
           ["a"; "a"]%string).
  reflexivity.
Defined.

(** With a minimum of two and duplicates dropped after the check of the
    amount, the two elements read from ["a,a"] pass the check and one is
    returned. *)
Example finishParse_result_below_minimum :
  ListArgumentType.finishParse Fixtures.names (StringReader.new "a,a")
    ["a"; "a"]%string = inr ["a"%string].
Proof. reflexivity. Qed.

(** ** From registration to execution *)

Section EndToEnd.
Context {Source T Value : Type}.
Variable env : Dispatch.Env Source T Value.
Variable localeCompare : string -> string -> Z.

Lemma skipToSpace_word (suffix : string) :
  forall (pre : string) (steps : nat),
    Matching.hasSpace suffix = false ->
    (String.length suffix <= steps)%nat ->
    Dispatch.skipToSpace steps
      (StringReader.mk (pre +:+ suffix) (JsString.length pre))
    = StringReader.mk (pre +:+ suffix) (JsString.length (pre +:+ suffix)).
Proof.
  induction suffix as [|ch suffix IH]; intros pre steps Hsp Hsteps.
  - rewrite append_empty.
    destruct steps as [|steps]; [reflexivity|].
    cbn [Dispatch.skipToSpace].
    unfold StringReader.canReadAnything, StringReader.canRead.
    cbn [StringReader.cursor StringReader.string_].
    destruct (JsString.length pre + 1 <=? JsString.length pre) eqn:E;
      [apply Z.leb_le in E; lia|reflexivity].
  - cbn [Matching.hasSpace] in Hsp. apply orb_false_iff in Hsp.
    destruct Hsp as [Hch Hsp]. apply bool_decide_eq_false in Hch.
    destruct steps as [|steps]; [cbn in Hsteps; lia|].
    cbn [Dispatch.skipToSpace].
    unfold StringReader.canReadAnything, StringReader.canRead, StringReader.peek,
      StringReader.skip.
    cbn [StringReader.cursor StringReader.string_].
    rewrite charAt_after_prefix.
    rewrite length_append.
    assert (Hlen : JsString.length (String ch suffix) = 1 + JsString.length suffix).
    { unfold JsString.length. cbn [String.length]. lia. }
    pose proof (length_nonneg suffix).
    destruct (JsString.length pre + 1
              <=? JsString.length pre + JsString.length (String ch suffix)) eqn:E;
      [|apply Z.leb_gt in E; lia].
    rewrite bool_decide_eq_false_2 by congruence.
    cbn [andb negb].
    replace (pre +:+ String ch suffix)%string
      with ((pre +:+ String ch "") +:+ suffix)%string
      by (rewrite append_assoc; reflexivity).
    replace (JsString.length pre + 1) with (JsString.length (pre +:+ String ch ""))
      by (rewrite length_append; reflexivity).
    rewrite IH; [|exact Hsp|cbn in Hsteps; lia].
    f_equal. rewrite !length_append, Hlen.
    change (JsString.length (String ch "")) with 1. lia.
Qed.

Lemma nextToken_word (name : string) :
  Matching.hasSpace name = false ->
  Matching.nextToken (StringReader.new name) = name.
Proof.
  intros Hsp. unfold Matching.nextToken, StringReader.new.
  cbn [StringReader.string_ StringReader.cursor].
  pose proof (@skipToSpace_word name "" (String.length name) Hsp (Nat.le_refl _)) as H.
  change ("" +:+ name)%string with name in H.
  change (JsString.length "") with 0 in H.
  rewrite H. cbn [StringReader.cursor].
  pose proof (substring_of_append name "") as H2.
  now rewrite append_empty in H2.
Qed.

Lemma isMe_own_name (name : string) :
  JsString.toLowerCase name = name ->
  LiteralCommandNode.isMe [name] name = true.
Proof.
  intros Hlow. unfold LiteralCommandNode.isMe, JsString.includes. rewrite Hlow.
  cbn [existsb]. unfold JsString.eqb. now rewrite String.eqb_refl.
Qed.

Lemma _parse_own_name (name : string) :
  JsString.toLowerCase name = name ->
  LiteralCommandNode._parse [name] (StringReader.new name)
  = (JsString.length name,
     StringReader.setCursor (StringReader.new name) (JsString.length name)).
Proof.
  intros Hlow. cbn [LiteralCommandNode._parse].
  pose proof (@tryLiteral_self name "" Hlow (or_introl eq_refl)) as H.
  rewrite append_empty in H. now rewrite H.
Qed.

Lemma getRelevant_own_name (root node : CommandNode.t Source T) (name : string) :
  JsString.toLowerCase name = name ->
  Matching.hasSpace name = false ->
  CommandNode.kind node = CommandNode.Literal [name] ->
  CommandNode.literals root = [(name, node)] ->
  Dispatch.getRelevant root (StringReader.new name) = [node].
Proof.
  intros Hlow Hsp Hkind Hlit. unfold Dispatch.getRelevant. rewrite Hlit.
  cbn [JsMap.size List.length JsMap.values map snd].
  change (0 <? Z.of_nat 1) with true. cbv iota.
  change (JsString.substring (StringReader.string_ (StringReader.new name))
            (StringReader.cursor (StringReader.new name))
            (StringReader.cursor
               (Dispatch.skipToSpace
                  (String.length (StringReader.string_ (StringReader.new name)))
                  (StringReader.new name))))
    with (Matching.nextToken (StringReader.new name)).
  rewrite nextToken_word by exact Hsp.
  cbn [List.filter]. rewrite Hkind, isMe_own_name by exact Hlow. reflexivity.
Qed.

Lemma parseNodes_own_name (root node : CommandNode.t Source T) (name : string)
    (command : Command) (q : Requirement.NormalizedRequirement Source T)
    (contextSoFar : Context.CommandContextBuilder Source T Value) :
  JsString.toLowerCase name = name ->
  Matching.hasSpace name = false ->
  CommandNode.kind node = CommandNode.Literal [name] ->
  CommandNode.requirement node = Some q ->
  Dispatch.visibility env [] node (q (Context.b_source contextSoFar)) <> None ->
  CommandNode.command node = Some command ->
  CommandNode.literals root = [(name, node)] ->
  Dispatch.parseNodes env 2 root (StringReader.new name) contextSoFar
  = Some (Context.mkParseResults
            (Context.withCommand
               (Context.withNode (Context.copy contextSoFar) node
                  (StringRange.between 0 (JsString.length name)))
               (Some command))
            []
            (StringReader.setCursor (StringReader.new name) (JsString.length name))).
Proof.
  intros Hlow Hsp Hkind Hreq Hvis Hcmd Hlit.
  cbn [Dispatch.parseNodes].
  rewrite (@getRelevant_own_name root node name Hlow Hsp Hkind Hlit).
  assert (Hcheck : CommandNode.checkRequirement 1 (Dispatch.resolve env) node
                     (Context.b_source contextSoFar)
                   = Some (q (Context.b_source contextSoFar))).
  { cbn [CommandNode.checkRequirement]. rewrite Hreq, Hcmd.
    now destruct (q (Context.b_source contextSoFar)). }
  rewrite Hcheck. cbn [mbind option_bind].
  destruct (Dispatch.visibility env [] node (q (Context.b_source contextSoFar)))
    as [errors1|]; [|contradiction].
  unfold Dispatch.tryParse, Dispatch.parseNode, StringReader.clone.
  rewrite Hkind, _parse_own_name by exact Hlow.
  pose proof (length_nonneg name) as Hlen.
  destruct (-1 <? JsString.length name) eqn:E; [|apply Z.ltb_ge in E; lia].
  unfold StringReader.canReadAnything, StringReader.canRead, StringReader.setCursor,
    StringReader.new.
  cbn [StringReader.cursor StringReader.string_].
  assert (E3 : forall k, 0 < k ->
                 (JsString.length name + k <=? JsString.length name) = false)
    by (intros k Hk; apply Z.leb_gt; lia).
  rewrite (E3 1) by lia.
  cbn [andb StringReader.cursor StringReader.string_].
  rewrite Hcmd.
  rewrite E3 by (destruct (CommandNode.redirect node); lia).
  reflexivity.
Qed.

End EndToEnd.

(** X22: a literal command registered in a new dispatcher under a name in
    lower case without spaces is found by [parse] of that name, which
    reads all of the input, and [executeResults] then calls its executor,
    once, with a context for the given source and input, and returns the
    value of the executor alone, or throws what the executor throws. *)
Theorem registered_command_runs {Source T Value : Type}
    (env : Dispatch.Env Source T Value) (localeCompare : string -> string -> Z)
    (name : string) (command : Command) (description : option string)
    (source : Source) :
  JsString.toLowerCase name = name ->
  Matching.hasSpace name = false ->
  exists dispatcher node parse context,
    CommandDispatcher.register localeCompare 1 [] (CommandDispatcher.new Source T)
      (ArgumentBuilder.executes (ArgumentBuilder.newLiteral [name])
                                command description)
    = Some (dispatcher, node)
    /\ Dispatch.parse env 2 dispatcher name source = Some parse
    /\ StringReader.canReadAnything (Context.reader parse) = false
    /\ Context.exceptions parse = []
    /\ map (fun n => Context.node n) (Context.b_nodes (Context.context parse))
       = [node]
    /\ Context.source context = source
    /\ Context.input context = name
    /\ Dispatch.executeResults env parse
       = match Dispatch.runCommand env command context with
         | inr value =>
             Dispatch.mkOutcome
               [Dispatch.Ran command context; Dispatch.Consumed context true]
               (inr [Dispatch.Success value])
         | inl e =>
             Dispatch.mkOutcome
               [Dispatch.Ran command context; Dispatch.Consumed context false]
               (inl e)
         end.
Proof.
  intros Hlow Hsp.
  set (node := @CommandNode.mk Source T (CommandNode.Literal [name]) (Some command)
                 description (Some (fun _ => None)) None None [] [] []).
  set (root := @CommandNode.mk Source T CommandNode.Root None None
                 (Some (fun _ => None)) None (Some CommandNode.rootModifier)
                 [(name, node)] [(name, node)] []).
  exists (CommandDispatcher.mk root), node.
  eexists. eexists.
  split; [reflexivity|].
  split.
  { unfold Dispatch.parse. cbn [CommandDispatcher.root].
    apply (@parseNodes_own_name _ _ _ env root node name command (fun _ => None));
      auto; discriminate. }
  pose proof (length_nonneg name) as Hlen.
  split.
  { unfold StringReader.canReadAnything, StringReader.canRead. cbn.
    apply Z.leb_gt. lia. }
  split; [reflexivity|]. split; [reflexivity|].
  split; [|split]; cycle 2.
  { unfold Dispatch.executeResults.
    cbn [Context.reader].
    unfold StringReader.canReadAnything, StringReader.canRead.
    cbn [StringReader.setCursor StringReader.new StringReader.cursor
         StringReader.string_].
    destruct (JsString.length name + 1 <=? JsString.length name) eqn:E;
      [apply Z.leb_le in E; lia|].
    cbn. reflexivity. }
  - reflexivity.
  - reflexivity.
Qed.

Lemma registered_command_runs_witness :
  exists dispatcher node parse context,
    CommandDispatcher.register Fixtures.byteCompare 1 []
      (CommandDispatcher.new Fixtures.Actor string)
      (ArgumentBuilder.executes (ArgumentBuilder.newLiteral ["a"%string]) 1%nat None)
    = Some (dispatcher, node)
    /\ Dispatch.parse Fixtures.env0 2 dispatcher "a" Fixtures.moderator = Some parse
    /\ StringReader.canReadAnything (Context.reader parse) = false
    /\ Context.exceptions parse = []
    /\ map (fun n => Context.node n) (Context.b_nodes (Context.context parse))
       = [node]
    /\ Context.source context = Fixtures.moderator
    /\ Context.input context = "a"%string
    /\ Dispatch.executeResults Fixtures.env0 parse
       = match Dispatch.runCommand Fixtures.env0 1%nat context with
         | inr value =>
             Dispatch.mkOutcome
               [Dispatch.Ran 1%nat context; Dispatch.Consumed context true]
               (inr [Dispatch.Success value])
         | inl e =>
             Dispatch.mkOutcome
               [Dispatch.Ran 1%nat context; Dispatch.Consumed context false]
               (inl e)
         end.
Proof.
  apply (@registered_command_runs Fixtures.Actor string string Fixtures.env0
           Fixtures.byteCompare "a" 1%nat None Fixtures.moderator); reflexivity.
Defined.

(** X23: [BoolArgumentType.listSuggestions] offers those of ["true"] and
    ["false"] that start with the lower-case form of the text that remains
    to be completed, except the one equal to that text as written. *)
Theorem bool_listSuggestions_offers_by_prefix {Metadata : Type}
    (input : string) (start : Z) (metadata : Metadata) :
  Suggestions.suggestions
    (BoolArgumentType.listSuggestions
       (Suggestions.newBuilder input start metadata))
  = map (fun word =>
           Suggestions.mkSuggestion
             (StringRange.between start (JsString.length input))
             metadata word None)
        (List.filter
           (fun word =>
              JsString.startsWith word
                (JsString.toLowerCase (JsString.substringFrom input start))
              && negb (JsString.eqb word (JsString.substringFrom input start)))
           BoolArgumentType.examples).
Proof.
  change (BoolArgumentType.listSuggestions
            (Suggestions.newBuilder input start metadata))
    with (Suggestions.build
            (fold_left
               (fun b word =>
                  if JsString.startsWith word
                       (JsString.toLowerCase
                          (Suggestions.remaining
                             (Suggestions.newBuilder input start metadata)))
                  then Suggestions.suggest b word None
                  else b)
               BoolArgumentType.examples
               (Suggestions.newBuilder input start metadata))).
  rewrite (fold_suggest
             (fun word =>
                JsString.startsWith word
                  (JsString.toLowerCase
                     (Suggestions.remaining
                        (Suggestions.newBuilder input start metadata))))
             (fun word => word) (fun _ => None)).
  cbn [Suggestions.newBuilder Suggestions.input Suggestions.start
       Suggestions.b_metadata Suggestions.remaining Suggestions.result app].
  unfold Suggestions.build. cbn [Suggestions.input Suggestions.result].
  apply create_uniform with (range := StringRange.between start (JsString.length input)).
  apply Forall_map. apply Forall_forall. reflexivity.
Qed.

(** X24: a literal command whose requirement fails for the source with a
    reason that is truthy is parsed like a permitted one: [parse] of its
    name reads all of the input and records no exception, and
    [executeResults] then calls its executor. *)
Theorem denied_with_reason_command_still_runs {Source T Value : Type}
    (env : Dispatch.Env Source T Value) (localeCompare : string -> string -> Z)
    (name : string) (command : Command) (description : option string)
    (source : Source) (q : Requirement.NormalizedRequirement Source T)
    (failure : Requirement.RequirementFailure T) (reason : T) :
  JsString.toLowerCase name = name ->
  Matching.hasSpace name = false ->
  q source = Some failure ->
  Requirement.reason failure = Some reason ->
  Dispatch.truthy env reason = true ->
  exists dispatcher node parse context,
    CommandDispatcher.register localeCompare 1 [] (CommandDispatcher.new Source T)
      (ArgumentBuilder.executes
         (fst (ArgumentBuilder.requires (ArgumentBuilder.newLiteral [name])
                                        (Requirement.ReqFn q) []))
         command description)
    = Some (dispatcher, node)
    /\ CommandNode.checkRequirement 1 (Dispatch.resolve env) node source
       = Some (Some failure)
    /\ Dispatch.parse env 2 dispatcher name source = Some parse
    /\ StringReader.canReadAnything (Context.reader parse) = false
    /\ Context.exceptions parse = []
    /\ Context.source context = source
    /\ Context.input context = name
    /\ Dispatch.executeResults env parse
       = match Dispatch.runCommand env command context with
         | inr value =>
             Dispatch.mkOutcome
               [Dispatch.Ran command context; Dispatch.Consumed context true]
               (inr [Dispatch.Success value])
         | inl e =>
             Dispatch.mkOutcome
               [Dispatch.Ran command context; Dispatch.Consumed context false]
               (inl e)
         end.
Proof.
  intros Hlow Hsp Hq Hreason Htruthy.
  set (node := @CommandNode.mk Source T (CommandNode.Literal [name]) (Some command)
                 description (Some q) None None [] [] []).
  set (root := @CommandNode.mk Source T CommandNode.Root None None
                 (Some (fun _ => None)) None (Some CommandNode.rootModifier)
                 [(name, node)] [(name, node)] []).
  exists (CommandDispatcher.mk root), node.
  eexists. eexists.
  split; [reflexivity|].
  split; [cbn; now rewrite Hq|].
  split.
  { unfold Dispatch.parse. cbn [CommandDispatcher.root].
    apply (@parseNodes_own_name _ _ _ env root node name command q); auto.
    cbn [Context.newBuilder Context.b_source]. rewrite Hq.
    unfold Dispatch.visibility. rewrite Hreason, Htruthy. discriminate. }
  pose proof (length_nonneg name) as Hlen.
  split.
  { unfold StringReader.canReadAnything, StringReader.canRead. cbn.
    apply Z.leb_gt. lia. }
  split; [reflexivity|].
  split; [|split]; cycle 2.
  { unfold Dispatch.executeResults.
    cbn [Context.reader].
    unfold StringReader.canReadAnything, StringReader.canRead.
    cbn [StringReader.setCursor StringReader.new StringReader.cursor
         StringReader.string_].
    destruct (JsString.length name + 1 <=? JsString.length name) eqn:E;
      [apply Z.leb_le in E; lia|].
    cbn. reflexivity. }
  - reflexivity.
  - reflexivity.
Qed.

Lemma denied_with_reason_command_still_runs_witness :
  exists dispatcher node parse context,
    CommandDispatcher.register Fixtures.byteCompare 1 []
      (CommandDispatcher.new Fixtures.Actor string)
      (ArgumentBuilder.executes
         (fst (ArgumentBuilder.requires (ArgumentBuilder.newLiteral ["kick"%string])
                                        (Requirement.ReqFn Fixtures.canKick) []))
         1%nat None)
    = Some (dispatcher, node)
    /\ CommandNode.checkRequirement 1 (Dispatch.resolve Fixtures.env0) node
         Fixtures.moderator
       = Some (Some (Fixtures.deny "may not kick"))
    /\ Dispatch.parse Fixtures.env0 2 dispatcher "kick" Fixtures.moderator
       = Some parse
    /\ StringReader.canReadAnything (Context.reader parse) = false
    /\ Context.exceptions parse = []
    /\ Context.source context = Fixtures.moderator
    /\ Context.input context = "kick"%string
    /\ Dispatch.executeResults Fixtures.env0 parse
       = match Dispatch.runCommand Fixtures.env0 1%nat context with
         | inr value =>
             Dispatch.mkOutcome
               [Dispatch.Ran 1%nat context; Dispatch.Consumed context true]
               (inr [Dispatch.Success value])
         | inl e =>
             Dispatch.mkOutcome
               [Dispatch.Ran 1%nat context; Dispatch.Consumed context false]
               (inl e)
         end.
Proof.
  apply (@denied_with_reason_command_still_runs Fixtures.Actor string string
           Fixtures.env0 Fixtures.byteCompare "kick" 1%nat None Fixtures.moderator
           Fixtures.canKick (Fixtures.deny "may not kick") "may not kick"%string);
    reflexivity.
Defined.
